(** * System-health metrics of traceviewer-js: responsiveness and memory

    A shallow embedding of
    [metrics/system_health/responsiveness_metric.js],
    [metrics/system_health/memory_metric.js] and the expectation list of
    [model/user_model/user_model.js], followed by the properties established
    for them.

    Conventions of the embedding:
    - a JavaScript number that holds a duration, a count or a score is an
      exact rational ([Q]); byte sizes and process counts are integers ([Z]).
      Where a property depends on the rounding of the code's doubles, the
      computation is embedded a second time in binary64 arithmetic (module
      [Double]);
    - a [throw new Error(msg)] is the outcome [Throw msg] of the [result]
      type, and code that threads a value list is written in the state and
      exception monad [js];
    - a JavaScript object used as a dictionary, and a [Map], is an
      insertion-ordered association list ([Dict]): both iterate in insertion
      order, which fixes the order of reported names and of the suffixes
      given to duplicate browser names.  A plain object also answers to the
      names it inherits from [Object.prototype]: dictionary keys are taken
      not to be such names, and the properties that read the groups of the
      process names and their values key by key state this as a hypothesis
      ([plainProcessNames], [plainValueNames]);
    - a string is a list of bytes, and [toLowerCase] is that of the code on
      ASCII names;
    - [undefined] is [None]. *)

From Stdlib Require Import QArith Qminmax Qround Qpower Lqa ZArith List String.
From Stdlib Require Import Ascii Bool.
From Stdlib Require Import Lia Arith.
From Stdlib Require Import DecimalNat DecimalString FinFun.
From Stdlib Require Import Sorted Permutation.
Import ListNotations.

Set Implicit Arguments.

(** ** Outcomes of JavaScript computations *)

Inductive result (A : Type) : Type :=
| Ok (a : A)
| Throw (message : string).

Arguments Ok {A} a.
Arguments Throw {A} message.

Definition result_bind {A B : Type} (r : result A) (k : A -> result B)
  : result B :=
  match r with
  | Ok a => k a
  | Throw m => Throw m
  end.

(** State and exception monad: the state is the value list that the
    computation fills; a [Throw] keeps the state reached so far. *)
Definition js (S A : Type) : Type := S -> result A * S.

Definition js_ret {S A : Type} (a : A) : js S A := fun s => (Ok a, s).

Definition js_throw {S A : Type} (m : string) : js S A :=
  fun s => (Throw m, s).

Definition js_bind {S A B : Type} (c : js S A) (k : A -> js S B) : js S B :=
  fun s =>
    match c s with
    | (Ok a, s') => k a s'
    | (Throw m, s') => (Throw m, s')
    end.

Declare Scope js_scope.
Delimit Scope js_scope with js.
Notation "x <- c ;; k" := (js_bind c (fun x => k))
  (at level 61, c at next level, right associativity) : js_scope.
Notation "c ;;; k" := (js_bind c (fun _ => k))
  (at level 61, right associativity) : js_scope.

(** ** Insertion-ordered dictionaries *)

Section Dict.
Variable V : Type.

Definition Dict : Type := list (string * V).

Fixpoint dict_get (d : Dict) (k : string) : option V :=
  match d with
  | [] => None
  | (k', v) :: rest => if String.eqb k' k then Some v else dict_get rest k
  end.

Definition dict_has (d : Dict) (k : string) : bool :=
  match dict_get d k with Some _ => true | None => false end.

(** [d[k] = v]: an existing key keeps its position, a new key goes last. *)
Fixpoint dict_set (d : Dict) (k : string) (v : V) : Dict :=
  match d with
  | [] => [(k, v)]
  | (k', v') :: rest =>
      if String.eqb k' k then (k', v) :: rest
      else (k', v') :: dict_set rest k v
  end.

Definition dict_keys (d : Dict) : list string := map fst d.

(** Modelled from the spec: [tr.b.dictionaryValues]
    (base/iteration_helpers.js is not among the sources), the values of a
    dictionary in iteration order. *)
Definition dictionaryValues (d : Dict) : list V := map snd d.
End Dict.

(** ** tr.b arithmetic helpers *)

Local Open Scope Q_scope.

(** Modelled from the spec: [tr.b.normalize] (base/base.js is not among the
    sources): the position of [value] in the range [lo, hi]. *)
Definition normalize (value lo hi : Q) : Q := (value - lo) / (hi - lo).

(** Modelled from the spec: [tr.b.lerp], linear interpolation. *)
Definition lerp (percentage lo hi : Q) : Q := lo + (hi - lo) * percentage.

(** Modelled from the spec: [tr.b.clamp], [Math.min(Math.max(x, lo), hi)]. *)
Definition clamp (x lo hi : Q) : Q := Qmin (Qmax x lo) hi.

(** ** Scoring histograms (tr.v.Numeric) *)

(** Modelled from the spec: a bin and a scoring table, with the fields of
    the dictionary that [tr.v.Numeric.fromDict] is given for each table. *)
Record NumericBin : Type := mkBin {
  bin_min : Q;
  bin_max : Q;
  bin_count : Q
}.

Record Numeric : Type := mkNumeric {
  numeric_unit : string;
  range_min : Q;
  range_max : Q;
  centralBinWidth : Q;
  underflowBin : NumericBin;
  centralBins : list NumericBin;
  overflowBin : NumericBin
}.

(** [Number.MAX_VALUE], the largest finite double. *)
Definition Number_MAX_VALUE : Q := inject_Z (2 ^ 1024 - 2 ^ 971).

(** Modelled from the spec: the centre of the range of a bin. *)
Definition center (bin : NumericBin) : Q := (bin_min bin + bin_max bin) / 2.

Definition allBins (h : Numeric) : list NumericBin :=
  underflowBin h :: centralBins h ++ [overflowBin h].

(** Modelled from the spec: [Numeric.maxCount] (value/numeric.js is not among
    the sources): the count used for normalisation, the largest bin count of
    the table. *)
Definition maxCount (h : Numeric) : Q :=
  fold_left (fun m bin => Qmax m (bin_count bin)) (allBins h) 0.

(** Modelled from the spec: the interpolation of [getInterpolatedCountAt]
    for a [value] inside the central range.  [lesserCenter]
    and [lesserCount] describe the neighbour below the bins still to be
    searched: the underflow bin, whose centre is taken to be its upper
    boundary, or the previous central bin.  The bin that [value] falls into
    is the first one whose upper boundary exceeds it; the value is then
    interpolated between the centre of that bin and the centre of its
    neighbour on the side of the value (the overflow bin's centre being its
    lower boundary). *)
Fixpoint interpolateCentral (lesserCenter lesserCount : Q)
    (bins : list NumericBin) (overflow : NumericBin) (value : Q) : Q :=
  match bins with
  | [] => bin_count overflow
  | bin :: rest =>
      if Qlt_le_dec value (bin_max bin) then
        if Qlt_le_dec value (center bin) then
          lerp (normalize value lesserCenter (center bin))
               lesserCount (bin_count bin)
        else
          let greater :=
            match rest with
            | [] => (bin_min overflow, bin_count overflow)
            | g :: _ => (center g, bin_count g)
            end in
          lerp (normalize value (center bin) (fst greater))
               (bin_count bin) (snd greater)
      else
        interpolateCentral (center bin) (bin_count bin) rest overflow value
  end.

(** Modelled from the spec: [Numeric.getInterpolatedCountAt] (value/numeric.js
    is not among the sources).  A value below the range takes the underflow
    count, a value at or above the range takes the overflow count, and a
    value in between is linearly interpolated within the bin it falls
    into. *)
Definition getInterpolatedCountAt (h : Numeric) (value : Q) : Q :=
  if Qlt_le_dec value (range_min h) then bin_count (underflowBin h)
  else if Qlt_le_dec value (range_max h) then
    interpolateCentral (bin_max (underflowBin h)) (bin_count (underflowBin h))
                       (centralBins h) (overflowBin h) value
  else bin_count (overflowBin h).

(** ** responsiveness_metric.js *)

Definition RESPONSE_HISTOGRAM : Numeric := {|
  numeric_unit := "unitless";
  range_min := 150;
  range_max := 5000;
  centralBinWidth := 485;
  underflowBin := mkBin (- Number_MAX_VALUE) 150 1000;
  centralBins := [
    mkBin 150 635 708;
    mkBin 635 1120 223;
    mkBin 1120 1605 50;
    mkBin 1605 2090 33;
    mkBin 2090 2575 23;
    mkBin 2575 3060 17;
    mkBin 3060 3545 12;
    mkBin 3545 4030 8;
    mkBin 4030 4515 4;
    mkBin 4515 5000 1
  ];
  overflowBin := mkBin 5000 Number_MAX_VALUE 0
|}.

Definition FAST_RESPONSE_HISTOGRAM : Numeric := {|
  numeric_unit := "unitless";
  range_min := 66;
  range_max := 2200;
  centralBinWidth := 214;
  underflowBin := mkBin (- Number_MAX_VALUE) 66 1000;
  centralBins := [
    mkBin 66 280 708;
    mkBin 280 493 223;
    mkBin 493 706 50;
    mkBin 706 920 33;
    mkBin 920 1133 23;
    mkBin 1133 1346 17;
    mkBin 1346 1560 12;
    mkBin 1560 1773 8;
    mkBin 1773 1987 4;
    mkBin 1987 2200 1
  ];
  overflowBin := mkBin 2200 Number_MAX_VALUE 0
|}.

Definition LOAD_HISTOGRAM : Numeric := {|
  numeric_unit := "unitless";
  range_min := 1000;
  range_max := 60000;
  centralBinWidth := 5900;
  underflowBin := mkBin (- Number_MAX_VALUE) 1000 1000;
  centralBins := [
    mkBin 1000 6900 901;
    mkBin 6900 12800 574;
    mkBin 12800 18700 298;
    mkBin 18700 24600 65;
    mkBin 24600 30500 35;
    mkBin 30500 36400 23;
    mkBin 36400 42300 16;
    mkBin 42300 48200 10;
    mkBin 48200 54100 5;
    mkBin 54100 60000 2
  ];
  overflowBin := mkBin 60000 Number_MAX_VALUE 0
|}.

(** The three scoring tables of the metric. *)
Definition scoringTables : list Numeric :=
  [RESPONSE_HISTOGRAM; FAST_RESPONSE_HISTOGRAM; LOAD_HISTOGRAM].

Definition computeDurationResponsiveness (histogram : Numeric) (duration : Q)
  : Q :=
  getInterpolatedCountAt histogram duration / maxCount histogram.

(** *** User expectations and reported values *)

Record FrameEvent : Type := mkFrame {
  frame_start : Q
}.

(** The classes tested by the [instanceof] chain; [OtherExpectation] stands
    for any user expectation that is none of the four. *)
Inductive ExpectationKind : Type :=
| IdleExpectation
| LoadExpectation
| ResponseExpectation (isAnimationBegin : bool)
| AnimationExpectation (frameEvents : option (list FrameEvent))
| OtherExpectation.

Record UserExpectation : Type := mkUE {
  stableId : string;
  stageTitle : string;
  initiatorTitle : string;
  ue_start : Q;
  duration : Q;
  kind : ExpectationKind
}.

Record GroupingKeys : Type := mkKeys {
  userExpectationStableId : string;
  userExpectationStageTitle : string;
  userExpectationInitiatorTitle : string
}.

(** A [tr.v.NumericValue] holding a [ScalarNumeric] of unit
    [normalizedPercentage_biggerIsBetter].  The empty [groupingKeys] object
    of the overall value is [None]; [diagnostics] holds the values of
    [{values: diagnosticValues.valueDicts}], and is empty for a value made
    without diagnostics. *)
#[warnings="-register-all"] Inductive NumericValue : Type :=
| mkValue (canonicalUrl : string) (name : string) (score : Q)
          (description : string) (groupingKeys : option GroupingKeys)
          (diagnostics : list NumericValue).

Definition value_name (v : NumericValue) : string :=
  match v with mkValue _ n _ _ _ _ => n end.

Definition value_groupingKeys (v : NumericValue) : option GroupingKeys :=
  match v with mkValue _ _ _ _ g _ => g end.

Definition value_diagnostics (v : NumericValue) : list NumericValue :=
  match v with mkValue _ _ _ _ _ d => d end.

(** [tr.metrics.ValueList]. *)
Definition ValueList : Type := list NumericValue.

Definition addValue (v : NumericValue) : js ValueList unit :=
  fun values => (Ok tt, values ++ [v]).

Definition groupingKeysForUserExpectation (ue : UserExpectation)
  : GroupingKeys :=
  {| userExpectationStableId := stableId ue;
     userExpectationStageTitle := stageTitle ue;
     userExpectationInitiatorTitle := initiatorTitle ue |}.

Definition MAX_FPS : Q := 60.
Definition MIN_FPS : Q := 10.

Definition missingFrameEvents (frameEvents : option (list FrameEvent))
  : bool :=
  match frameEvents with
  | None => true
  | Some events => Nat.eqb (List.length events) 0
  end.

Definition frameEventsOf (ue : UserExpectation) : option (list FrameEvent) :=
  match kind ue with
  | AnimationExpectation frameEvents => frameEvents
  | _ => None
  end.

Definition frameCount (ue : UserExpectation) : nat :=
  match frameEventsOf ue with
  | Some events => List.length events
  | None => 0
  end.

Definition computeAnimationThroughput (animationExpectation : UserExpectation)
  : result Q :=
  if missingFrameEvents (frameEventsOf animationExpectation) then
    Throw ("Animation missing frameEvents "
           ++ stableId animationExpectation)%string
  else
    let durationSeconds := duration animationExpectation / 1000 in
    let avgSpf :=
      durationSeconds / inject_Z (Z.of_nat (frameCount animationExpectation)) in
    let throughput := 1 - normalize avgSpf (1 / MAX_FPS) (1 / MIN_FPS) in
    Ok (clamp throughput 0 1).


(** *** Double arithmetic

    The scores above are computed in exact arithmetic.  The code computes
    them in IEEE 754 binary64 arithmetic, where every operation rounds its
    exact result to the nearest double, ties to the even mantissa.  A double
    is read as the rational it denotes; infinities and NaN are left out, so
    the operations below are those of the code as long as no result exceeds
    the largest double, which no throughput computation on a finite duration
    does. *)

(** The integer k with 2 ^ k <= x < 2 ^ (k + 1), for a positive x. *)
Definition ilog2 (x : Q) : Z :=
  let k := (Z.log2 (Qnum x) - Z.log2 (Zpos (Qden x)))%Z in
  if Qle_bool (2 ^ k) x then k else (k - 1)%Z.

(** The nearest integer, the even one of two that are equally near. *)
Definition roundHalfEven (q : Q) : Z :=
  let f := Qfloor q in
  match Qcompare (q - inject_Z f) (1 # 2) with
  | Lt => f
  | Gt => (f + 1)%Z
  | Eq => if Z.even f then f else (f + 1)%Z
  end.

(** The exponent of the last mantissa bit of the doubles around a positive
    x: 53 bits of mantissa, and the fixed exponent -1074 of the subnormal
    numbers. *)
Definition binary64Exponent (x : Q) : Z := Z.max (ilog2 x - 52) (-1074).

Definition roundPositive (x : Q) : Q :=
  let e := binary64Exponent x in
  inject_Z (roundHalfEven (x / 2 ^ e)) * 2 ^ e.

(** The double nearest to x. *)
Definition binary64 (x : Q) : Q :=
  match Qcompare x 0 with
  | Eq => 0
  | Gt => roundPositive x
  | Lt => - roundPositive (- x)
  end.

(** 2 ^ -53, the largest relative error of a rounding to a normal double. *)
Definition UNIT_ROUNDOFF : Q := 1 # 9007199254740992.

Module Double.
(** [a - b], [a * b] and [a / b] on doubles. *)
Definition sub (a b : Q) : Q := binary64 (a - b).
Definition mul (a b : Q) : Q := binary64 (a * b).
Definition div (a b : Q) : Q := binary64 (a / b).

(** Modelled from the spec: [tr.b.normalize] (base/base.js is not among the
    sources), [(value - lo) / (hi - lo)]. *)
Definition normalize (value lo hi : Q) : Q :=
  div (sub value lo) (sub hi lo).

(** [computeAnimationThroughput] as the code computes it; [Math.min] and
    [Math.max] of [tr.b.clamp] do not round. *)
Definition computeAnimationThroughput (animationExpectation : UserExpectation)
  : result Q :=
  if missingFrameEvents (frameEventsOf animationExpectation) then
    Throw ("Animation missing frameEvents "
           ++ stableId animationExpectation)%string
  else
    let durationSeconds := div (duration animationExpectation) 1000 in
    let avgSpf :=
      div durationSeconds
          (inject_Z (Z.of_nat (frameCount animationExpectation))) in
    let throughput :=
      sub 1 (normalize avgSpf (div 1 MAX_FPS) (div 1 MIN_FPS)) in
    Ok (clamp throughput 0 1).
End Double.

Definition MIN_DISCREPANCY : Q := 0.05.
Definition MAX_DISCREPANCY : Q := 0.3.

(** Modelled from the spec: [tr.b.Statistics.weightedMean]
    (base/statistics.js is not among the sources): the mean of the values
    weighted by [weightCallback], and [undefined] when the weights sum to
    zero, as they do for an empty list. *)
Definition weightedMean (ary : list Q) (weightCallback : Q -> Q) : option Q :=
  let numerator :=
    fold_left (fun acc v => acc + weightCallback v * v) ary 0 in
  let denominator := fold_left (fun acc v => acc + weightCallback v) ary 0 in
  if Qeq_dec denominator 0 then None else Some (numerator / denominator).

Record Model : Type := mkModel {
  model_canonicalUrl : string;
  expectations : list UserExpectation
}.

Section ResponsivenessMetric.
(** [tr.b.Statistics.timestampsDiscrepancy] and
    [tr.metrics.sh.perceptualBlend], the weight that the blend gives to a
    score, are not among the sources; the metric is parameterised by
    them. *)
Variable timestampsDiscrepancy : list Q -> bool -> Q.
Variable perceptualBlend : Q -> Q.

Definition computeAnimationSmoothness (animationExpectation : UserExpectation)
  : result Q :=
  if missingFrameEvents (frameEventsOf animationExpectation) then
    Throw ("Animation missing frameEvents "
           ++ stableId animationExpectation)%string
  else
    let frameTimestamps :=
      match frameEventsOf animationExpectation with
      | Some events => map frame_start events
      | None => []
      end in
    let absolute := false in
    let discrepancy := timestampsDiscrepancy frameTimestamps absolute in
    let smoothness :=
      1 - normalize discrepancy MIN_DISCREPANCY MAX_DISCREPANCY in
    Ok (clamp smoothness 0 1).

(** Lifts an outcome into a computation on a value list. *)
Definition js_lift {S A : Type} (r : result A) : js S A :=
  fun s => (r, s).

Local Open Scope js_scope.

(** [canonicalUrl] is [animationExpectation.parentModel.canonicalUrl].  The
    scores are numbers, so the [=== undefined] guards on [throughput] and
    [smoothness] never fire; the blend of the two is [undefined] only when
    the weights vanish, which is left to the guard of
    [computeResponsiveness]. *)
Definition computeAnimationResponsiveness
    (canonicalUrl : string) (animationExpectation : UserExpectation)
  : js ValueList (option Q) :=
  throughput <- js_lift (computeAnimationThroughput animationExpectation) ;;
  addValue (mkValue canonicalUrl "throughput" throughput
              "Mean Opinion Score for Animation throughput"
              (Some (groupingKeysForUserExpectation animationExpectation))
              []) ;;;
  smoothness <- js_lift (computeAnimationSmoothness animationExpectation) ;;
  addValue (mkValue canonicalUrl "smoothness" smoothness
              "Mean Opinion Score for Animation smoothness"
              (Some (groupingKeysForUserExpectation animationExpectation))
              []) ;;;
  js_ret (weightedMean [throughput; smoothness] perceptualBlend).

(** The branches of the [instanceof] chain yield the score and the
    description of the value; the state is [diagnosticValues]. *)
Definition computeResponsiveness (canonicalUrl : string)
    (ue : UserExpectation) : js ValueList Q :=
  scored <-
    match kind ue with
    | IdleExpectation =>
        js_throw "Responsiveness is not defined for Idle"
    | LoadExpectation =>
        js_ret (Some (computeDurationResponsiveness
                        LOAD_HISTOGRAM (duration ue)),
                "Mean Opinion Score of Time to First ContentfulPaint"%string)
    | ResponseExpectation isAnimationBegin =>
        let histogram :=
          if isAnimationBegin then FAST_RESPONSE_HISTOGRAM
          else RESPONSE_HISTOGRAM in
        js_ret (Some (computeDurationResponsiveness histogram (duration ue)),
                "Mean Opinion Score of input latency"%string)
    | AnimationExpectation _ =>
        score <- computeAnimationResponsiveness canonicalUrl ue ;;
        js_ret (score,
                "Mean Opinion Score of perceptual blend of throughput and smoothness"%string)
    | OtherExpectation =>
        js_throw ("Unrecognized stage for " ++ stableId ue)%string
    end ;;
  match fst scored with
  | None =>
      js_throw ("Unable to compute responsiveness for " ++ stableId ue)%string
  | Some score =>
      addValue (mkValue canonicalUrl "responsiveness" score (snd scored)
                  (Some (groupingKeysForUserExpectation ue)) []) ;;;
      js_ret score
  end.

Definition isIdle (ue : UserExpectation) : bool :=
  match kind ue with
  | IdleExpectation => true
  | _ => false
  end.

(** The [forEach] over the expectations: an Idle expectation is skipped,
    the score of any other one is pushed onto [scores]. *)
Fixpoint scoreExpectations (canonicalUrl : string)
    (expectations : list UserExpectation) (scores : list Q)
  : js ValueList (list Q) :=
  match expectations with
  | [] => js_ret scores
  | ue :: rest =>
      if isIdle ue then scoreExpectations canonicalUrl rest scores
      else
        score <- computeResponsiveness canonicalUrl ue ;;
        scoreExpectations canonicalUrl rest (scores ++ [score])
  end.

(** The state is the caller's [valueList]; [diagnosticValues] is local to
    the call and is dropped when a scorer throws. *)
Definition responsivenessMetric (model : Model) : js ValueList unit :=
  fun valueList =>
    match scoreExpectations (model_canonicalUrl model)
                            (expectations model) [] [] with
    | (Throw m, _) => (Throw m, valueList)
    | (Ok scores, diagnosticValues) =>
        match weightedMean scores perceptualBlend with
        | None => (Ok tt, valueList)
        | Some overallScore =>
            addValue
              (mkValue (model_canonicalUrl model) "responsiveness"
                 overallScore
                 "Perceptual blend of responsiveness of RAIL user expectations"
                 None diagnosticValues)
              valueList
        end
    end.
End ResponsivenessMetric.

(** ** memory_metric.js *)

Inductive Unit : Type :=
| sizeInBytes_smallerIsBetter
| unitlessNumber_smallerIsBetter
| normalizedPercentage_biggerIsBetter.

Definition unitName (u : Unit) : string :=
  match u with
  | sizeInBytes_smallerIsBetter => "sizeInBytes_smallerIsBetter"
  | unitlessNumber_smallerIsBetter => "unitlessNumber_smallerIsBetter"
  | normalizedPercentage_biggerIsBetter => "normalizedPercentage_biggerIsBetter"
  end.

(** [===] on units: identity of the entries of [tr.v.Unit.byName]. *)
Definition Unit_eqb (u v : Unit) : bool :=
  match u, v with
  | sizeInBytes_smallerIsBetter, sizeInBytes_smallerIsBetter => true
  | unitlessNumber_smallerIsBetter, unitlessNumber_smallerIsBetter => true
  | normalizedPercentage_biggerIsBetter,
    normalizedPercentage_biggerIsBetter => true
  | _, _ => false
  end.

Record ScalarNumeric : Type := mkScalar {
  scalar_unit : Unit;
  scalar_value : Z
}.

Inductive LevelOfDetail : Type := LIGHT | DETAILED.

#[warnings="-register-all"] Inductive VMRegionClassificationNode : Type :=
| mkNode (title : string) (byteStats : Dict Z)
         (children : list VMRegionClassificationNode).

Definition node_title (n : VMRegionClassificationNode) : string :=
  match n with mkNode t _ _ => t end.

Definition node_byteStats (n : VMRegionClassificationNode) : Dict Z :=
  match n with mkNode _ b _ => b end.

Definition node_children (n : VMRegionClassificationNode)
  : list VMRegionClassificationNode :=
  match n with mkNode _ _ c => c end.

#[warnings="-register-all"] Inductive MemoryAllocatorDump : Type :=
| mkAllocatorDump (name : string) (numerics : Dict ScalarNumeric)
                  (children : list MemoryAllocatorDump).

Definition mad_name (d : MemoryAllocatorDump) : string :=
  match d with mkAllocatorDump n _ _ => n end.

Definition mad_numerics (d : MemoryAllocatorDump) : Dict ScalarNumeric :=
  match d with mkAllocatorDump _ n _ => n end.

Definition mad_children (d : MemoryAllocatorDump) : list MemoryAllocatorDump :=
  match d with mkAllocatorDump _ _ c => c end.

(** A process memory dump as the metric reads it.  [process_name] is
    [processDump.process.name]; the lookup method of the dump is carried as a
    field. *)
Record ProcessMemoryDump : Type := mkProcessDump {
  process_name : option string;
  memoryAllocatorDumps : option (list MemoryAllocatorDump);
  getMemoryAllocatorDumpByFullName : string -> option MemoryAllocatorDump;
  vmRegions : option VMRegionClassificationNode
}.

(** [gmd_id] stands for the identity of the dump object, the key of the
    [WeakMap] of the classifier; [processMemoryDumps] lists the values of the
    pid-keyed dictionary in iteration order. *)
Record GlobalMemoryDump : Type := mkGlobalDump {
  gmd_id : nat;
  levelOfDetail : option LevelOfDetail;
  processMemoryDumps : list ProcessMemoryDump
}.

Record MetricSpec : Type := mkSpec {
  path : list string;
  byteStat : string
}.

Definition MMAPS_METRICS : Dict MetricSpec := [
  ("overall:pss"%string, mkSpec [] "proportionalResident");
  ("overall:private_dirty"%string, mkSpec [] "privateDirtyResident");
  ("java_heap:private_dirty"%string,
   mkSpec ["Android"; "Java runtime"; "Spaces"]%string "privateDirtyResident");
  ("ashmem:pss"%string,
   mkSpec ["Android"; "Ashmem"]%string "proportionalResident");
  ("native_heap:pss"%string,
   mkSpec ["Native heap"%string] "proportionalResident")
].

Definition ALL_PROCESS_NAMES : string := "all".

(** *** Splitting the global dumps by browser name *)

(** [key + nextIndex]: the decimal digits of the index appended to the key. *)
Definition appendIndex (key : string) (nextIndex : nat) : string :=
  (key ++ NilEmpty.string_of_uint (Nat.to_uint nextIndex))%string.

(** The [while (map.has(uniqueKey))] loop; each iteration consumes one unit
    of [fuel]. *)
Fixpoint uniqueKeyLoop (V : Type) (fuel : nat) (map : Dict V)
    (key uniqueKey : string) (nextIndex : nat) : option string :=
  if dict_has map uniqueKey then
    match fuel with
    | O => None
    | S fuel' =>
        uniqueKeyLoop fuel' map key (appendIndex key nextIndex) (S nextIndex)
    end
  else Some uniqueKey.

(** The key chosen by [makeKeyUniqueAndSet].  The loop is run with one unit
    of fuel more than the map has entries, which always suffices
    ([uniqueKeyLoop_terminates]), so the [None] branch is never taken. *)
Definition uniqueKeyFor (V : Type) (map : Dict V) (key : string) : string :=
  match uniqueKeyLoop (S (List.length map)) map key key 2 with
  | Some uniqueKey => uniqueKey
  | None => key
  end.

Definition makeKeyUniqueAndSet (V : Type) (map : Dict V) (key : string)
    (value : V) : Dict V :=
  dict_set map (uniqueKeyFor map key) value.

(** A browser helper: its pid, its browser name and the global dumps of the
    memory dumps of its process
    ([helper.process.memoryDumps.map(d => d.globalMemoryDump)]). *)
Record BrowserHelper : Type := mkHelper {
  pid : Z;
  browserName : string;
  helper_globalDumps : list GlobalMemoryDump
}.

Record MemoryModel : Type := mkMemoryModel {
  chromeModelHelper : option (list BrowserHelper);
  globalMemoryDumps : list GlobalMemoryDump
}.

(** The [WeakMap] from global dumps to the helper that claimed them, keyed by
    dump identity; the pid is what the error message reads of the helper. *)
Definition DumpOwners : Type := list (nat * Z).

Fixpoint owner_get (owners : DumpOwners) (id : nat) : option Z :=
  match owners with
  | [] => None
  | (id', p) :: rest => if Nat.eqb id' id then Some p else owner_get rest id
  end.

(** [pid + ''] for the error message. *)
Definition pidToString (p : Z) : string :=
  NilZero.string_of_int (Z.to_int p).

(** The inner [forEach]: every global dump of [helper] must be unclaimed. *)
Fixpoint claimGlobalDumps (helper : BrowserHelper)
    (globalDumps : list GlobalMemoryDump) (owners : DumpOwners)
  : result DumpOwners :=
  match globalDumps with
  | [] => Ok owners
  | globalDump :: rest =>
      match owner_get owners (gmd_id globalDump) with
      | Some existingPid =>
          Throw ("Memory dump ID clash across multiple browsers with PIDs: "
                 ++ pidToString existingPid ++ " and "
                 ++ pidToString (pid helper))%string
      | None =>
          claimGlobalDumps helper rest
                           ((gmd_id globalDump, pid helper) :: owners)
      end
  end.

Definition BrowserDumps : Type := Dict (list GlobalMemoryDump).

Fixpoint classifyBrowsers (helpers : list BrowserHelper)
    (browserNameToGlobalDumps : BrowserDumps) (owners : DumpOwners)
  : result (BrowserDumps * DumpOwners) :=
  match helpers with
  | [] => Ok (browserNameToGlobalDumps, owners)
  | helper :: rest =>
      let globalDumps := helper_globalDumps helper in
      result_bind (claimGlobalDumps helper globalDumps owners) (fun owners' =>
      classifyBrowsers rest
        (makeKeyUniqueAndSet browserNameToGlobalDumps (browserName helper)
                             globalDumps)
        owners')
  end.

Definition splitGlobalDumpsByBrowserName (model : MemoryModel)
  : result BrowserDumps :=
  result_bind
    (match chromeModelHelper model with
     | Some browserHelpers => classifyBrowsers browserHelpers [] []
     | None => Ok ([], [])
     end)
    (fun classified =>
       let browserNameToGlobalDumps := fst classified in
       let owners := snd classified in
       let unclassifiedGlobalDumps :=
         filter (fun g => match owner_get owners (gmd_id g) with
                          | Some _ => false
                          | None => true
                          end)
                (globalMemoryDumps model) in
       if Nat.ltb 0 (List.length unclassifiedGlobalDumps) then
         Ok (makeKeyUniqueAndSet browserNameToGlobalDumps "unknown"
                                 unclassifiedGlobalDumps)
       else Ok browserNameToGlobalDumps).

(** *** Per-process-name aggregation *)

(** [String.prototype.toLowerCase] for an ASCII name: the letters A to Z are
    lowered and every other character is kept.  A name with other letters is
    outside of what this definition embeds ([isAsciiString]). *)
Definition toLowerCaseAscii (c : ascii) : ascii :=
  let n := nat_of_ascii c in
  if andb (Nat.leb 65 n) (Nat.leb n 90) then ascii_of_nat (n + 32) else c.

Fixpoint toLowerCase (s : string) : string :=
  match s with
  | EmptyString => EmptyString
  | String c rest => String (toLowerCaseAscii c) (toLowerCase rest)
  end.

(** [s.replace(pattern, replacement)] for a one-character string pattern:
    only the first occurrence is replaced. *)
Fixpoint replaceFirst (s : string) (pattern replacement : ascii) : string :=
  match s with
  | EmptyString => EmptyString
  | String c rest =>
      if Ascii.eqb c pattern then String replacement rest
      else String c (replaceFirst rest pattern replacement)
  end.

(** [processDump.process.name || 'unknown']: an absent and an empty name both
    give ['unknown']. *)
Definition rawProcessNameOf (name : option string) : string :=
  match name with
  | None => "unknown"
  | Some EmptyString => "unknown"
  | Some n => n
  end.

Definition processNameKey (name : option string) : string :=
  replaceFirst (toLowerCase (rawProcessNameOf name)) " " "_".

(** The calls [addProcessScalar(name, scalar)] that an extractor makes for a
    process dump, in order; an [undefined] scalar is [None]. *)
Definition ProcessDumpValueExtractor : Type :=
  ProcessMemoryDump -> list (string * option ScalarNumeric).

Definition addProcessScalar (processName : string)
    (valueNameToScalar : Dict ScalarNumeric) (name : string)
    (processDumpScalar : option ScalarNumeric)
  : result (Dict ScalarNumeric) :=
  match processDumpScalar with
  | None => Ok valueNameToScalar
  | Some scalar =>
      match dict_get valueNameToScalar name with
      | None =>
          Ok (dict_set valueNameToScalar name
                (mkScalar (scalar_unit scalar) (scalar_value scalar)))
      | Some processNameSumScalar =>
          if Unit_eqb (scalar_unit scalar) (scalar_unit processNameSumScalar)
          then
            Ok (dict_set valueNameToScalar name
                  (mkScalar (scalar_unit processNameSumScalar)
                     (scalar_value processNameSumScalar
                      + scalar_value scalar)%Z))
          else
            Throw ("Multiple units provided for value '" ++ name
                   ++ "' of '" ++ processName ++ "' processes: "
                   ++ unitName (scalar_unit processNameSumScalar) ++ " and "
                   ++ unitName (scalar_unit scalar))%string
      end
  end.

Fixpoint addProcessScalars (processName : string)
    (valueNameToScalar : Dict ScalarNumeric)
    (calls : list (string * option ScalarNumeric))
  : result (Dict ScalarNumeric) :=
  match calls with
  | [] => Ok valueNameToScalar
  | (name, processDumpScalar) :: rest =>
      result_bind
        (addProcessScalar processName valueNameToScalar name processDumpScalar)
        (fun valueNameToScalar' =>
           addProcessScalars processName valueNameToScalar' rest)
  end.

(** The body of the [iterItems] callback for one process dump. *)
Definition addProcessDump
    (customProcessDumpValueExtractor : ProcessDumpValueExtractor)
    (processNameToValueNameToScalar : Dict (Dict ScalarNumeric))
    (processDump : ProcessMemoryDump)
  : result (Dict (Dict ScalarNumeric)) :=
  let processName := processNameKey (process_name processDump) in
  let grouped :=
    match dict_get processNameToValueNameToScalar processName with
    | Some valueNameToScalar =>
        (processNameToValueNameToScalar, valueNameToScalar)
    | None => (dict_set processNameToValueNameToScalar processName [], [])
    end in
  result_bind
    (addProcessScalars processName (snd grouped)
                       (customProcessDumpValueExtractor processDump))
    (fun valueNameToScalar =>
       Ok (dict_set (fst grouped) processName valueNameToScalar)).

Fixpoint addProcessDumps
    (customProcessDumpValueExtractor : ProcessDumpValueExtractor)
    (processNameToValueNameToScalar : Dict (Dict ScalarNumeric))
    (processDumps : list ProcessMemoryDump)
  : result (Dict (Dict ScalarNumeric)) :=
  match processDumps with
  | [] => Ok processNameToValueNameToScalar
  | processDump :: rest =>
      result_bind
        (addProcessDump customProcessDumpValueExtractor
                        processNameToValueNameToScalar processDump)
        (fun acc => addProcessDumps customProcessDumpValueExtractor acc rest)
  end.

(** [array.map(f)] for an [f] that may throw. *)
Fixpoint mapResult (A B : Type) (f : A -> result B) (l : list A)
  : result (list B) :=
  match l with
  | [] => Ok []
  | a :: rest =>
      result_bind (f a) (fun b =>
      result_bind (mapResult f rest) (fun bs => Ok (b :: bs)))
  end.

Definition calculatePerProcessNameMemoryDumpValues
    (globalDumps : list GlobalMemoryDump)
    (customProcessDumpValueExtractor : ProcessDumpValueExtractor)
  : result (list (Dict (Dict ScalarNumeric))) :=
  mapResult
    (fun globalDump =>
       addProcessDumps customProcessDumpValueExtractor []
                       (processMemoryDumps globalDump))
    globalDumps.

(** Modelled from the spec: [tr.b.invertArrayOfDicts]
    (base/iteration_helpers.js is not among the sources): for every key of
    some dictionary of the array, in first-seen order, the array of what each
    dictionary holds under that key, with a hole where it holds nothing. *)
Fixpoint firstSeenKeys (seen : list string) (keys : list string)
  : list string :=
  match keys with
  | [] => seen
  | k :: rest =>
      if existsb (String.eqb k) seen then firstSeenKeys seen rest
      else firstSeenKeys (seen ++ [k]) rest
  end.

Definition invertArrayOfDicts (V : Type) (array : list (Dict V))
  : Dict (list (option V)) :=
  map (fun key => (key, map (fun dict => dict_get dict key) array))
      (firstSeenKeys [] (flat_map (@dict_keys V) array)).

(** Modelled from the spec: [tr.b.findFirstInArray] without a predicate, the
    first element that is not [undefined]. *)
Fixpoint findFirstInArray (V : Type) (ary : list (option V)) : option V :=
  match ary with
  | [] => None
  | Some v :: _ => Some v
  | None :: rest => findFirstInArray rest
  end.

(** The [reduce] over the scalars of one value name. *)
Fixpoint sumScalars (valueName : string) (unit : Unit)
    (perProcessScalars : list (option ScalarNumeric)) (accumulator : Z)
  : result Z :=
  match perProcessScalars with
  | [] => Ok accumulator
  | None :: rest => sumScalars valueName unit rest accumulator
  | Some scalar :: rest =>
      if Unit_eqb (scalar_unit scalar) unit then
        sumScalars valueName unit rest (accumulator + scalar_value scalar)%Z
      else
        Throw ("Multiple units provided for value '" ++ valueName
               ++ "' of different processes: " ++ unitName unit ++ " and "
               ++ unitName (scalar_unit scalar))%string
  end.

Definition totalScalar (valueName : string)
    (perProcessScalars : list (option ScalarNumeric)) : result ScalarNumeric :=
  match findFirstInArray perProcessScalars with
  | None => Throw "TypeError: Cannot read property 'unit' of undefined"
  | Some first =>
      let unit := scalar_unit first in
      result_bind (sumScalars valueName unit perProcessScalars 0%Z)
                  (fun value => Ok (mkScalar unit value))
  end.

(** Modelled from the spec: [tr.b.mapItems], for a callback that may
    throw. *)
Fixpoint mapItems (A B : Type) (d : Dict A) (f : string -> A -> result B)
  : result (Dict B) :=
  match d with
  | [] => Ok []
  | (k, a) :: rest =>
      result_bind (f k a) (fun b =>
      result_bind (mapItems rest f) (fun bs => Ok ((k, b) :: bs)))
  end.

(** The totals of one timestamp. *)
Definition injectTotals
    (processNameToValueNameToScalar : Dict (Dict ScalarNumeric))
  : result (Dict (Dict ScalarNumeric)) :=
  let valueNameToProcessNameToScalar :=
    invertArrayOfDicts (dictionaryValues processNameToValueNameToScalar) in
  result_bind (mapItems valueNameToProcessNameToScalar totalScalar)
    (fun totals =>
       Ok (dict_set processNameToValueNameToScalar ALL_PROCESS_NAMES totals)).

Definition injectTotalsIntoPerProcessNameMemoryDumpValues
    (timeToProcessNameToValueNameToScalar : list (Dict (Dict ScalarNumeric)))
  : result (list (Dict (Dict ScalarNumeric))) :=
  mapResult injectTotals timeToProcessNameToValueNameToScalar.

(** *** The extractors of the two metric families *)

Section GeneralExtractor.
(** [tr.model.MemoryAllocatorDump.DISPLAYED_SIZE_NUMERIC_NAME], declared
    outside the sources. *)
Variable DISPLAYED_SIZE_NUMERIC_NAME : string.

Definition generalProcessDumpValueExtractor : ProcessDumpValueExtractor :=
  fun processDump =>
    ("process_count"%string, Some (mkScalar unitlessNumber_smallerIsBetter 1))
    :: match memoryAllocatorDumps processDump with
       | None => []
       | Some roots =>
           flat_map
             (fun rootAllocatorDump =>
                [(("subsystem:" ++ mad_name rootAllocatorDump)%string,
                  dict_get (mad_numerics rootAllocatorDump)
                           DISPLAYED_SIZE_NUMERIC_NAME);
                 (("subsystem:" ++ mad_name rootAllocatorDump
                   ++ ":allocated_objects")%string,
                  dict_get (mad_numerics rootAllocatorDump)
                           "allocated_objects_size")])
             roots
           ++ match getMemoryAllocatorDumpByFullName processDump
                      "gpu/android_memtrack" with
              | None => []
              | Some memtrackDump =>
                  map (fun memtrackChildDump =>
                         (("android_memtrack:"
                           ++ mad_name memtrackChildDump)%string,
                          dict_get (mad_numerics memtrackChildDump)
                                   "memtrack_pss"))
                      (mad_children memtrackDump)
              end
       end.
End GeneralExtractor.

Fixpoint getDescendantVmRegionClassificationNode
    (node : option VMRegionClassificationNode) (path : list string)
  : option VMRegionClassificationNode :=
  match path with
  | [] => node
  | childTitle :: rest =>
      match node with
      | None => None
      | Some n =>
          getDescendantVmRegionClassificationNode
            (find (fun c => String.eqb (node_title c) childTitle)
                  (node_children n))
            rest
      end
  end.

(** [node ? (node.byteStats[byteStat] || 0) : 0]. *)
Definition vmStatValue (node : option VMRegionClassificationNode)
    (byteStat : string) : Z :=
  match node with
  | Some n =>
      match dict_get (node_byteStats n) byteStat with
      | Some bytes => bytes
      | None => 0%Z
      end
  | None => 0%Z
  end.

Definition detailedGlobalDumpFilter (g : GlobalMemoryDump) : bool :=
  match levelOfDetail g with
  | Some DETAILED => true
  | _ => false
  end.

Definition detailedProcessDumpValueExtractor : ProcessDumpValueExtractor :=
  fun processDump =>
    map (fun item =>
           let metricName := fst item in
           let metricSpec := snd item in
           let node := getDescendantVmRegionClassificationNode
                         (vmRegions processDump) (path metricSpec) in
           let value := vmStatValue node (byteStat metricSpec) in
           (("vmstats:" ++ metricName)%string,
            Some (mkScalar sizeInBytes_smallerIsBetter value)))
        MMAPS_METRICS.

(** The first two stages of [addPerProcessNameMemoryDumpValues] for the
    global dumps of one browser. *)
Definition perProcessNameValues (globalDumps : list GlobalMemoryDump)
    (customGlobalDumpFilter : GlobalMemoryDump -> bool)
    (customProcessDumpValueExtractor : ProcessDumpValueExtractor)
  : result (list (Dict (Dict ScalarNumeric))) :=
  let filteredGlobalDumps := filter customGlobalDumpFilter globalDumps in
  result_bind
    (calculatePerProcessNameMemoryDumpValues filteredGlobalDumps
                                             customProcessDumpValueExtractor)
    injectTotalsIntoPerProcessNameMemoryDumpValues.

(** *** Reporting the aggregated values *)

(** A [tr.v.NumericBuilder] of the metric, by the calls that make it:
    [createLinear(unit, Range(lo, hi), numBins)], and
    [new NumericBuilder(unit, lo).addBinBoundary(boundary)
       .addExponentialBins(hi, numBins)]. *)
Inductive NumericBuilder : Type :=
| LinearBuilder (u : Unit) (lo hi : Z) (numBins : nat)
| ExponentialBuilder (u : Unit) (lo boundary hi : Z) (numBins : nat).

(** The [WeakMap] from units to builders: a unit without an entry gives
    [undefined]. *)
Definition MEMORY_NUMERIC_BUILDER_MAP (u : Unit) : option NumericBuilder :=
  match u with
  | unitlessNumber_smallerIsBetter =>
      Some (LinearBuilder unitlessNumber_smallerIsBetter 0 20 20)
  | sizeInBytes_smallerIsBetter =>
      Some (ExponentialBuilder sizeInBytes_smallerIsBetter 0 1024
              (16 * 1024 * 1024 * 1024) (4 * 24))
  | normalizedPercentage_biggerIsBetter => None
  end.

(** Modelled from the spec: the [tr.v.Numeric] that a builder builds
    (value/numeric.js is not among the sources), kept as its builder and the
    samples given to [numeric.add], in order. *)
Record MemoryNumeric : Type := mkMemoryNumeric {
  numeric_builder : NumericBuilder;
  numeric_samples : list Z
}.

(** The numeric of a reported value: a scalar or a histogram. *)
Inductive ReportedNumeric : Type :=
| ScalarOf (scalar : ScalarNumeric)
| NumericOf (numeric : MemoryNumeric).

(** A [tr.v.NumericValue] of the memory metric. *)
Record MemoryValue : Type := mkMemoryValue {
  mv_canonicalUrl : string;
  mv_name : string;
  mv_numeric : ReportedNumeric
}.

Definition MemoryValueList : Type := list MemoryValue.

Definition addMemoryValue (v : MemoryValue) : js MemoryValueList unit :=
  fun values => (Ok tt, values ++ [v]).

(** [Array.prototype.join]. *)
Fixpoint join (parts : list string) (separator : string) : string :=
  match parts with
  | [] => EmptyString
  | [part] => part
  | part :: rest => (part ++ separator ++ join rest separator)%string
  end.

(** [list.forEach(f)] for an [f] that adds values and may throw. *)
Fixpoint forEachJs (S A : Type) (l : list A) (f : A -> js S unit)
  : js S unit :=
  match l with
  | [] => js_ret tt
  | a :: rest => js_bind (f a) (fun _ => forEachJs rest f)
  end.

(** Modelled from the spec: [tr.b.invertArrayOfDicts]
    (base/iteration_helpers.js is not among the sources) for an array with
    holes, which are skipped. *)
Definition invertArrayOfOptionalDicts (V : Type)
    (array : list (option (Dict V))) : Dict (list (option V)) :=
  map (fun key =>
         (key,
          map (fun item =>
                 match item with
                 | Some dict => dict_get dict key
                 | None => None
                 end)
              array))
      (firstSeenKeys []
         (flat_map (fun item : option (Dict V) =>
                      match item with
                      | Some dict => dict_keys dict
                      | None => []
                      end)
                   array)).

Definition mergeScalarsIntoNumeric (scalars : list (option ScalarNumeric))
  : result MemoryNumeric :=
  match findFirstInArray scalars with
  | None => Throw "TypeError: Cannot read property 'unit' of undefined"
  | Some first =>
      match MEMORY_NUMERIC_BUILDER_MAP (scalar_unit first) with
      | None => Throw "TypeError: Cannot read property 'build' of undefined"
      | Some builder =>
          Ok (mkMemoryNumeric builder
                (map (fun scalar : option ScalarNumeric =>
                        match scalar with
                        | None => 0%Z
                        | Some s => scalar_value s
                        end)
                     scalars))
      end
  end.

Definition reportPerProcessNameMemoryDumpValues (canonicalUrl : string)
    (timeToProcessNameToValueNameToScalar : list (Dict (Dict ScalarNumeric)))
    (browserName : string) : js MemoryValueList unit :=
  let processNameToTimeToValueNameToScalar :=
    invertArrayOfDicts timeToProcessNameToValueNameToScalar in
  forEachJs processNameToTimeToValueNameToScalar (fun processItem =>
    let processName := fst processItem in
    let valueNameToTimeToScalar :=
      invertArrayOfOptionalDicts (snd processItem) in
    forEachJs valueNameToTimeToScalar (fun valueItem =>
      let valueName := fst valueItem in
      js_bind (js_lift (mergeScalarsIntoNumeric (snd valueItem)))
        (fun numeric =>
           addMemoryValue
             (mkMemoryValue canonicalUrl
                (join ["memory"%string; browserName; processName; valueName]
                      ":")
                (NumericOf numeric))))).

Definition addPerProcessNameMemoryDumpValues (canonicalUrl : string)
    (browserNameToGlobalDumps : BrowserDumps)
    (customGlobalDumpFilter : GlobalMemoryDump -> bool)
    (customProcessDumpValueExtractor : ProcessDumpValueExtractor)
  : js MemoryValueList unit :=
  forEachJs browserNameToGlobalDumps (fun browserItem =>
    let browserName := fst browserItem in
    let globalDumps := snd browserItem in
    js_bind
      (js_lift (perProcessNameValues globalDumps customGlobalDumpFilter
                                     customProcessDumpValueExtractor))
      (fun timeToProcessNameToValueNameToScalar =>
         reportPerProcessNameMemoryDumpValues
           canonicalUrl timeToProcessNameToValueNameToScalar browserName)).

Definition addDetailedMemoryDumpValues (canonicalUrl : string)
    (browserNameToGlobalDumps : BrowserDumps) : js MemoryValueList unit :=
  addPerProcessNameMemoryDumpValues canonicalUrl browserNameToGlobalDumps
    detailedGlobalDumpFilter detailedProcessDumpValueExtractor.

(** The [Map] from levels of detail to their names. *)
Definition LEVEL_OF_DETAIL_NAMES : list (LevelOfDetail * string) :=
  [(LIGHT, "light"%string); (DETAILED, "detailed"%string)].

Definition levelOfDetailNameOf (level : option LevelOfDetail)
  : option string :=
  match level with
  | None => None
  | Some l =>
      match
        find (fun entry =>
                match fst entry, l with
                | LIGHT, LIGHT => true
                | DETAILED, DETAILED => true
                | _, _ => false
                end)
             LEVEL_OF_DETAIL_NAMES
      with
      | Some entry => Some (snd entry)
      | None => None
      end
  end.

(** [counts[name]++] on a count that is there. *)
Definition incrementCount (counts : Dict Z) (name : string) : Dict Z :=
  match dict_get counts name with
  | Some count => dict_set counts name (count + 1)%Z
  | None => counts
  end.

(** The body of the [forEach] over the global dumps of a browser. *)
Definition countGlobalDump (levelOfDetailNameToDumpCount : Dict Z)
    (globalDump : GlobalMemoryDump) : Dict Z :=
  let counted := incrementCount levelOfDetailNameToDumpCount "total" in
  match levelOfDetailNameOf (levelOfDetail globalDump) with
  | None => counted
  | Some levelOfDetailName =>
      if dict_has counted levelOfDetailName then
        incrementCount counted levelOfDetailName
      else counted
  end.

Definition dumpCounts (globalDumps : list GlobalMemoryDump) : Dict Z :=
  fold_left countGlobalDump globalDumps
    (fold_left (fun counts entry => dict_set counts (snd entry) 0%Z)
               LEVEL_OF_DETAIL_NAMES [("total"%string, 0%Z)]).

Definition addMemoryDumpCountValues (canonicalUrl : string)
    (browserNameToGlobalDumps : BrowserDumps) : js MemoryValueList unit :=
  forEachJs browserNameToGlobalDumps (fun browserItem =>
    let browserName := fst browserItem in
    forEachJs (dumpCounts (snd browserItem)) (fun countItem =>
      addMemoryValue
        (mkMemoryValue canonicalUrl
           (join ["memory"%string; browserName; ALL_PROCESS_NAMES;
                  "dump_count"%string; fst countItem] ":")
           (ScalarOf (mkScalar unitlessNumber_smallerIsBetter
                               (snd countItem)))))).

Section MemoryMetric.
(** [tr.model.MemoryAllocatorDump.DISPLAYED_SIZE_NUMERIC_NAME], declared
    outside the sources. *)
Variable DISPLAYED_SIZE_NUMERIC_NAME : string.

Definition addGeneralMemoryDumpValues (canonicalUrl : string)
    (browserNameToGlobalDumps : BrowserDumps) : js MemoryValueList unit :=
  addPerProcessNameMemoryDumpValues canonicalUrl browserNameToGlobalDumps
    (fun _ => true)
    (generalProcessDumpValueExtractor DISPLAYED_SIZE_NUMERIC_NAME).

(** [canonicalUrl] is [model.canonicalUrl]. *)
Definition memoryMetric (canonicalUrl : string) (model : MemoryModel)
  : js MemoryValueList unit :=
  js_bind (js_lift (splitGlobalDumpsByBrowserName model))
    (fun browserNameToGlobalDumps =>
       js_bind (addGeneralMemoryDumpValues canonicalUrl
                                           browserNameToGlobalDumps)
         (fun _ =>
            js_bind (addDetailedMemoryDumpValues canonicalUrl
                                                 browserNameToGlobalDumps)
              (fun _ =>
                 addMemoryDumpCountValues canonicalUrl
                                          browserNameToGlobalDumps))).
End MemoryMetric.

(** ** user_model.js *)

(** [Array.prototype.sort] with the comparator [x.start - y.start], as an
    insertion sort: an expectation goes before the first one that does not
    start before it.  The order among expectations that start together is
    left to the engine; here the one inserted later goes first. *)
Fixpoint insertByStart (x : UserExpectation) (sorted : list UserExpectation)
  : list UserExpectation :=
  match sorted with
  | [] => [x]
  | y :: rest =>
      if Qle_bool (ue_start x) (ue_start y) then x :: sorted
      else y :: insertByStart x rest
  end.

Definition sortExpectations (expectations_ : list UserExpectation)
  : list UserExpectation :=
  fold_right insertByStart [] expectations_.

(** * Specification-side definitions *)

Unset Implicit Arguments.

(** ** Piecewise-linear reading of a scoring table *)

(** The interpolated count as one piecewise-linear curve through the
    [knots]: the point [(px, py)] and then, in order, the listed points.
    Past the last knot the curve stays at its height. *)
Fixpoint interpolateKnots (px py : Q) (knots : list (Q * Q)) (value : Q) : Q :=
  match knots with
  | [] => py
  | (x, y) :: rest =>
      if Qlt_le_dec value x then lerp (normalize value px x) py y
      else interpolateKnots x y rest value
  end.

(** The knots of a table: the centre and the count of every central bin, and
    the lower boundary and the count of the overflow bin. *)
Definition knotsOf (bins : list NumericBin) (overflow : NumericBin)
  : list (Q * Q) :=
  map (fun bin => (center bin, bin_count bin)) bins
  ++ [(bin_min overflow, bin_count overflow)].

(** Knots that move strictly to the right and never rise, ending at or above
    [floor]. *)
Fixpoint knotsDescending (floor px py : Q) (knots : list (Q * Q)) : Prop :=
  match knots with
  | [] => floor <= py
  | (x, y) :: rest => px < x /\ y <= py /\ knotsDescending floor x y rest
  end.

(** Central bins that are contiguous from [lo] up to the overflow bin, each
    of positive width, with counts that never rise from [ly] on. *)
Fixpoint binsChain (lo ly : Q) (bins : list NumericBin) (overflow : NumericBin)
  : Prop :=
  match bins with
  | [] => lo == bin_min overflow /\ bin_count overflow <= ly
  | bin :: rest =>
      bin_min bin == lo /\ bin_min bin < bin_max bin /\ bin_count bin <= ly
      /\ binsChain (bin_max bin) (bin_count bin) rest overflow
  end.

(** The shape shared by the three scoring tables. *)
Record TableWF (h : Numeric) : Prop := {
  wf_min : range_min h == bin_max (underflowBin h);
  wf_max : range_max h == bin_min (overflowBin h);
  wf_chain : binsChain (range_min h) (bin_count (underflowBin h))
                       (centralBins h) (overflowBin h);
  wf_bins : centralBins h <> [];
  wf_floor : 0 <= bin_count (overflowBin h);
  wf_top : bin_count (underflowBin h) <= maxCount h;
  wf_pos : 0 < maxCount h
}.

(** ** Responsiveness *)

Definition missingFrameEventsMessage (ue : UserExpectation) : string :=
  ("Animation missing frameEvents " ++ stableId ue)%string.

Definition nonIdle (ue : UserExpectation) : bool := negb (isIdle ue).

(** The expectations that [computeResponsiveness] scores without throwing. *)
Definition canBeScored (ue : UserExpectation) : bool :=
  match kind ue with
  | LoadExpectation => true
  | ResponseExpectation _ => true
  | AnimationExpectation frameEvents => negb (missingFrameEvents frameEvents)
  | IdleExpectation => false
  | OtherExpectation => false
  end.

(** Sample inputs. *)
Definition sampleTimestampsDiscrepancy (timestamps : list Q) (absolute : bool)
  : Q := 0.1.

Definition samplePerceptualBlend (score : Q) : Q := 2 - clamp score 0 1.

Definition sampleFrames : list FrameEvent :=
  [mkFrame 0; mkFrame (50 / 3); mkFrame (100 / 3)].

Definition animationAt60Fps : UserExpectation :=
  mkUE "AnimationExpectation0" "Animation" "Scroll" 0 (3 * (1000 / 60))
       (AnimationExpectation (Some sampleFrames)).

Definition animationAt5Fps : UserExpectation :=
  mkUE "AnimationExpectation1" "Animation" "Scroll" 0 600
       (AnimationExpectation (Some sampleFrames)).

Definition animationWithoutFrames : UserExpectation :=
  mkUE "AnimationExpectation2" "Animation" "Scroll" 0 1000
       (AnimationExpectation None).

Definition sampleIdle : UserExpectation :=
  mkUE "IdleExpectation0" "Idle" "Idle" 0 5000 IdleExpectation.

Definition sampleLoad : UserExpectation :=
  mkUE "LoadExpectation0" "Load" "Navigation" 0 6900 LoadExpectation.

Definition sampleUrl : string := "http://localhost/".

(** ** Memory *)

(** [d] records a sum of unit [u] under [name]. *)
Definition holdsUnit (d : Dict ScalarNumeric) (name : string) (u : Unit)
  : Prop :=
  exists sum, dict_get d name = Some sum /\ scalar_unit sum = u.

(** The group of [processName] records a sum of unit [u] under [name]. *)
Definition groupHoldsUnit (acc : Dict (Dict ScalarNumeric))
    (processName name : string) (u : Unit) : Prop :=
  exists group, dict_get acc processName = Some group
                /\ holdsUnit group name u.





(** Sample inputs. *)
Definition sampleProcessDump (name : option string) : ProcessMemoryDump :=
  mkProcessDump name None (fun _ => None) None.

Definition sampleGlobalDump (id : nat) : GlobalMemoryDump :=
  mkGlobalDump id (Some DETAILED)
    [sampleProcessDump (Some "Browser"%string);
     sampleProcessDump (Some "browser"%string)].

(** An extractor that reports "x" in bytes for the process named "Browser"
    and as a unitless number for any other process, and one that reports "x"
    twice, in bytes and as a unitless number. *)
Definition sampleExtractorByName : ProcessDumpValueExtractor :=
  fun processDump =>
    match process_name processDump with
    | Some "Browser"%string =>
        [("x"%string, Some (mkScalar sizeInBytes_smallerIsBetter 1))]
    | _ => [("x"%string, Some (mkScalar unitlessNumber_smallerIsBetter 1))]
    end.

Definition sampleExtractorTwice : ProcessDumpValueExtractor :=
  fun _ =>
    [("x"%string, Some (mkScalar sizeInBytes_smallerIsBetter 1));
     ("y"%string, None);
     ("x"%string, Some (mkScalar unitlessNumber_smallerIsBetter 1))].

Definition sampleBrowserDumps : Dict nat :=
  [("chrome"%string, 1%nat); ("chrome2"%string, 2%nat)].

Definition sampleMemoryModel : MemoryModel :=
  mkMemoryModel
    (Some [mkHelper 100 "chrome" [sampleGlobalDump 1];
           mkHelper 200 "chrome" [sampleGlobalDump 2]])
    [sampleGlobalDump 1; sampleGlobalDump 2; sampleGlobalDump 3].

(** ** Reading the reported responsiveness values *)

(** The values of a value list that carry the given name. *)
Definition isNamed (name : string) (v : NumericValue) : bool :=
  String.eqb (value_name v) name.

Definition value_score (v : NumericValue) : Q :=
  match v with mkValue _ _ s _ _ _ => s end.

(** The stable id that the grouping keys of a value record, if any. *)
Definition value_stableId (v : NumericValue) : option string :=
  match value_groupingKeys v with
  | Some keys => Some (userExpectationStableId keys)
  | None => None
  end.

Definition isAnimation (ue : UserExpectation) : bool :=
  match kind ue with
  | AnimationExpectation _ => true
  | _ => false
  end.

(** The message with which [computeResponsiveness] throws on a non-Idle
    expectation that it cannot score. *)
Definition scoringError (ue : UserExpectation) : option string :=
  match kind ue with
  | IdleExpectation => None
  | LoadExpectation => None
  | ResponseExpectation _ => None
  | AnimationExpectation frameEvents =>
      if missingFrameEvents frameEvents
      then Some (missingFrameEventsMessage ue) else None
  | OtherExpectation => Some ("Unrecognized stage for " ++ stableId ue)%string
  end.

(** A reported score between 0 and 1. *)
Definition hasUnitScore (v : NumericValue) : Prop :=
  0 <= value_score v /\ value_score v <= 1.

(** The order that [sortExpectations] establishes. *)
Definition startsNoLater (x y : UserExpectation) : Prop :=
  ue_start x <= ue_start y.

(** Sample inputs. *)
Definition sampleOther : UserExpectation :=
  mkUE "Other0" "Other" "Other" 0 10 OtherExpectation.

(** The average seconds per frame that [computeAnimationThroughput] computes,
    in doubles. *)
Definition averageSecondsPerFrame (ae : UserExpectation) : Q :=
  Double.div (Double.div (duration ae) 1000)
             (inject_Z (Z.of_nat (frameCount ae))).

(** Three frames in 300 ms: exactly 10 frames per second. *)
Definition animationAt10Fps : UserExpectation :=
  mkUE "AnimationExpectation3" "Animation" "Scroll" 0 300
       (AnimationExpectation (Some sampleFrames)).

(** The largest average seconds per frame that the code can compute for a
    duration of at most N * (1000 / 60) ms: 1000 / 60 as a double, and one
    rounding each for the product with N and the division by 1000 before the
    last division rounds. *)
Definition slowestAverageAt60Fps : Q :=
  binary64 (Double.div 1000 60 * (1 + UNIT_ROUNDOFF) * (1 + UNIT_ROUNDOFF)
            / 1000).

(** The smallest average seconds per frame that the code can compute for a
    duration of at least N * 100 * (1 + 2 ^ -53) ms. *)
Definition fastestAverageBelow10Fps : Q :=
  binary64 ((1 # 10) * (1 + UNIT_ROUNDOFF) * (1 - UNIT_ROUNDOFF)).

(** ** Reading the memory metric *)

(** The keys that [makeKeyUniqueAndSet] gives to [count] values added to an
    empty map under one key: the key, then the key with the suffixes 2, 3,
    and so on. *)
Definition repeatedKeys (key : string) (count : nat) : list string :=
  match count with
  | O => []
  | S more => key :: List.map (appendIndex key) (seq 2 more)
  end.

(** The identities of the global dumps that the browser helpers claim, in
    the order of the helpers. *)
Definition claimedIds (helpers : list BrowserHelper) : list nat :=
  flat_map (fun helper => List.map gmd_id (helper_globalDumps helper)) helpers.

Definition clashMessage (existingPid currentPid : Z) : string :=
  ("Memory dump ID clash across multiple browsers with PIDs: "
   ++ pidToString existingPid ++ " and " ++ pidToString currentPid)%string.

Definition isClaimed (helpers : list BrowserHelper) (g : GlobalMemoryDump)
  : bool :=
  existsb (Nat.eqb (gmd_id g)) (claimedIds helpers).

Definition sumZ (values : list Z) : Z := fold_right Z.add 0%Z values.

(** The values of the defined scalars that a list of [addProcessScalar]
    calls gives under [name], in order. *)
Definition scalarValuesOf (name : string)
    (calls : list (string * option ScalarNumeric)) : list Z :=
  flat_map (fun call =>
              match snd call with
              | Some scalar =>
                  if String.eqb (fst call) name then [scalar_value scalar]
                  else []
              | None => []
              end)
           calls.

Definition hasProcessName (key : string) (processDump : ProcessMemoryDump)
  : bool :=
  String.eqb (processNameKey (process_name processDump)) key.

(** The calls that the extractor makes for the process dumps of one
    process-name group. *)
Definition callsOfGroup (extractor : ProcessDumpValueExtractor) (key : string)
    (processDumps : list ProcessMemoryDump)
  : list (string * option ScalarNumeric) :=
  flat_map extractor (filter (hasProcessName key) processDumps).

(** [valueNameToScalar] holds, under every name, the sum of the defined
    scalars that [calls] gives under it, and nothing under a name that no
    call defines. *)
Definition sumsCalls (valueNameToScalar : Dict ScalarNumeric)
    (calls : list (string * option ScalarNumeric)) : Prop :=
  forall name,
    match dict_get valueNameToScalar name with
    | Some scalar =>
        scalarValuesOf name calls <> []
        /\ scalar_value scalar = sumZ (scalarValuesOf name calls)
    | None => scalarValuesOf name calls = []
    end.

(** The groups are those of the process names that occur among
    [processDumps], and each holds the sums over its process dumps. *)
Definition sumsProcessDumps (extractor : ProcessDumpValueExtractor)
    (processNameToValueNameToScalar : Dict (Dict ScalarNumeric))
    (processDumps : list ProcessMemoryDump) : Prop :=
  forall key,
    match dict_get processNameToValueNameToScalar key with
    | Some valueNameToScalar =>
        filter (hasProcessName key) processDumps <> []
        /\ sumsCalls valueNameToScalar (callsOfGroup extractor key processDumps)
    | None => filter (hasProcessName key) processDumps = []
    end.

(** The values that the groups hold under [name], in order. *)
Definition groupValuesOf (name : string) (groups : list (Dict ScalarNumeric))
  : list Z :=
  flat_map (fun group =>
              match dict_get group name with
              | Some scalar => [scalar_value scalar]
              | None => []
              end)
           groups.

(** [totals] holds, under every name, the sum of what the groups hold under
    it, and nothing under a name that no group holds. *)
Definition totalsOf (groups : list (Dict ScalarNumeric))
    (totals : Dict ScalarNumeric) : Prop :=
  forall name,
    match dict_get totals name with
    | Some total =>
        groupValuesOf name groups <> []
        /\ scalar_value total = sumZ (groupValuesOf name groups)
    | None => groupValuesOf name groups = []
    end.

(** What one process dump contributes to the value [name]. *)
Definition valueOfDump (extractor : ProcessDumpValueExtractor) (name : string)
    (processDump : ProcessMemoryDump) : Z :=
  sumZ (scalarValuesOf name (extractor processDump)).

Definition hasLevelOfDetail (level : LevelOfDetail)
    (globalDump : GlobalMemoryDump) : bool :=
  match levelOfDetail globalDump, level with
  | Some LIGHT, LIGHT => true
  | Some DETAILED, DETAILED => true
  | _, _ => false
  end.

Definition countLevelOfDetail (level : LevelOfDetail)
    (globalDumps : list GlobalMemoryDump) : Z :=
  Z.of_nat (List.length (filter (hasLevelOfDetail level) globalDumps)).

Definition dumpCountValue (canonicalUrl browserName levelOfDetailName : string)
    (count : Z) : MemoryValue :=
  mkMemoryValue canonicalUrl
    (join ["memory"%string; browserName; ALL_PROCESS_NAMES;
           "dump_count"%string; levelOfDetailName] ":")
    (ScalarOf (mkScalar unitlessNumber_smallerIsBetter count)).

(** The three dump counts of one browser, in the order of their report. *)
Definition dumpCountValues (canonicalUrl : string)
    (browserItem : string * list GlobalMemoryDump) : list MemoryValue :=
  [dumpCountValue canonicalUrl (fst browserItem) "total"
                  (Z.of_nat (List.length (snd browserItem)));
   dumpCountValue canonicalUrl (fst browserItem) "light"
                  (countLevelOfDetail LIGHT (snd browserItem));
   dumpCountValue canonicalUrl (fst browserItem) "detailed"
                  (countLevelOfDetail DETAILED (snd browserItem))].

(** A histogram of [samples] samples reported for a browser under a name
    of the form memory:browser:process:value. *)
Definition isReportedHistogram (canonicalUrl browserName : string)
    (samples : nat) (value : MemoryValue) : Prop :=
  mv_canonicalUrl value = canonicalUrl
  /\ exists processName valueName numeric,
       mv_name value
       = join ["memory"%string; browserName; processName; valueName] ":"
       /\ mv_numeric value = NumericOf numeric
       /\ List.length (numeric_samples numeric) = samples.

(** Sample inputs: two browsers that claim the same global dump, and a tree
    of VM regions. *)
Definition sampleClashModel : MemoryModel :=
  mkMemoryModel
    (Some [mkHelper 100 "chrome" [sampleGlobalDump 1];
           mkHelper 200 "chrome" [sampleGlobalDump 1]])
    [sampleGlobalDump 1].

Definition sampleVmRegions : VMRegionClassificationNode :=
  mkNode "root" []
    [mkNode "Android" []
       [mkNode "Java runtime" [("proportionalResident"%string, 7%Z)] []]].



Definition sampleGroups : Dict (Dict ScalarNumeric) :=
  [("browser"%string, [("x"%string, mkScalar sizeInBytes_smallerIsBetter 1)]);
   ("renderer"%string,
    [("x"%string, mkScalar sizeInBytes_smallerIsBetter 2)])].

(** ** Nodes of the VM region tree, by their path *)




(** ** Keys of plain objects *)

(** The property names that a plain object inherits from [Object.prototype]:
    a lookup under one of them in a dictionary that does not hold it finds
    the inherited member, not [undefined]. *)
Definition OBJECT_PROTOTYPE_KEYS : list string :=
  ["constructor"; "__defineGetter__"; "__defineSetter__"; "hasOwnProperty";
   "__lookupGetter__"; "__lookupSetter__"; "isPrototypeOf";
   "propertyIsEnumerable"; "toString"; "valueOf"; "__proto__";
   "toLocaleString"]%string.

Definition isInheritedKey (key : string) : bool :=
  existsb (String.eqb key) OBJECT_PROTOTYPE_KEYS.

Definition isAsciiCharacter (c : ascii) : bool :=
  Nat.ltb (nat_of_ascii c) 128.

Fixpoint isAsciiString (s : string) : bool :=
  match s with
  | EmptyString => true
  | String c rest => isAsciiCharacter c && isAsciiString rest
  end.

(** The process name is one that the embedding reads as the code does: its
    characters are ASCII, so that [toLowerCase] changes the letters A to Z
    only, and its key is not a name that the dictionary of the groups
    inherits. *)
Definition hasPlainName (processDump : ProcessMemoryDump) : bool :=
  match process_name processDump with
  | Some name => isAsciiString name
  | None => true
  end
  && negb (isInheritedKey (processNameKey (process_name processDump))).

(** No value name that the extractor gives for the process dump is a name
    that the dictionary of the values inherits. *)
Definition hasPlainValueNames (extractor : ProcessDumpValueExtractor)
    (processDump : ProcessMemoryDump) : bool :=
  forallb (fun call => negb (isInheritedKey (fst call)))
          (extractor processDump).

Definition plainProcessNames (globalDumps : list GlobalMemoryDump) : Prop :=
  forall globalDump processDump,
    In globalDump globalDumps ->
    In processDump (processMemoryDumps globalDump) ->
    hasPlainName processDump = true.

Definition plainValueNames (extractor : ProcessDumpValueExtractor)
    (globalDumps : list GlobalMemoryDump) : Prop :=
  forall globalDump processDump,
    In globalDump globalDumps ->
    In processDump (processMemoryDumps globalDump) ->
    hasPlainValueNames extractor processDump = true.

(** * Properties *)

(** ** Scoring tables: the interpolated count *)

Lemma normalize_nonneg v px x : px < x -> px <= v -> 0 <= normalize v px x.
Proof.
  intros Hx Hv. unfold normalize.
  apply Qle_shift_div_l; lra.
Qed.

Lemma normalize_le_1 v px x : px < x -> v <= x -> normalize v px x <= 1.
Proof.
  intros Hx Hv. unfold normalize.
  apply Qle_shift_div_r; lra.
Qed.

Lemma normalize_mono v1 v2 px x :
  px < x -> v1 <= v2 -> normalize v1 px x <= normalize v2 px x.
Proof.
  intros Hx Hv. unfold normalize, Qdiv.
  apply Qmult_le_compat_r; [lra|].
  apply Qlt_le_weak, Qinv_lt_0_compat. lra.
Qed.

Lemma center_above_min bin :
  bin_min bin < bin_max bin -> bin_min bin < center bin.
Proof. intros H. unfold center. apply Qlt_shift_div_l; lra. Qed.

Lemma center_below_max bin :
  bin_min bin < bin_max bin -> center bin < bin_max bin.
Proof. intros H. unfold center. apply Qlt_shift_div_r; lra. Qed.

Lemma lerp_upper t py y : y <= py -> 0 <= t -> lerp t py y <= py.
Proof. intros. unfold lerp. nra. Qed.

Lemma lerp_lower t py y : y <= py -> t <= 1 -> y <= lerp t py y.
Proof. intros. unfold lerp. nra. Qed.

Lemma lerp_antitone t1 t2 py y :
  y <= py -> t1 <= t2 -> lerp t2 py y <= lerp t1 py y.
Proof. intros. unfold lerp. nra. Qed.

Lemma interpolateKnots_upper floor knots : forall px py v,
  knotsDescending floor px py knots -> px <= v ->
  interpolateKnots px py knots v <= py.
Proof.
  induction knots as [|[x y] rest IH]; intros px py v Hd Hv; simpl in *.
  - lra.
  - destruct Hd as (Hx & Hy & Hrest).
    destruct (Qlt_le_dec v x) as [Hlt|Hge].
    + apply lerp_upper; [lra|]. apply normalize_nonneg; lra.
    + specialize (IH x y v Hrest Hge). lra.
Qed.

Lemma knotsDescending_floor floor knots : forall px py,
  knotsDescending floor px py knots -> floor <= py.
Proof.
  induction knots as [|[x y] rest IH]; intros px py Hd; simpl in *.
  - exact Hd.
  - destruct Hd as (Hx & Hy & Hrest). specialize (IH x y Hrest). lra.
Qed.

Lemma interpolateKnots_lower floor knots : forall px py v,
  knotsDescending floor px py knots -> px <= v ->
  floor <= interpolateKnots px py knots v.
Proof.
  induction knots as [|[x y] rest IH]; intros px py v Hd Hv; simpl in *.
  - lra.
  - destruct Hd as (Hx & Hy & Hrest).
    destruct (Qlt_le_dec v x) as [Hlt|Hge].
    + pose proof (knotsDescending_floor _ _ _ _ Hrest).
      assert (y <= lerp (normalize v px x) py y).
      { apply lerp_lower; [lra|]. apply normalize_le_1; lra. }
      lra.
    + apply IH; assumption.
Qed.

Lemma interpolateKnots_antitone floor knots : forall px py v1 v2,
  knotsDescending floor px py knots -> px <= v1 -> v1 <= v2 ->
  interpolateKnots px py knots v2 <= interpolateKnots px py knots v1.
Proof.
  induction knots as [|[x y] rest IH]; intros px py v1 v2 Hd H1 H12;
    simpl in *.
  - lra.
  - destruct Hd as (Hx & Hy & Hrest).
    destruct (Qlt_le_dec v1 x) as [Hlt1|Hge1];
      destruct (Qlt_le_dec v2 x) as [Hlt2|Hge2].
    + apply lerp_antitone; [lra|]. apply normalize_mono; lra.
    + assert (y <= lerp (normalize v1 px x) py y).
      { apply lerp_lower; [lra|]. apply normalize_le_1; lra. }
      pose proof (interpolateKnots_upper _ _ _ _ _ Hrest Hge2). lra.
    + lra.
    + apply IH; assumption.
Qed.

Lemma interpolateCentral_knots overflow bins : forall px py lo v,
  px <= lo -> binsChain lo py bins overflow -> lo <= v ->
  interpolateCentral px py bins overflow v
  = interpolateKnots px py (knotsOf bins overflow) v.
Proof.
  induction bins as [|bin rest IH]; intros px py lo v Hp Hc Hv;
    cbn [binsChain] in Hc; unfold knotsOf;
    cbn [interpolateCentral List.map List.app interpolateKnots].
  - destruct Hc as (Hlo & _).
    destruct (Qlt_le_dec v (bin_min overflow)) as [Hlt|Hge];
      [exfalso; lra|reflexivity].
  - destruct Hc as (Hmin & Hw & Hy & Hrest).
    pose proof (center_above_min bin Hw) as Hcl.
    pose proof (center_below_max bin Hw) as Hcu.
    destruct (Qlt_le_dec v (bin_max bin)) as [Hin|Hout].
    + destruct (Qlt_le_dec v (center bin)) as [Hlt|Hge]; [reflexivity|].
      destruct rest as [|g rest']; cbn [binsChain] in Hrest;
        cbn [fst snd List.map List.app interpolateKnots].
      * destruct Hrest as (Hlo & _).
        destruct (Qlt_le_dec v (bin_min overflow)); [reflexivity|exfalso; lra].
      * destruct Hrest as (Hgmin & Hgw & _).
        pose proof (center_above_min g Hgw).
        destruct (Qlt_le_dec v (center g)); [reflexivity|exfalso; lra].
    + destruct (Qlt_le_dec v (center bin)) as [Hlt|Hge]; [exfalso; lra|].
      apply IH with (lo := bin_max bin); [lra|assumption|assumption].
Qed.

Lemma binsChain_knots floor overflow bins : forall px py lo,
  px <= lo -> floor <= bin_count overflow -> binsChain lo py bins overflow ->
  (bins <> [] \/ px < lo) ->
  knotsDescending floor px py (knotsOf bins overflow).
Proof.
  induction bins as [|bin rest IH]; intros px py lo Hp Hf Hc Hne;
    cbn [binsChain] in Hc; unfold knotsOf;
    cbn [List.map List.app knotsDescending].
  - destruct Hc as (Hlo & Hy). destruct Hne as [Hne|Hne]; [congruence|].
    repeat split; lra.
  - destruct Hc as (Hmin & Hw & Hy & Hrest).
    pose proof (center_above_min bin Hw) as Hcl.
    pose proof (center_below_max bin Hw) as Hcu.
    repeat split; [lra|lra|].
    apply IH with (lo := bin_max bin); [lra|assumption|assumption|right; lra].
Qed.

Lemma TableWF_knots h :
  TableWF h ->
  knotsDescending (bin_count (overflowBin h))
                  (bin_max (underflowBin h)) (bin_count (underflowBin h))
                  (knotsOf (centralBins h) (overflowBin h)).
Proof.
  intros W. destruct W.
  apply binsChain_knots with (lo := range_min h);
    [lra | lra | assumption | left; assumption].
Qed.

Lemma getInterpolatedCountAt_central h v :
  TableWF h -> range_min h <= v -> v < range_max h ->
  getInterpolatedCountAt h v
  = interpolateKnots (bin_max (underflowBin h)) (bin_count (underflowBin h))
                     (knotsOf (centralBins h) (overflowBin h)) v.
Proof.
  intros W Hlo Hhi. unfold getInterpolatedCountAt.
  destruct (Qlt_le_dec v (range_min h)); [exfalso; lra|].
  destruct (Qlt_le_dec v (range_max h)); [|exfalso; lra].
  destruct W.
  apply interpolateCentral_knots with (lo := range_min h);
    [lra | assumption | assumption].
Qed.

Lemma getInterpolatedCountAt_underflow h v :
  v < range_min h ->
  getInterpolatedCountAt h v = bin_count (underflowBin h).
Proof.
  intros Hu. unfold getInterpolatedCountAt.
  destruct (Qlt_le_dec v (range_min h)); [reflexivity|exfalso; lra].
Qed.

Lemma getInterpolatedCountAt_overflow h v :
  range_min h <= range_max h -> range_max h <= v ->
  getInterpolatedCountAt h v = bin_count (overflowBin h).
Proof.
  intros Hr Ho. unfold getInterpolatedCountAt.
  destruct (Qlt_le_dec v (range_min h)); [exfalso; lra|].
  destruct (Qlt_le_dec v (range_max h)); [exfalso; lra|reflexivity].
Qed.

Lemma binsChain_range overflow bins : forall lo ly,
  binsChain lo ly bins overflow -> lo <= bin_min overflow.
Proof.
  induction bins as [|bin rest IH]; intros lo ly Hc; cbn [binsChain] in Hc.
  - destruct Hc as (Hlo & _). lra.
  - destruct Hc as (Hmin & Hw & _ & Hrest). specialize (IH _ _ Hrest). lra.
Qed.

Lemma TableWF_range h : TableWF h -> range_min h <= range_max h.
Proof.
  intros W. pose proof (binsChain_range _ _ _ _ (wf_chain h W)).
  pose proof (wf_max h W). lra.
Qed.

Lemma getInterpolatedCountAt_bounds h v :
  TableWF h ->
  bin_count (overflowBin h) <= getInterpolatedCountAt h v
  /\ getInterpolatedCountAt h v <= bin_count (underflowBin h).
Proof.
  intros W. pose proof (TableWF_knots h W) as K.
  pose proof (knotsDescending_floor _ _ _ _ K) as Hfloor.
  pose proof (TableWF_range h W) as Hr.
  destruct (Qlt_le_dec v (range_min h)) as [Hu|Hlo].
  - rewrite getInterpolatedCountAt_underflow by assumption. lra.
  - destruct (Qlt_le_dec v (range_max h)) as [Hc|Ho].
    + rewrite getInterpolatedCountAt_central by assumption.
      pose proof (wf_min h W) as Hmin.
      split.
      * apply interpolateKnots_lower with (floor := bin_count (overflowBin h));
          [assumption|lra].
      * apply interpolateKnots_upper with (floor := bin_count (overflowBin h));
          [assumption|lra].
    + rewrite getInterpolatedCountAt_overflow by assumption. lra.
Qed.

Lemma getInterpolatedCountAt_antitone h v1 v2 :
  TableWF h -> v1 <= v2 ->
  getInterpolatedCountAt h v2 <= getInterpolatedCountAt h v1.
Proof.
  intros W H12. pose proof (TableWF_knots h W) as K.
  pose proof (TableWF_range h W) as Hr.
  pose proof (getInterpolatedCountAt_bounds h v1 W) as [L1 U1].
  pose proof (getInterpolatedCountAt_bounds h v2 W) as [L2 U2].
  destruct (Qlt_le_dec v1 (range_min h)) as [Hu|Hlo].
  - rewrite (getInterpolatedCountAt_underflow h v1) by assumption. lra.
  - destruct (Qlt_le_dec v2 (range_max h)) as [Hc|Ho].
    + rewrite !getInterpolatedCountAt_central by (assumption || lra).
      pose proof (wf_min h W) as Hmin.
      apply interpolateKnots_antitone
        with (floor := bin_count (overflowBin h)); [assumption|lra|lra].
    + rewrite (getInterpolatedCountAt_overflow h v2) by assumption. lra.
Qed.


(** ** The three scoring tables *)

Ltac solve_Qcmp :=
  lazymatch goal with
  | |- _ == _ => vm_compute; reflexivity
  | |- _ < _ => vm_compute; reflexivity
  | |- _ <= _ => vm_compute; intro; discriminate
  | |- _ <> _ => discriminate
  end.

Ltac solve_TableWF :=
  constructor;
  cbn [binsChain centralBins RESPONSE_HISTOGRAM FAST_RESPONSE_HISTOGRAM
       LOAD_HISTOGRAM];
  repeat apply conj; solve_Qcmp.

Ltac each_scoring_table :=
  let H := fresh in intros H; destruct H as [<-|[<-|[<-|[]]]].

Lemma scoringTables_wf h : In h scoringTables -> TableWF h.
Proof. each_scoring_table; solve_TableWF. Qed.

Lemma scoringTables_maxCount h : In h scoringTables -> maxCount h == 1000.
Proof. each_scoring_table; vm_compute; reflexivity. Qed.

Lemma scoringTables_underflowCount h :
  In h scoringTables -> bin_count (underflowBin h) == 1000.
Proof. each_scoring_table; vm_compute; reflexivity. Qed.

Lemma scoringTables_overflowCount h :
  In h scoringTables -> bin_count (overflowBin h) == 0.
Proof. each_scoring_table; vm_compute; reflexivity. Qed.

Lemma div_maxCount_le a b : a <= b -> a / 1000 <= b / 1000.
Proof.
  intros H. unfold Qdiv. apply Qmult_le_compat_r; [assumption|].
  vm_compute; intro; discriminate.
Qed.

(** C1, as stated, fails: the duration score is not non-decreasing within
    the covered range.  In the RESPONSE table both 1000 ms and 2000 ms lie in
    the range 150..5000, and the score of 1000 ms is above the score of
    2000 ms. *)
Lemma duration_score_not_nondecreasing :
  ~ (forall h, In h scoringTables ->
     forall d1 d2, range_min h <= d1 -> d1 <= d2 -> d2 <= range_max h ->
       computeDurationResponsiveness h d1
       <= computeDurationResponsiveness h d2).
Proof.
  intros H.
  specialize (H RESPONSE_HISTOGRAM (or_introl eq_refl) 1000 2000).
  revert H. vm_compute. intros H. apply H; try (intro; discriminate).
  reflexivity.
Qed.

(** C1, amended: for each of the three scoring tables the duration score is
    monotonically non-increasing as the duration grows, over all durations
    and so within the covered range: a longer duration never scores
    higher. *)
Theorem duration_score_nonincreasing h d1 d2 :
  In h scoringTables -> d1 <= d2 ->
  computeDurationResponsiveness h d2 <= computeDurationResponsiveness h d1.
Proof.
  intros Hin H12. unfold computeDurationResponsiveness.
  rewrite (scoringTables_maxCount h Hin).
  apply div_maxCount_le.
  apply getInterpolatedCountAt_antitone; [apply scoringTables_wf|]; assumption.
Qed.

(** The LOAD table at the boundaries of its second bin. *)
Lemma duration_score_nonincreasing_witness :
  In LOAD_HISTOGRAM scoringTables /\ 6900 <= 12800
  /\ computeDurationResponsiveness LOAD_HISTOGRAM 12800
     <= computeDurationResponsiveness LOAD_HISTOGRAM 6900.
Proof.
  assert (Hin : In LOAD_HISTOGRAM scoringTables)
    by (right; right; left; reflexivity).
  assert (Hle : 6900 <= 12800) by (vm_compute; intro; discriminate).
  exact (conj Hin (conj Hle
           (duration_score_nonincreasing LOAD_HISTOGRAM 6900 12800 Hin Hle))).
Defined.

(** C3: for each of the three scoring tables and every duration the score
    lies in the closed interval from 0 to 1; a duration below the range takes
    the count of the underflow bin and a duration at or above the range takes
    the count of the overflow bin. *)
Theorem duration_score_in_unit_interval h d :
  In h scoringTables ->
  (0 <= computeDurationResponsiveness h d
   /\ computeDurationResponsiveness h d <= 1)
  /\ (d < range_min h ->
      getInterpolatedCountAt h d = bin_count (underflowBin h))
  /\ (range_max h <= d ->
      getInterpolatedCountAt h d = bin_count (overflowBin h)).
Proof.
  intros Hin. pose proof (scoringTables_wf h Hin) as W.
  split; [|split].
  - unfold computeDurationResponsiveness.
    rewrite (scoringTables_maxCount h Hin).
    destruct (getInterpolatedCountAt_bounds h d W) as [L U].
    rewrite (scoringTables_overflowCount h Hin) in L.
    rewrite (scoringTables_underflowCount h Hin) in U.
    split.
    + apply Qle_shift_div_l; [reflexivity|lra].
    + apply Qle_shift_div_r; [reflexivity|lra].
  - apply getInterpolatedCountAt_underflow.
  - apply getInterpolatedCountAt_overflow. apply TableWF_range, W.
Qed.

(** The FAST_RESPONSE table below its range, and the RESPONSE table above
    its range. *)
Lemma duration_score_in_unit_interval_witness :
  (In FAST_RESPONSE_HISTOGRAM scoringTables
   /\ 10 < range_min FAST_RESPONSE_HISTOGRAM
   /\ 0 <= computeDurationResponsiveness FAST_RESPONSE_HISTOGRAM 10
   /\ computeDurationResponsiveness FAST_RESPONSE_HISTOGRAM 10 <= 1
   /\ getInterpolatedCountAt FAST_RESPONSE_HISTOGRAM 10
      = bin_count (underflowBin FAST_RESPONSE_HISTOGRAM))
  /\ (In RESPONSE_HISTOGRAM scoringTables
      /\ range_max RESPONSE_HISTOGRAM <= 7000
      /\ getInterpolatedCountAt RESPONSE_HISTOGRAM 7000
         = bin_count (overflowBin RESPONSE_HISTOGRAM)).
Proof.
  assert (Hfast : In FAST_RESPONSE_HISTOGRAM scoringTables)
    by (right; left; reflexivity).
  assert (Hresp : In RESPONSE_HISTOGRAM scoringTables)
    by (left; reflexivity).
  assert (Hlow : 10 < range_min FAST_RESPONSE_HISTOGRAM)
    by (vm_compute; reflexivity).
  assert (Hhigh : range_max RESPONSE_HISTOGRAM <= 7000)
    by (vm_compute; intro; discriminate).
  destruct (duration_score_in_unit_interval FAST_RESPONSE_HISTOGRAM 10 Hfast)
    as ((H0 & H1) & Hunder & _).
  destruct (duration_score_in_unit_interval RESPONSE_HISTOGRAM 7000 Hresp)
    as (_ & _ & Hover).
  split.
  - exact (conj Hfast (conj Hlow (conj H0 (conj H1 (Hunder Hlow))))).
  - exact (conj Hresp (conj Hhigh (Hover Hhigh))).
Defined.

(** ** Animation throughput *)

Lemma clamp_unit_interval x : 0 <= clamp x 0 1 /\ clamp x 0 1 <= 1.
Proof.
  unfold clamp. split.
  - apply Q.min_glb; [apply Q.le_max_r | vm_compute; intro; discriminate].
  - apply Q.le_min_r.
Qed.

Lemma clamp_above x : 1 <= x -> clamp x 0 1 == 1.
Proof.
  intros H. unfold clamp.
  rewrite Q.max_l by lra. apply Q.min_r. assumption.
Qed.

Lemma clamp_below x : x <= 0 -> clamp x 0 1 == 0.
Proof.
  intros H. unfold clamp.
  rewrite Q.max_r by assumption. apply Q.min_l.
  vm_compute; intro; discriminate.
Qed.

Lemma frameCount_positive (frames : list FrameEvent) :
  frames <> [] -> 0 < inject_Z (Z.of_nat (List.length frames)).
Proof.
  intros H. destruct frames as [|f rest]; [congruence|].
  change 0 with (inject_Z 0). rewrite <- Zlt_Qlt. simpl List.length. lia.
Qed.

(** ** Rounding to doubles *)

Lemma roundHalfEven_floor q :
  (Qfloor q <= roundHalfEven q <= Qfloor q + 1)%Z.
Proof.
  unfold roundHalfEven.
  destruct (Qcompare _ _); [destruct (Z.even _)| |]; lia.
Qed.

Lemma roundHalfEven_Z k : roundHalfEven (inject_Z k) = k.
Proof.
  unfold roundHalfEven. rewrite Qfloor_Z.
  destruct (Qcompare_spec (inject_Z k - inject_Z k) (1 # 2)) as [H|H|H];
    [exfalso; lra | reflexivity | exfalso; lra].
Qed.

Lemma roundHalfEven_mono q q' :
  q <= q' -> (roundHalfEven q <= roundHalfEven q')%Z.
Proof.
  intros Hle. pose proof (Qfloor_resp_le _ _ Hle) as Hfloor.
  destruct (Z.eq_dec (Qfloor q) (Qfloor q')) as [Heq|Hneq].
  - unfold roundHalfEven. rewrite <- Heq.
    destruct (Qcompare_spec (q - inject_Z (Qfloor q)) (1 # 2)) as [H|H|H];
      destruct (Qcompare_spec (q' - inject_Z (Qfloor q)) (1 # 2))
        as [H'|H'|H'];
      try destruct (Z.even (Qfloor q)); try lia; exfalso; lra.
  - pose proof (roundHalfEven_floor q). pose proof (roundHalfEven_floor q').
    lia.
Qed.

Lemma roundHalfEven_above k q :
  inject_Z k <= q -> (k <= roundHalfEven q)%Z.
Proof.
  intros H. apply roundHalfEven_mono in H.
  rewrite roundHalfEven_Z in H. assumption.
Qed.

Lemma roundHalfEven_below k q :
  q <= inject_Z k -> (roundHalfEven q <= k)%Z.
Proof.
  intros H. apply roundHalfEven_mono in H.
  rewrite roundHalfEven_Z in H. assumption.
Qed.

Lemma pow2_positive k : 0 < 2 ^ k.
Proof. apply Qpower_0_lt. reflexivity. Qed.

Lemma pow2_inject k : (0 <= k)%Z -> 2 ^ k == inject_Z (2 ^ k).
Proof. intros H. symmetry. apply (Zpower_Qpower 2 k H). Qed.

Lemma pow2_plus a b : 2 ^ (a + b) == 2 ^ a * 2 ^ b.
Proof. apply Qpower_plus. discriminate. Qed.

Lemma pow2_le a b : (a <= b)%Z -> 2 ^ a <= 2 ^ b.
Proof. intros H. apply Qpower_le_compat_l; [assumption|]. discriminate. Qed.

Lemma pow2_lt_inv a b : 2 ^ a < 2 ^ b -> (a < b)%Z.
Proof.
  intros H. apply (Qpower_lt_compat_l_inv 2); [assumption|reflexivity].
Qed.

Lemma Qdiv_lt_cross a b c d :
  0 < b -> 0 < d -> a * d < c * b -> a / b < c / d.
Proof.
  intros Hb Hd H. apply Qlt_shift_div_r; [assumption|].
  assert (E : c / d * b == c * b / d) by (field; lra).
  rewrite E. apply Qlt_shift_div_l; assumption.
Qed.

Lemma inject_Z_positive z : (0 < z)%Z -> 0 < inject_Z z.
Proof.
  intros H. change 0 with (inject_Z 0). rewrite <- Zlt_Qlt. assumption.
Qed.

Lemma ilog2_spec x : 0 < x -> 2 ^ ilog2 x <= x /\ x < 2 ^ (ilog2 x + 1).
Proof.
  intros Hx. destruct x as [n d]. unfold ilog2. cbn [Qnum Qden].
  assert (Hn : (0 < n)%Z).
  { unfold Qlt in Hx. cbn in Hx. lia. }
  set (a := Z.log2 n). set (b := Z.log2 (Z.pos d)).
  destruct (Z.log2_spec n Hn) as [Hna Hna'].
  destruct (Z.log2_spec (Z.pos d) eq_refl) as [Hdb Hdb'].
  fold a in Hna, Hna'. fold b in Hdb, Hdb'.
  assert (Ha : (0 <= a)%Z) by apply Z.log2_nonneg.
  assert (Hb : (0 <= b)%Z) by apply Z.log2_nonneg.
  assert (Hfrac : n # d == inject_Z n / inject_Z (Z.pos d))
    by (rewrite Qmake_Qdiv; reflexivity).
  assert (Hd0 : 0 < inject_Z (Z.pos d)) by reflexivity.
  assert (Hupper : n # d < 2 ^ (a - b + 1)).
  { replace (a - b + 1)%Z with (Z.succ a - b)%Z by lia.
    rewrite Qpower_minus by discriminate.
    rewrite (pow2_inject (Z.succ a)), (pow2_inject b) by lia.
    rewrite Hfrac. apply Qdiv_lt_cross.
    - assumption.
    - apply inject_Z_positive. lia.
    - rewrite <- !inject_Z_mult, <- Zlt_Qlt. nia. }
  assert (Hlower : 2 ^ (a - b - 1) < n # d).
  { replace (a - b - 1)%Z with (a - Z.succ b)%Z by lia.
    rewrite Qpower_minus by discriminate.
    rewrite (pow2_inject a), (pow2_inject (Z.succ b)) by lia.
    rewrite Hfrac. apply Qdiv_lt_cross.
    - apply inject_Z_positive. lia.
    - assumption.
    - rewrite <- !inject_Z_mult, <- Zlt_Qlt. nia. }
  destruct (Qle_bool (2 ^ (a - b)) (n # d)) eqn:Htest.
  - apply Qle_bool_iff in Htest. split; assumption.
  - split; [apply Qlt_le_weak; assumption|].
    replace (a - b - 1 + 1)%Z with (a - b)%Z by lia.
    apply Qnot_le_lt. intros Hle. apply Qle_bool_iff in Hle. congruence.
Qed.

Lemma ilog2_mono x y : 0 < x -> x <= y -> (ilog2 x <= ilog2 y)%Z.
Proof.
  intros Hx Hle.
  destruct (ilog2_spec x Hx) as [Hlow _].
  destruct (ilog2_spec y) as [_ Hhigh]; [lra|].
  assert (H : 2 ^ ilog2 x < 2 ^ (ilog2 y + 1)) by lra.
  apply pow2_lt_inv in H. lia.
Qed.

Lemma roundPositive_mono x y :
  0 < x -> x <= y -> roundPositive x <= roundPositive y.
Proof.
  intros Hx Hle. pose proof (ilog2_mono x y Hx Hle) as Hlog.
  unfold roundPositive, binary64Exponent.
  set (ex := Z.max (ilog2 x - 52) (-1074)).
  set (ey := Z.max (ilog2 y - 52) (-1074)).
  pose proof (pow2_positive ex) as Hpx. pose proof (pow2_positive ey) as Hpy.
  destruct (Z.eq_dec ex ey) as [Heq|Hneq].
  - rewrite <- Heq.
    apply Qmult_le_compat_r; [|lra].
    rewrite <- Zle_Qle. apply roundHalfEven_mono.
    apply Qle_shift_div_l; [assumption|].
    assert (E : x / 2 ^ ex * 2 ^ ex == x) by (field; lra).
    rewrite E. assumption.
  - assert (Hey : ey = (ilog2 y - 52)%Z) by lia.
    assert (Hlt : (ilog2 x + 1 <= ey + 52)%Z) by lia.
    assert (Hex : (ex < ey)%Z) by lia.
    destruct (ilog2_spec x Hx) as [_ Hxhigh].
    destruct (ilog2_spec y) as [Hylow _]; [lra|].
    apply Qle_trans with (2 ^ (ey + 52)).
    + (* the smaller number rounds to at most the next power of two *)
      assert (Hp : 2 ^ (ey + 52) == inject_Z (2 ^ (ey + 52 - ex)) * 2 ^ ex).
      { rewrite <- pow2_inject by lia. rewrite <- pow2_plus.
        apply Qpower_comp; [reflexivity | lia]. }
      rewrite Hp. apply Qmult_le_compat_r; [|lra].
      rewrite <- Zle_Qle. apply roundHalfEven_below.
      apply Qle_shift_div_r; [assumption|]. rewrite <- Hp.
      apply Qle_trans with (2 ^ (ilog2 x + 1)); [lra|].
      apply pow2_le. assumption.
    + assert (Hp : 2 ^ (ey + 52) == inject_Z (2 ^ 52) * 2 ^ ey).
      { rewrite <- pow2_inject by lia. rewrite <- pow2_plus.
        apply Qpower_comp; [reflexivity | lia]. }
      rewrite Hp. apply Qmult_le_compat_r; [|lra].
      rewrite <- Zle_Qle. apply roundHalfEven_above.
      apply Qle_shift_div_l; [assumption|]. rewrite <- Hp.
      replace (ey + 52)%Z with (ilog2 y) by lia. assumption.
Qed.

Lemma roundPositive_nonneg x : 0 < x -> 0 <= roundPositive x.
Proof.
  intros Hx. unfold roundPositive.
  pose proof (pow2_positive (binary64Exponent x)) as Hp.
  apply Qmult_le_0_compat; [|lra].
  change 0 with (inject_Z 0). rewrite <- Zle_Qle.
  apply roundHalfEven_above. apply Qle_shift_div_l; [assumption|].
  change (inject_Z 0) with 0. lra.
Qed.

Lemma binary64_mono x y : x <= y -> binary64 x <= binary64 y.
Proof.
  intros Hle. unfold binary64.
  destruct (Qcompare_spec x 0) as [Hx|Hx|Hx];
    destruct (Qcompare_spec y 0) as [Hy|Hy|Hy]; try (exfalso; lra).
  - lra.
  - apply roundPositive_nonneg. assumption.
  - pose proof (roundPositive_nonneg (- x)). lra.
  - pose proof (roundPositive_mono (- y) (- x)). lra.
  - pose proof (roundPositive_nonneg (- x)).
    pose proof (roundPositive_nonneg y). lra.
  - apply roundPositive_mono; assumption.
Qed.


Lemma roundHalfEven_upper q : inject_Z (roundHalfEven q) <= q + (1 # 2).
Proof.
  unfold roundHalfEven. pose proof (Qfloor_le q) as Hfloor.
  destruct (Qcompare_spec (q - inject_Z (Qfloor q)) (1 # 2)) as [H|H|H].
  - destruct (Z.even (Qfloor q)); [lra|].
    rewrite inject_Z_plus. change (inject_Z 1) with 1. lra.
  - lra.
  - rewrite inject_Z_plus. change (inject_Z 1) with 1. lra.
Qed.

Lemma roundHalfEven_lower q : q - (1 # 2) <= inject_Z (roundHalfEven q).
Proof.
  unfold roundHalfEven. pose proof (Qlt_floor q) as Hfloor.
  rewrite inject_Z_plus in Hfloor. change (inject_Z 1) with 1 in Hfloor.
  destruct (Qcompare_spec (q - inject_Z (Qfloor q)) (1 # 2)) as [H|H|H].
  - destruct (Z.even (Qfloor q)); [lra|].
    rewrite inject_Z_plus. change (inject_Z 1) with 1. lra.
  - lra.
  - rewrite inject_Z_plus. change (inject_Z 1) with 1. lra.
Qed.

Lemma binary64_upper x :
  2 ^ (-1022) <= x -> binary64 x <= x * (1 + UNIT_ROUNDOFF).
Proof.
  intros Hnormal.
  pose proof (pow2_positive (-1022)) as Hmin.
  assert (Hx : 0 < x) by lra.
  destruct (ilog2_spec x Hx) as [Hlow Hhigh].
  assert (Hlog : (-1022 <= ilog2 x)%Z).
  { assert (H : 2 ^ (-1022) < 2 ^ (ilog2 x + 1)) by lra.
    apply pow2_lt_inv in H. lia. }
  unfold binary64.
  destruct (Qcompare_spec x 0) as [H|H|H]; try (exfalso; lra).
  unfold roundPositive, binary64Exponent.
  rewrite Z.max_l by lia.
  set (e := (ilog2 x - 52)%Z).
  pose proof (pow2_positive e) as He.
  pose proof (roundHalfEven_upper (x / 2 ^ e)) as Hround.
  assert (Hulp : 2 ^ e * (1 # 2) <= x * UNIT_ROUNDOFF).
  { assert (E : 2 ^ ilog2 x == 2 ^ e * inject_Z (2 ^ 52)).
    { rewrite <- pow2_inject by lia. rewrite <- pow2_plus.
      apply Qpower_comp; [reflexivity | unfold e; lia]. }
    rewrite E in Hlow. unfold UNIT_ROUNDOFF.
    change (inject_Z (2 ^ 52)) with (4503599627370496 # 1) in Hlow. lra. }
  apply Qle_trans with ((x / 2 ^ e + (1 # 2)) * 2 ^ e).
  - apply Qmult_le_compat_r; [assumption | lra].
  - assert (E : (x / 2 ^ e + (1 # 2)) * 2 ^ e == x + 2 ^ e * (1 # 2))
      by (field; lra).
    rewrite E. lra.
Qed.

Lemma binary64_lower x :
  2 ^ (-1022) <= x -> x * (1 - UNIT_ROUNDOFF) <= binary64 x.
Proof.
  intros Hnormal.
  pose proof (pow2_positive (-1022)) as Hmin.
  assert (Hx : 0 < x) by lra.
  destruct (ilog2_spec x Hx) as [Hlow Hhigh].
  assert (Hlog : (-1022 <= ilog2 x)%Z).
  { assert (H : 2 ^ (-1022) < 2 ^ (ilog2 x + 1)) by lra.
    apply pow2_lt_inv in H. lia. }
  unfold binary64.
  destruct (Qcompare_spec x 0) as [H|H|H]; try (exfalso; lra).
  unfold roundPositive, binary64Exponent.
  rewrite Z.max_l by lia.
  set (e := (ilog2 x - 52)%Z).
  pose proof (pow2_positive e) as He.
  pose proof (roundHalfEven_lower (x / 2 ^ e)) as Hround.
  assert (Hulp : 2 ^ e * (1 # 2) <= x * UNIT_ROUNDOFF).
  { assert (E : 2 ^ ilog2 x == 2 ^ e * inject_Z (2 ^ 52)).
    { rewrite <- pow2_inject by lia. rewrite <- pow2_plus.
      apply Qpower_comp; [reflexivity | unfold e; lia]. }
    rewrite E in Hlow. unfold UNIT_ROUNDOFF.
    change (inject_Z (2 ^ 52)) with (4503599627370496 # 1) in Hlow. lra. }
  apply Qle_trans with ((x / 2 ^ e - (1 # 2)) * 2 ^ e).
  - assert (E : (x / 2 ^ e - (1 # 2)) * 2 ^ e == x - 2 ^ e * (1 # 2))
      by (field; lra).
    rewrite E. lra.
  - apply Qmult_le_compat_r; [assumption | lra].
Qed.

Lemma normal_above_hundredth x : (1 # 100) <= x -> 2 ^ (-1022) <= x.
Proof.
  intros H. apply Qle_trans with (2 ^ (-7)).
  - apply pow2_le. lia.
  - apply Qle_trans with (1 # 100); [vm_compute; intro; discriminate|].
    assumption.
Qed.

(** ** Animation throughput in doubles *)

Lemma binary64_0 : binary64 0 == 0.
Proof. reflexivity. Qed.

Lemma binary64_1 : binary64 1 == 1.
Proof. vm_compute. reflexivity. Qed.

Lemma double_range_positive :
  0 < Double.sub (Double.div 1 MIN_FPS) (Double.div 1 MAX_FPS).
Proof. vm_compute. reflexivity. Qed.

Lemma double_throughput_antitone faster slower :
  faster <= slower ->
  Double.sub 1 (Double.normalize slower (Double.div 1 MAX_FPS)
                                 (Double.div 1 MIN_FPS))
  <= Double.sub 1 (Double.normalize faster (Double.div 1 MAX_FPS)
                                    (Double.div 1 MIN_FPS)).
Proof.
  intros Hle. unfold Double.normalize.
  set (range := Double.sub (Double.div 1 MIN_FPS) (Double.div 1 MAX_FPS)).
  pose proof double_range_positive as Hrange. fold range in Hrange.
  assert (Hdiff : Double.sub faster (Double.div 1 MAX_FPS)
                  <= Double.sub slower (Double.div 1 MAX_FPS)).
  { apply binary64_mono. lra. }
  assert (Hnorm : Double.div (Double.sub faster (Double.div 1 MAX_FPS)) range
                  <= Double.div (Double.sub slower (Double.div 1 MAX_FPS))
                                range).
  { apply binary64_mono. unfold Qdiv. apply Qmult_le_compat_r; [assumption|].
    apply Qlt_le_weak, Qinv_lt_0_compat. assumption. }
  apply binary64_mono. lra.
Qed.

Lemma double_throughput_at_60_fps avgSpf :
  avgSpf <= slowestAverageAt60Fps ->
  1 <= Double.sub 1 (Double.normalize avgSpf (Double.div 1 MAX_FPS)
                                      (Double.div 1 MIN_FPS)).
Proof.
  intros Hfast.
  apply Qle_trans
    with (Double.sub 1 (Double.normalize slowestAverageAt60Fps
                          (Double.div 1 MAX_FPS) (Double.div 1 MIN_FPS))).
  - vm_compute. intro; discriminate.
  - apply double_throughput_antitone. assumption.
Qed.

Lemma double_throughput_zero avgSpf :
  Double.div 1 MIN_FPS <= avgSpf ->
  Double.sub 1 (Double.normalize avgSpf (Double.div 1 MAX_FPS)
                                 (Double.div 1 MIN_FPS)) <= 0.
Proof.
  intros Hslow. unfold Double.normalize.
  set (range := Double.sub (Double.div 1 MIN_FPS) (Double.div 1 MAX_FPS)).
  pose proof double_range_positive as Hrange. fold range in Hrange.
  assert (Hdiff : range <= Double.sub avgSpf (Double.div 1 MAX_FPS)).
  { apply binary64_mono. lra. }
  assert (Hnorm : 1 <= Double.div (Double.sub avgSpf (Double.div 1 MAX_FPS))
                                  range).
  { rewrite <- binary64_1 at 1. apply binary64_mono.
    apply Qle_shift_div_l; [assumption|]. lra. }
  rewrite <- binary64_0. apply binary64_mono. lra.
Qed.

Lemma fastestAverageBelow10Fps_slow :
  Double.div 1 MIN_FPS <= fastestAverageBelow10Fps.
Proof. vm_compute. intro; discriminate. Qed.

Lemma Qdiv_1000 x : x / 1000 == x * (1 # 1000).
Proof. field. Qed.

Lemma average_at_60_fps d n :
  1 <= n ->
  d <= Double.mul n (Double.div 1000 60) \/ d <= n * (1000 / 60) ->
  Double.div (Double.div d 1000) n <= slowestAverageAt60Fps.
Proof.
  intros Hn Hd. unfold slowestAverageAt60Fps, Double.mul in *.
  set (c := Double.div 1000 60) in *.
  assert (Hc : 16 <= c) by (vm_compute; intro; discriminate).
  assert (Hexact : (50 # 3) <= c) by (vm_compute; intro; discriminate).
  set (m := n * c) in *.
  assert (Hm : 16 <= m) by (unfold m; nra).
  assert (Hduration : d <= m * (1 + UNIT_ROUNDOFF)).
  { unfold UNIT_ROUNDOFF. destruct Hd as [Hd|Hd].
    - pose proof (binary64_upper m) as Hup.
      unfold UNIT_ROUNDOFF in Hup.
      apply Qle_trans with (binary64 m); [assumption|].
      apply Hup. apply normal_above_hundredth. lra.
    - setoid_replace (1000 / 60) with (50 # 3) in Hd by reflexivity.
      unfold m. nra. }
  unfold Double.div at 2.
  assert (Hseconds : binary64 (d / 1000)
                     <= m * (1 + UNIT_ROUNDOFF) * (1 # 1000)
                        * (1 + UNIT_ROUNDOFF)).
  { apply Qle_trans
      with (binary64 (m * (1 + UNIT_ROUNDOFF) * (1 # 1000))).
    - apply binary64_mono. rewrite Qdiv_1000. lra.
    - apply binary64_upper. apply normal_above_hundredth.
      unfold UNIT_ROUNDOFF. lra. }
  unfold Double.div. apply binary64_mono.
  apply Qle_shift_div_r; [lra|].
  rewrite (Qdiv_1000 (c * (1 + UNIT_ROUNDOFF)
                      * (1 + UNIT_ROUNDOFF))).
  assert (E : c * (1 + UNIT_ROUNDOFF) * (1 + UNIT_ROUNDOFF)
              * (1 # 1000) * n
              == m * (1 + UNIT_ROUNDOFF) * (1 # 1000)
                 * (1 + UNIT_ROUNDOFF)) by (unfold m; ring).
  rewrite E. assumption.
Qed.

Lemma average_below_10_fps d n :
  1 <= n ->
  n * 100 * (1 + UNIT_ROUNDOFF) <= d ->
  fastestAverageBelow10Fps <= Double.div (Double.div d 1000) n.
Proof.
  intros Hn Hd. unfold fastestAverageBelow10Fps.
  assert (Hseconds : n * (1 # 10) * (1 + UNIT_ROUNDOFF)
                     * (1 - UNIT_ROUNDOFF)
                     <= Double.div d 1000).
  { apply Qle_trans
      with (binary64 (n * (1 # 10) * (1 + UNIT_ROUNDOFF))).
    - apply binary64_lower. apply normal_above_hundredth.
      unfold UNIT_ROUNDOFF. lra.
    - apply binary64_mono. rewrite Qdiv_1000. lra. }
  unfold Double.div at 1. apply binary64_mono.
  apply Qle_shift_div_l; [lra|].
  assert (E : (1 # 10) * (1 + UNIT_ROUNDOFF)
              * (1 - UNIT_ROUNDOFF) * n
              == n * (1 # 10) * (1 + UNIT_ROUNDOFF)
                 * (1 - UNIT_ROUNDOFF)) by ring.
  rewrite E. assumption.
Qed.

(** C4, as stated, fails: three frames in 300 ms are exactly 10 frames per
    second, yet the throughput that the code computes is 2 ^ -53 and not 0:
    300 / 1000 rounds to a double below 0.3, so the average seconds per frame
    falls below the double nearest to 0.1. *)
Lemma throughput_at_10_fps_is_not_zero :
  duration animationAt10Fps
  == inject_Z (Z.of_nat (frameCount animationAt10Fps)) * 100
  /\ exists throughput,
       Double.computeAnimationThroughput animationAt10Fps = Ok throughput
       /\ throughput == 1 # 9007199254740992
       /\ ~ throughput == 0.
Proof.
  split; [reflexivity|].
  destruct (Double.computeAnimationThroughput animationAt10Fps)
    as [throughput|message] eqn:Hrun.
  - exists throughput. split; [reflexivity|].
    vm_compute in Hrun. inversion Hrun; subst throughput.
    split; [reflexivity | discriminate].
  - vm_compute in Hrun. discriminate Hrun.
Qed.

(** C4, amended: for an Animation expectation with N >= 1 frame events the
    throughput sub-score, computed in doubles as the code computes it, lies
    between 0 and 1; it is 1 when the average frame rate is 60 frames per
    second or more, the duration being at most N * (1000 / 60) ms, exactly
    or as doubles give the product; and it is 0 whenever the average seconds
    per frame that the code computes, (duration / 1000) / N, is at least the
    double nearest to 1 / 10, which is so whenever the duration is at least
    N * 100 * (1 + 2 ^ -53) ms. *)
Theorem animation_throughput_score_in_doubles ae frames :
  kind ae = AnimationExpectation (Some frames) -> frames <> [] ->
  exists throughput,
    Double.computeAnimationThroughput ae = Ok throughput
    /\ (0 <= throughput /\ throughput <= 1)
    /\ (duration ae
        <= Double.mul (inject_Z (Z.of_nat (List.length frames)))
                      (Double.div 1000 60)
        \/ duration ae
           <= inject_Z (Z.of_nat (List.length frames)) * (1000 / 60) ->
        throughput == 1)
    /\ (Double.div 1 MIN_FPS <= averageSecondsPerFrame ae ->
        throughput == 0)
    /\ (inject_Z (Z.of_nat (List.length frames)) * 100 * (1 + UNIT_ROUNDOFF)
        <= duration ae ->
        throughput == 0).
Proof.
  intros Hk Hne.
  assert (Hn : 1 <= inject_Z (Z.of_nat (List.length frames))).
  { destruct frames as [|f rest]; [congruence|].
    change 1 with (inject_Z 1). rewrite <- Zle_Qle.
    cbn [List.length]. lia. }
  unfold Double.computeAnimationThroughput, averageSecondsPerFrame,
    frameCount, frameEventsOf.
  rewrite Hk. destruct frames as [|f rest]; [congruence|].
  cbn [missingFrameEvents List.length Nat.eqb] in *.
  eexists. split; [reflexivity|]. split; [apply clamp_unit_interval|].
  cbv zeta. split; [|split].
  - intros Hfast. apply clamp_above. apply double_throughput_at_60_fps.
    apply average_at_60_fps; assumption.
  - intros Hslow. apply clamp_below.
    apply double_throughput_zero. assumption.
  - intros Hslow. apply clamp_below. apply double_throughput_zero.
    apply Qle_trans with fastestAverageBelow10Fps;
      [apply fastestAverageBelow10Fps_slow|].
    apply average_below_10_fps; assumption.
Qed.

(** Three frames in 50 ms, which is 60 frames per second, score 1, and three
    frames in 600 ms, which is 5 frames per second, score 0. *)
Lemma animation_throughput_score_in_doubles_witness :
  (exists throughput,
     Double.computeAnimationThroughput animationAt60Fps = Ok throughput
     /\ throughput == 1)
  /\ (exists throughput,
        Double.computeAnimationThroughput animationAt5Fps = Ok throughput
        /\ throughput == 0).
Proof.
  split.
  - destruct (animation_throughput_score_in_doubles animationAt60Fps
                sampleFrames)
      as (t & Hc & _ & Hfast & _); [reflexivity|discriminate|].
    exists t. split; [exact Hc|]. apply Hfast. right.
    vm_compute. intro; discriminate.
  - destruct (animation_throughput_score_in_doubles animationAt5Fps
                sampleFrames)
      as (t & Hc & _ & _ & _ & Hslow); [reflexivity|discriminate|].
    exists t. split; [exact Hc|]. apply Hslow.
    vm_compute. intro; discriminate.
Defined.

(** ** The responsiveness metric *)

Lemma sum_weights_positive (weightCallback : Q -> Q) :
  (forall s, 0 < weightCallback s) ->
  forall ary acc, 0 < acc ->
  0 < fold_left (fun acc v => acc + weightCallback v) ary acc.
Proof.
  intros Hpos. induction ary as [|v rest IH]; intros acc Hacc; cbn.
  - assumption.
  - apply IH. specialize (Hpos v). lra.
Qed.

Lemma weightedMean_defined (weightCallback : Q -> Q) ary :
  (forall s, 0 < weightCallback s) -> ary <> [] ->
  exists mean, weightedMean ary weightCallback = Some mean.
Proof.
  intros Hpos Hne. destruct ary as [|v rest]; [congruence|].
  unfold weightedMean.
  destruct (Qeq_dec _ 0) as [Hz|Hnz]; [|eexists; reflexivity].
  exfalso. cbn [fold_left] in Hz.
  pose proof (sum_weights_positive weightCallback Hpos rest
                (0 + weightCallback v)) as P.
  specialize (Hpos v).
  assert (0 < 0 + weightCallback v) as H0 by lra.
  specialize (P H0). lra.
Qed.

Lemma samplePerceptualBlend_positive score : 0 < samplePerceptualBlend score.
Proof.
  unfold samplePerceptualBlend.
  destruct (clamp_unit_interval score) as [_ H]. lra.
Qed.

Section ResponsivenessProperties.
Variable timestampsDiscrepancy : list Q -> bool -> Q.
Variable perceptualBlend : Q -> Q.

Lemma computeResponsiveness_missing_frames url ae frameEvents dv :
  kind ae = AnimationExpectation frameEvents ->
  missingFrameEvents frameEvents = true ->
  computeResponsiveness timestampsDiscrepancy perceptualBlend url ae dv
  = (Throw (missingFrameEventsMessage ae), dv).
Proof.
  intros Hk Hm.
  unfold computeResponsiveness, computeAnimationResponsiveness, js_bind,
    js_lift, computeAnimationThroughput, frameEventsOf.
  rewrite Hk, Hm. reflexivity.
Qed.

Lemma scoreExpectations_aborts url ae frameEvents :
  kind ae = AnimationExpectation frameEvents ->
  missingFrameEvents frameEvents = true ->
  forall ues scores dv,
    In ae ues ->
    exists message dv',
      scoreExpectations timestampsDiscrepancy perceptualBlend url ues scores
                        dv
      = (Throw message, dv').
Proof.
  intros Hk Hm ues.
  induction ues as [|ue rest IH]; intros scores dv Hin.
  - destruct Hin.
  - cbn [scoreExpectations].
    destruct (isIdle ue) eqn:Hidle.
    + destruct Hin as [->|Hin].
      * unfold isIdle in Hidle. rewrite Hk in Hidle. discriminate.
      * apply IH. assumption.
    + unfold js_bind.
      destruct (computeResponsiveness timestampsDiscrepancy perceptualBlend
                  url ue dv) as [[score|message] dv1] eqn:Hc.
      * destruct Hin as [->|Hin].
        -- rewrite (computeResponsiveness_missing_frames
                      url ae frameEvents dv Hk Hm) in Hc.
           discriminate.
        -- apply IH. assumption.
      * exists message, dv1. reflexivity.
Qed.

(** C7: for an Animation expectation whose frame events are absent or empty,
    the throughput and the smoothness computation both throw the error whose
    message names the stable id of the expectation, so does the scorer of the
    expectation, leaving the diagnostic values as they were; and the metric
    of any model that holds the expectation throws and leaves the caller's
    value list unchanged. *)
Theorem animation_without_frames_aborts ae frameEvents :
  kind ae = AnimationExpectation frameEvents ->
  frameEvents = None \/ frameEvents = Some [] ->
  computeAnimationThroughput ae = Throw (missingFrameEventsMessage ae)
  /\ computeAnimationSmoothness timestampsDiscrepancy ae
     = Throw (missingFrameEventsMessage ae)
  /\ (forall url dv,
        computeResponsiveness timestampsDiscrepancy perceptualBlend url ae dv
        = (Throw (missingFrameEventsMessage ae), dv))
  /\ (forall model valueList,
        In ae (expectations model) ->
        exists message,
          responsivenessMetric timestampsDiscrepancy perceptualBlend model
                               valueList
          = (Throw message, valueList)).
Proof.
  intros Hk Hfe.
  assert (Hm : missingFrameEvents frameEvents = true)
    by (destruct Hfe as [->| ->]; reflexivity).
  repeat split.
  - unfold computeAnimationThroughput, frameEventsOf.
    rewrite Hk, Hm. reflexivity.
  - unfold computeAnimationSmoothness, frameEventsOf.
    rewrite Hk, Hm. reflexivity.
  - intros url dv.
    apply computeResponsiveness_missing_frames with frameEvents; assumption.
  - intros model valueList Hin.
    destruct (scoreExpectations_aborts (model_canonicalUrl model) ae
                frameEvents Hk Hm (expectations model) [] [] Hin)
      as (message & dv' & Hs).
    exists message. unfold responsivenessMetric. rewrite Hs. reflexivity.
Qed.

Lemma scoreExpectations_skips_idle url ues : forall scores dv,
  scoreExpectations timestampsDiscrepancy perceptualBlend url ues scores dv
  = scoreExpectations timestampsDiscrepancy perceptualBlend url
                      (filter nonIdle ues) scores dv.
Proof.
  induction ues as [|ue rest IH]; intros scores dv; [reflexivity|].
  cbn [scoreExpectations filter]. unfold nonIdle at 1.
  destruct (isIdle ue) eqn:Hidle; cbn [negb].
  - apply IH.
  - cbn [scoreExpectations]. rewrite Hidle. unfold js_bind.
    destruct (computeResponsiveness timestampsDiscrepancy perceptualBlend
                url ue dv) as [[score|message] dv1];
      [apply IH|reflexivity].
Qed.

Lemma scoreExpectations_scores_length url ues :
  forall scores dv scores' dv',
  scoreExpectations timestampsDiscrepancy perceptualBlend url ues scores dv
  = (Ok scores', dv') ->
  List.length scores'
  = (List.length scores + List.length (filter nonIdle ues))%nat.
Proof.
  induction ues as [|ue rest IH]; intros scores dv scores' dv' H.
  - cbn in H. inversion H; subst. cbn. lia.
  - cbn [scoreExpectations filter] in *. unfold nonIdle at 1.
    destruct (isIdle ue) eqn:Hidle; cbn [negb].
    + eapply IH; eassumption.
    + unfold js_bind in H.
      destruct (computeResponsiveness timestampsDiscrepancy perceptualBlend
                  url ue dv) as [[score|message] dv1];
        [|discriminate].
      apply IH in H. rewrite H, length_app. cbn. lia.
Qed.

(** C8: the per-expectation scorer throws on an Idle expectation and adds no
    value; the metric of a model is the metric of the model with its Idle
    expectations removed, so an Idle expectation yields no responsiveness
    value and no score; and the scores that enter the overall blend are as
    many as the expectations that are not Idle. *)
Theorem idle_expectations_are_excluded :
  (forall url ue dv,
     kind ue = IdleExpectation ->
     computeResponsiveness timestampsDiscrepancy perceptualBlend url ue dv
     = (Throw "Responsiveness is not defined for Idle", dv))
  /\ (forall model valueList,
        responsivenessMetric timestampsDiscrepancy perceptualBlend model
                             valueList
        = responsivenessMetric timestampsDiscrepancy perceptualBlend
            (mkModel (model_canonicalUrl model)
                     (filter nonIdle (expectations model)))
            valueList)
  /\ (forall model scores diagnosticValues,
        scoreExpectations timestampsDiscrepancy perceptualBlend
                          (model_canonicalUrl model) (expectations model)
                          [] []
        = (Ok scores, diagnosticValues) ->
        List.length scores
        = List.length (filter nonIdle (expectations model))).
Proof.
  repeat split.
  - intros url ue dv Hk.
    unfold computeResponsiveness, js_bind, js_throw. rewrite Hk. reflexivity.
  - intros model valueList. unfold responsivenessMetric.
    cbn [model_canonicalUrl expectations].
    rewrite scoreExpectations_skips_idle. reflexivity.
  - intros model scores dv H.
    apply scoreExpectations_scores_length in H. exact H.
Qed.

Section OverallValue.
Hypothesis perceptualBlend_positive : forall score, 0 < perceptualBlend score.

Lemma computeResponsiveness_scoreable url ue dv :
  canBeScored ue = true ->
  exists score dv',
    computeResponsiveness timestampsDiscrepancy perceptualBlend url ue dv
    = (Ok score, dv').
Proof.
  intros Hs. unfold canBeScored in Hs.
  unfold computeResponsiveness, js_bind, js_ret, addValue.
  destruct (kind ue) as [| |isAnimationBegin|frameEvents|] eqn:Hk;
    try discriminate.
  - cbn. eexists _, _. reflexivity.
  - cbn. eexists _, _. reflexivity.
  - unfold computeAnimationResponsiveness, js_bind, js_lift, js_ret, addValue,
      computeAnimationThroughput, computeAnimationSmoothness, frameEventsOf.
    rewrite Hk. apply negb_true_iff in Hs. rewrite Hs.
    destruct (weightedMean_defined perceptualBlend
                [clamp (1 - normalize
                   (duration ue / 1000 / inject_Z (Z.of_nat (frameCount ue)))
                   (1 / MAX_FPS) (1 / MIN_FPS)) 0 1;
                 clamp (1 - normalize
                   (timestampsDiscrepancy
                      match frameEvents with
                      | Some events => map frame_start events
                      | None => []
                      end false)
                   MIN_DISCREPANCY MAX_DISCREPANCY) 0 1]
                perceptualBlend_positive ltac:(discriminate)) as [mean Hmean].
    cbv zeta. rewrite Hmean. cbn. eexists _, _. reflexivity.
Qed.

Lemma scoreExpectations_scoreable url ues : forall scores dv,
  forallb canBeScored (filter nonIdle ues) = true ->
  exists scores' dv',
    scoreExpectations timestampsDiscrepancy perceptualBlend url ues scores dv
    = (Ok (scores ++ scores'), dv')
    /\ List.length scores' = List.length (filter nonIdle ues).
Proof.
  induction ues as [|ue rest IH]; intros scores dv Hall.
  - exists [], dv. rewrite app_nil_r. split; reflexivity.
  - cbn [scoreExpectations filter] in *. unfold nonIdle at 1 in Hall.
    unfold nonIdle at 1.
    destruct (isIdle ue) eqn:Hidle; cbn [negb] in *.
    + apply IH. assumption.
    + cbn [forallb] in Hall. apply andb_true_iff in Hall as [Hs Hall].
      destruct (computeResponsiveness_scoreable url ue dv Hs)
        as (score & dv1 & Hc).
      unfold js_bind. rewrite Hc.
      destruct (IH (scores ++ [score]) dv1 Hall) as (scores' & dv' & Hr & Hl).
      exists (score :: scores'), dv'. split.
      * rewrite Hr, <- app_assoc. reflexivity.
      * cbn. rewrite Hl. reflexivity.
Qed.

(** C9, amended: if the model holds no expectation other than Idle ones, the
    metric adds no value and throws nothing; if it holds at least one and
    each of them can be scored (a Load, a Response, or an Animation with
    frame events), the metric adds exactly one value, the overall
    "responsiveness" value without grouping keys; and whenever the metric
    throws, the caller's value list is left as it was.  The weights of the
    perceptual blend are positive. *)
Theorem overall_value_emission model valueList :
  (filter nonIdle (expectations model) = [] ->
   responsivenessMetric timestampsDiscrepancy perceptualBlend model valueList
   = (Ok tt, valueList))
  /\ (filter nonIdle (expectations model) <> [] ->
      forallb canBeScored (filter nonIdle (expectations model)) = true ->
      exists overall,
        responsivenessMetric timestampsDiscrepancy perceptualBlend model
                             valueList
        = (Ok tt, valueList ++ [overall])
        /\ value_name overall = "responsiveness"%string
        /\ value_groupingKeys overall = None)
  /\ (forall message valueList',
        responsivenessMetric timestampsDiscrepancy perceptualBlend model
                             valueList
        = (Throw message, valueList') ->
        valueList' = valueList).
Proof.
  split; [|split].
  - intros Hnone. unfold responsivenessMetric.
    rewrite scoreExpectations_skips_idle, Hnone. reflexivity.
  - intros Hsome Hall.
    destruct (scoreExpectations_scoreable (model_canonicalUrl model)
                (expectations model) [] [] Hall) as (scores & dv & Hr & Hl).
    unfold responsivenessMetric. rewrite Hr. cbn [List.app].
    assert (Hne : scores <> []).
    { intros ->. destruct (filter nonIdle (expectations model));
        [congruence|discriminate]. }
    destruct (weightedMean_defined perceptualBlend scores
                perceptualBlend_positive Hne) as [mean Hmean].
    rewrite Hmean. eexists. split; [reflexivity|]. split; reflexivity.
  - intros message valueList'. unfold responsivenessMetric.
    destruct (scoreExpectations _ _ _ _ _ _) as [[scores|m] dv].
    + destruct (weightedMean scores perceptualBlend); cbn; discriminate.
    + intros H. inversion H. reflexivity.
Qed.
End OverallValue.
End ResponsivenessProperties.

(** An Animation expectation without frame events, alone and in a model. *)
Lemma animation_without_frames_aborts_witness :
  computeAnimationThroughput animationWithoutFrames
  = Throw "Animation missing frameEvents AnimationExpectation2"
  /\ computeAnimationSmoothness sampleTimestampsDiscrepancy
                                animationWithoutFrames
     = Throw "Animation missing frameEvents AnimationExpectation2"
  /\ exists message,
       responsivenessMetric sampleTimestampsDiscrepancy samplePerceptualBlend
         (mkModel sampleUrl [sampleLoad; animationWithoutFrames]) []
       = (Throw message, []).
Proof.
  destruct (animation_without_frames_aborts
              sampleTimestampsDiscrepancy samplePerceptualBlend
              animationWithoutFrames None eq_refl (or_introl eq_refl))
    as (Ht & Hs & _ & Hm).
  split; [exact Ht|]. split; [exact Hs|].
  apply (Hm (mkModel sampleUrl [sampleLoad; animationWithoutFrames]) []).
  right. left. reflexivity.
Defined.

(** An Idle expectation given to the scorer. *)
Lemma idle_expectations_are_excluded_witness :
  computeResponsiveness sampleTimestampsDiscrepancy samplePerceptualBlend
                        sampleUrl sampleIdle []
  = (Throw "Responsiveness is not defined for Idle", [])
  /\ forall scores diagnosticValues,
       scoreExpectations sampleTimestampsDiscrepancy samplePerceptualBlend
                         sampleUrl [sampleIdle; sampleLoad; sampleIdle] [] []
       = (Ok scores, diagnosticValues) ->
       List.length scores = 1%nat.
Proof.
  destruct (idle_expectations_are_excluded
              sampleTimestampsDiscrepancy samplePerceptualBlend)
    as (Hthrow & _ & Hlen).
  split.
  - apply Hthrow. reflexivity.
  - intros scores diagnosticValues H.
    exact (Hlen (mkModel sampleUrl [sampleIdle; sampleLoad; sampleIdle])
                scores diagnosticValues H).
Defined.

(** C9, as stated, fails: a model whose only expectation is an Animation
    without frame events holds an expectation that is not Idle, yet the
    metric throws and adds no overall value. *)
Lemma overall_value_not_emitted_on_failure :
  ~ (forall (timestampsDiscrepancy : list Q -> bool -> Q)
            (perceptualBlend : Q -> Q),
        (forall score, 0 < perceptualBlend score) ->
        forall model valueList,
          (filter nonIdle (expectations model) = [] ->
           responsivenessMetric timestampsDiscrepancy perceptualBlend model
                                valueList
           = (Ok tt, valueList))
          /\ (filter nonIdle (expectations model) <> [] ->
              exists overall,
                responsivenessMetric timestampsDiscrepancy perceptualBlend
                                     model valueList
                = (Ok tt, valueList ++ [overall]))).
Proof.
  intros H.
  destruct (H sampleTimestampsDiscrepancy samplePerceptualBlend
              samplePerceptualBlend_positive
              (mkModel sampleUrl [animationWithoutFrames]) [])
    as [_ Hemit].
  destruct Hemit as [overall Hov]; [discriminate|].
  discriminate Hov.
Qed.

(** A model of Idle expectations only, and a model with one Load among Idle
    ones. *)
Lemma overall_value_emission_witness :
  responsivenessMetric sampleTimestampsDiscrepancy samplePerceptualBlend
                       (mkModel sampleUrl [sampleIdle; sampleIdle]) []
  = (Ok tt, [])
  /\ exists overall,
       responsivenessMetric sampleTimestampsDiscrepancy samplePerceptualBlend
                            (mkModel sampleUrl [sampleIdle; sampleLoad]) []
       = (Ok tt, [overall])
       /\ value_name overall = "responsiveness"%string
       /\ value_groupingKeys overall = None.
Proof.
  split.
  - destruct (overall_value_emission
                sampleTimestampsDiscrepancy samplePerceptualBlend
                samplePerceptualBlend_positive
                (mkModel sampleUrl [sampleIdle; sampleIdle]) [])
      as (Hnone & _ & _).
    apply Hnone. reflexivity.
  - destruct (overall_value_emission
                sampleTimestampsDiscrepancy samplePerceptualBlend
                samplePerceptualBlend_positive
                (mkModel sampleUrl [sampleIdle; sampleLoad]) [])
      as (_ & Hsome & _).
    apply Hsome; [discriminate|reflexivity].
Defined.

(** ** Dictionaries *)

Local Open Scope nat_scope.

Section DictFacts.
Variable V : Type.

Lemma dict_has_In (d : Dict V) k : dict_has d k = true -> In k (dict_keys d).
Proof.
  unfold dict_has. induction d as [|[k' v] rest IH]; cbn; [discriminate|].
  destruct (String.eqb k' k) eqn:E.
  - apply String.eqb_eq in E. intros _. left. assumption.
  - intros H. right. apply IH. assumption.
Qed.

Lemma dict_set_fresh (d : Dict V) k v :
  dict_has d k = false -> dict_set d k v = (d ++ [(k, v)])%list.
Proof.
  unfold dict_has. induction d as [|[k' v'] rest IH]; cbn; [reflexivity|].
  destruct (String.eqb k' k); [discriminate|].
  intros H. rewrite IH by assumption. reflexivity.
Qed.

Lemma dict_get_set_same (d : Dict V) k v : dict_get (dict_set d k v) k = Some v.
Proof.
  induction d as [|[k' v'] rest IH]; cbn.
  - rewrite String.eqb_refl. reflexivity.
  - destruct (String.eqb k' k) eqn:E; cbn; rewrite E; [reflexivity|apply IH].
Qed.

Lemma dict_get_set_other (d : Dict V) k k' v :
  k' <> k -> dict_get (dict_set d k v) k' = dict_get d k'.
Proof.
  intros Hne. induction d as [|[k0 v0] rest IH]; cbn.
  - destruct (String.eqb k k') eqn:E; [|reflexivity].
    apply String.eqb_eq in E. congruence.
  - destruct (String.eqb k0 k) eqn:E; cbn.
    + apply String.eqb_eq in E. subst k0.
      destruct (String.eqb k k') eqn:E'; [|reflexivity].
      apply String.eqb_eq in E'. congruence.
    + rewrite IH. reflexivity.
Qed.

Lemma dict_get_In_keys (d : Dict V) k v :
  dict_get d k = Some v -> In k (dict_keys d).
Proof.
  intros H. apply dict_has_In. unfold dict_has. rewrite H. reflexivity.
Qed.
End DictFacts.

(** ** Unique browser names *)

Lemma string_append_inj (s a b : string) :
  (s ++ a)%string = (s ++ b)%string -> a = b.
Proof.
  induction s as [|c s IH]; cbn; intros H; [assumption|].
  inversion H. apply IH. assumption.
Qed.

Lemma appendIndex_inj key a b : appendIndex key a = appendIndex key b -> a = b.
Proof.
  unfold appendIndex. intros H. apply string_append_inj in H.
  apply Unsigned.to_uint_inj.
  assert (E : Some (Nat.to_uint a) = Some (Nat.to_uint b)).
  { rewrite <- !NilEmpty.usu. rewrite H. reflexivity. }
  inversion E. reflexivity.
Qed.

Section UniqueKey.
Variable V : Type.
Variable map : Dict V.
Variable key : string.

Lemma uniqueKeyLoop_some fuel : forall uniqueKey nextIndex chosen,
  uniqueKeyLoop fuel map key uniqueKey nextIndex = Some chosen ->
  dict_has map chosen = false
  /\ (chosen = uniqueKey
      \/ (dict_has map uniqueKey = true
          /\ exists n, (nextIndex <= n)%nat /\ chosen = appendIndex key n
             /\ forall j, (nextIndex <= j < n)%nat ->
                          dict_has map (appendIndex key j) = true)).
Proof.
  induction fuel as [|fuel IH]; intros uniqueKey nextIndex chosen;
    cbn [uniqueKeyLoop]; destruct (dict_has map uniqueKey) eqn:Hhas;
    intros H; try discriminate.
  - inversion H; subst. split; [assumption|left; reflexivity].
  - apply IH in H. destruct H as (Hfree & [->|(Hused & n & Hn & -> & Hall)]).
    + split; [assumption|]. right. split; [reflexivity|].
      exists nextIndex. split; [lia|]. split; [reflexivity|]. intros j Hj. lia.
    + split; [assumption|]. right. split; [reflexivity|].
      exists n. split; [lia|]. split; [reflexivity|]. intros j Hj.
      destruct (Nat.eq_dec j nextIndex) as [->|Hne]; [assumption|].
      apply Hall. lia.
  - inversion H; subst. split; [assumption|left; reflexivity].
Qed.

Lemma uniqueKeyLoop_none fuel : forall uniqueKey nextIndex,
  uniqueKeyLoop fuel map key uniqueKey nextIndex = None ->
  forall j, (nextIndex <= j < nextIndex + fuel)%nat ->
            dict_has map (appendIndex key j) = true.
Proof.
  induction fuel as [|fuel IH]; intros uniqueKey nextIndex;
    cbn [uniqueKeyLoop]; destruct (dict_has map uniqueKey) eqn:Hhas;
    intros H j Hj; try discriminate; try lia.
  destruct (Nat.eq_dec j nextIndex) as [->|Hne].
  - destruct fuel; cbn [uniqueKeyLoop] in H;
      destruct (dict_has map (appendIndex key nextIndex)); congruence.
  - apply (IH _ _ H). lia.
Qed.

Lemma uniqueKeyLoop_terminates :
  exists chosen,
    uniqueKeyLoop (S (List.length map)) map key key 2 = Some chosen.
Proof.
  destruct (uniqueKeyLoop (S (List.length map)) map key key 2) as [chosen|]
    eqn:H; [exists chosen; reflexivity|exfalso].
  pose proof (uniqueKeyLoop_none _ _ _ H) as Hall.
  set (candidates := List.map (appendIndex key) (seq 2 (S (List.length map)))).
  assert (Hnodup : NoDup candidates).
  { apply Injective_map_NoDup; [|apply seq_NoDup].
    intros a b. apply appendIndex_inj. }
  assert (Hincl : incl candidates (dict_keys map)).
  { intros k Hk. apply in_map_iff in Hk as (j & <- & Hj).
    apply in_seq in Hj. apply dict_has_In. apply Hall. lia. }
  pose proof (NoDup_incl_length Hnodup Hincl) as Hlen.
  unfold candidates, dict_keys in Hlen.
  rewrite !length_map, length_seq in Hlen. lia.
Qed.
End UniqueKey.

(** C5: [makeKeyUniqueAndSet] adds the value under a key that the map did
    not hold, after the entries already there, which stay as they were; the
    key is the browser name itself when that is unused, and otherwise the
    name followed by the smallest integer n >= 2 for which the name followed
    by n is unused.  In particular two browsers that are both named "chrome"
    and whose dumps are split without an ownership clash get the groups
    "chrome" and "chrome2", in that order, followed at most by the "unknown"
    group. *)
Theorem makeKeyUniqueAndSet_assigns_smallest_suffix :
  (forall (V : Type) (map : Dict V) (key : string) (value : V),
     let uniqueKey := uniqueKeyFor map key in
     makeKeyUniqueAndSet map key value = (map ++ [(uniqueKey, value)])%list
     /\ dict_has map uniqueKey = false
     /\ (dict_has map key = false -> uniqueKey = key)
     /\ (dict_has map key = true ->
         exists n, (2 <= n)%nat /\ uniqueKey = appendIndex key n
           /\ forall j, (2 <= j < n)%nat ->
                        dict_has map (appendIndex key j) = true))
  /\ (forall first second globalDumps browserNameToGlobalDumps,
        browserName first = "chrome"%string ->
        browserName second = "chrome"%string ->
        splitGlobalDumpsByBrowserName
          (mkMemoryModel (Some [first; second]) globalDumps)
        = Ok browserNameToGlobalDumps ->
        exists rest,
          browserNameToGlobalDumps
          = ("chrome"%string, helper_globalDumps first)
            :: ("chrome2"%string, helper_globalDumps second) :: rest
          /\ (rest = [] \/ exists unclassified,
                rest = [("unknown"%string, unclassified)])).
Proof.
  split.
  - intros V map key value uniqueKey.
    destruct (uniqueKeyLoop_terminates V map key) as [chosen Hloop].
    assert (Hkey : uniqueKey = chosen)
      by (unfold uniqueKey, uniqueKeyFor; rewrite Hloop; reflexivity).
    rewrite Hkey.
    destruct (uniqueKeyLoop_some V map key _ _ _ _ Hloop) as (Hfree & Hshape).
    split; [|split; [assumption|split]].
    + unfold makeKeyUniqueAndSet. fold uniqueKey. rewrite Hkey.
      apply dict_set_fresh. assumption.
    + intros Hunused. destruct Hshape as [->|(Hused & _)];
        [reflexivity|congruence].
    + intros Hused. destruct Hshape as [->|(_ & n & Hn & -> & Hall)].
      * congruence.
      * exists n. repeat split; assumption.
  - intros first second globalDumps m Hfirst Hsecond.
    unfold splitGlobalDumpsByBrowserName.
    cbn [chromeModelHelper classifyBrowsers globalMemoryDumps].
    rewrite Hfirst, Hsecond.
    destruct (claimGlobalDumps first (helper_globalDumps first) [])
      as [owners1|] eqn:H1; cbn [result_bind]; [|discriminate].
    destruct (claimGlobalDumps second (helper_globalDumps second) owners1)
      as [owners2|] eqn:H2; cbn [result_bind fst snd]; [|discriminate].
    change (makeKeyUniqueAndSet
              (makeKeyUniqueAndSet [] "chrome" (helper_globalDumps first))
              "chrome" (helper_globalDumps second))
      with [("chrome"%string, helper_globalDumps first);
            ("chrome2"%string, helper_globalDumps second)].
    destruct (Nat.ltb 0 _); intros H; inversion H; subst.
    + eexists. split; [reflexivity|]. right. eexists. reflexivity.
    + eexists. split; [reflexivity|]. left. reflexivity.
Qed.

(** A map that holds "chrome" and "chrome2", and two browsers named
    "chrome". *)
Lemma makeKeyUniqueAndSet_assigns_smallest_suffix_witness :
  (exists n, 2 <= n
     /\ uniqueKeyFor sampleBrowserDumps "chrome" = appendIndex "chrome" n
     /\ forall j, 2 <= j < n ->
                  dict_has sampleBrowserDumps (appendIndex "chrome" j) = true)
  /\ exists rest,
       splitGlobalDumpsByBrowserName sampleMemoryModel
       = Ok (("chrome"%string, [sampleGlobalDump 1])
             :: ("chrome2"%string, [sampleGlobalDump 2]) :: rest).
Proof.
  destruct makeKeyUniqueAndSet_assigns_smallest_suffix as [Hkey Hsplit].
  split.
  - pose proof (Hkey nat sampleBrowserDumps "chrome"%string 3) as H.
    cbv zeta in H. destruct H as (_ & _ & _ & Hused).
    apply Hused. reflexivity.
  - destruct (Hsplit (mkHelper 100 "chrome" [sampleGlobalDump 1])
                     (mkHelper 200 "chrome" [sampleGlobalDump 2])
                     [sampleGlobalDump 1; sampleGlobalDump 2;
                      sampleGlobalDump 3]
                     [("chrome"%string, [sampleGlobalDump 1]);
                      ("chrome2"%string, [sampleGlobalDump 2]);
                      ("unknown"%string, [sampleGlobalDump 3])]
                     eq_refl eq_refl eq_refl) as (rest & Hrest & _).
    exists rest. exact (f_equal Ok Hrest).
Defined.

(** ** Process-name groups *)

(** C2: the code does not collapse the spaces of a process name.  Its
    [replace(' ', '_')] has a string for its pattern and so turns only the
    first space into an underscore: the key of "GPU Process Host" is
    "gpu_process host", which still holds a space and is neither the name in
    lower case with every space turned into an underscore nor the name in
    lower case without its spaces.  A process of that name is therefore not
    grouped with a process named "gpu_process_host". *)
Lemma processNameKey_not_space_collapsed :
  processNameKey (Some "GPU Process Host"%string) = "gpu_process host"%string
  /\ In " "%char
        (list_ascii_of_string
           (processNameKey (Some "GPU Process Host"%string)))
  /\ processNameKey (Some "GPU Process Host"%string)
     <> "gpu_process_host"%string
  /\ processNameKey (Some "GPU Process Host"%string)
     <> "gpuprocesshost"%string
  /\ calculatePerProcessNameMemoryDumpValues
       [mkGlobalDump 1 (Some DETAILED)
          [sampleProcessDump (Some "GPU Process Host"%string);
           sampleProcessDump (Some "gpu_process_host"%string)]]
       (generalProcessDumpValueExtractor "size")
     = Ok [[("gpu_process host"%string,
             [("process_count"%string,
               mkScalar unitlessNumber_smallerIsBetter 1)]);
            ("gpu_process_host"%string,
             [("process_count"%string,
               mkScalar unitlessNumber_smallerIsBetter 1)])]].
Proof.
  split; [reflexivity|]. split.
  - vm_compute. do 11 right. left. reflexivity.
  - split; [vm_compute; discriminate|].
    split; [vm_compute; discriminate | reflexivity].
Qed.

(** ** Unit agreement *)

Lemma Unit_eqb_eq u v : Unit_eqb u v = true <-> u = v.
Proof. destruct u, v; cbn; split; congruence. Qed.

Lemma Unit_eqb_neq u v : u <> v -> Unit_eqb u v = false.
Proof.
  intros H. destruct (Unit_eqb u v) eqn:E; [|reflexivity].
  apply Unit_eqb_eq in E. congruence.
Qed.

Lemma addProcessScalar_keeps_unit processName d name u name' scalar d' :
  holdsUnit d name u ->
  addProcessScalar processName d name' scalar = Ok d' ->
  holdsUnit d' name u.
Proof.
  intros (sum & Hget & Hu) H. unfold addProcessScalar in H.
  destruct scalar as [s|]; [|inversion H; subst; exists sum; auto].
  destruct (String.eqb name' name) eqn:E.
  - apply String.eqb_eq in E. subst name'. rewrite Hget in H.
    destruct (Unit_eqb (scalar_unit s) (scalar_unit sum)); [|discriminate].
    inversion H; subst. eexists. rewrite dict_get_set_same.
    split; reflexivity.
  - assert (Hne : name <> name')
      by (intros ->; rewrite String.eqb_refl in E; discriminate).
    destruct (dict_get d name') as [sum'|].
    + destruct (Unit_eqb (scalar_unit s) (scalar_unit sum')); [|discriminate].
      inversion H; subst. exists sum.
      rewrite dict_get_set_other by assumption. auto.
    + inversion H; subst. exists sum.
      rewrite dict_get_set_other by assumption. auto.
Qed.

Lemma addProcessScalar_records_unit processName d name scalar d' :
  addProcessScalar processName d name (Some scalar) = Ok d' ->
  holdsUnit d' name (scalar_unit scalar).
Proof.
  unfold addProcessScalar. intros H.
  destruct (dict_get d name) as [sum|].
  - destruct (Unit_eqb (scalar_unit scalar) (scalar_unit sum)) eqn:E;
      [|discriminate].
    apply Unit_eqb_eq in E. inversion H; subst. eexists.
    rewrite dict_get_set_same. split; [reflexivity|]. cbn. congruence.
  - inversion H; subst. eexists. rewrite dict_get_set_same.
    split; reflexivity.
Qed.

Lemma addProcessScalar_mismatch processName d name u scalar :
  holdsUnit d name u -> scalar_unit scalar <> u ->
  exists message,
    addProcessScalar processName d name (Some scalar) = Throw message.
Proof.
  intros (sum & Hget & Hu) Hne. unfold addProcessScalar. rewrite Hget.
  rewrite Unit_eqb_neq by congruence. eexists. reflexivity.
Qed.

Lemma addProcessScalars_app processName calls1 : forall d calls2,
  addProcessScalars processName d (calls1 ++ calls2)
  = result_bind (addProcessScalars processName d calls1)
                (fun d' => addProcessScalars processName d' calls2).
Proof.
  induction calls1 as [|[name scalar] rest IH]; intros d calls2; cbn;
    [reflexivity|].
  destruct (addProcessScalar processName d name scalar); cbn;
    [apply IH|reflexivity].
Qed.

Lemma addProcessScalars_keeps_unit processName name u calls : forall d d',
  holdsUnit d name u ->
  addProcessScalars processName d calls = Ok d' ->
  holdsUnit d' name u.
Proof.
  induction calls as [|[name' scalar] rest IH]; intros d d' Hd H; cbn in H.
  - inversion H; subst. assumption.
  - destruct (addProcessScalar processName d name' scalar) as [d1|] eqn:E;
      cbn in H; [|discriminate].
    eapply IH; [|eassumption].
    eapply addProcessScalar_keeps_unit; eassumption.
Qed.

(** A call with a scalar of another unit than the one recorded makes the
    sequence of calls throw. *)
Lemma addProcessScalars_mismatch processName name u scalar calls : forall d,
  holdsUnit d name u -> In (name, Some scalar) calls ->
  scalar_unit scalar <> u ->
  exists message, addProcessScalars processName d calls = Throw message.
Proof.
  induction calls as [|[name' scalar'] rest IH]; intros d Hd Hin Hne;
    [destruct Hin|].
  cbn [addProcessScalars].
  destruct (addProcessScalar processName d name' scalar') as [d1|message] eqn:E.
  - destruct Hin as [Heq|Hin].
    + inversion Heq; subst.
      destruct (addProcessScalar_mismatch processName d name u scalar Hd Hne)
        as [m Hm]. congruence.
    + cbn [result_bind]. apply IH; [|assumption|assumption].
      eapply addProcessScalar_keeps_unit; eassumption.
  - exists message. reflexivity.
Qed.

(** After a successful sequence of calls, the unit of every defined scalar
    that was added is the one recorded under its name. *)
Lemma addProcessScalars_records_unit processName name scalar calls :
  forall d d',
  In (name, Some scalar) calls ->
  addProcessScalars processName d calls = Ok d' ->
  holdsUnit d' name (scalar_unit scalar).
Proof.
  induction calls as [|[name' scalar'] rest IH]; intros d d' Hin H;
    [destruct Hin|].
  cbn [addProcessScalars] in H.
  destruct (addProcessScalar processName d name' scalar') as [d1|] eqn:E;
    cbn [result_bind] in H; [|discriminate].
  destruct Hin as [Heq|Hin].
  - inversion Heq; subst.
    eapply addProcessScalars_keeps_unit; [|eassumption].
    eapply addProcessScalar_records_unit; eassumption.
  - eapply IH; eassumption.
Qed.

Lemma addProcessDump_keeps_unit extractor acc acc' processDump pn name u :
  groupHoldsUnit acc pn name u ->
  addProcessDump extractor acc processDump = Ok acc' ->
  groupHoldsUnit acc' pn name u.
Proof.
  intros (group & Hget & Hu) H. unfold addProcessDump in H.
  set (key := processNameKey (process_name processDump)) in *.
  destruct (String.eqb key pn) eqn:E.
  - apply String.eqb_eq in E. rewrite E in *. rewrite Hget in H.
    cbn [fst snd] in H.
    destruct (addProcessScalars pn group (extractor processDump))
      as [group'|] eqn:Hs; cbn [result_bind] in H; [|discriminate].
    inversion H; subst. exists group'. rewrite dict_get_set_same.
    split; [reflexivity|].
    eapply addProcessScalars_keeps_unit; eassumption.
  - assert (Hne : pn <> key)
      by (intros ->; rewrite String.eqb_refl in E; discriminate).
    destruct (dict_get acc key) as [other|]; cbn [fst snd] in H.
    + destruct (addProcessScalars key other (extractor processDump))
        as [other'|]; cbn [result_bind] in H; [|discriminate].
      inversion H; subst. exists group.
      rewrite dict_get_set_other by assumption. auto.
    + destruct (addProcessScalars key [] (extractor processDump))
        as [other'|]; cbn [result_bind] in H; [|discriminate].
      inversion H; subst. exists group.
      rewrite !dict_get_set_other by assumption. auto.
Qed.

Lemma addProcessDump_records_unit extractor acc acc' processDump name scalar :
  In (name, Some scalar) (extractor processDump) ->
  addProcessDump extractor acc processDump = Ok acc' ->
  groupHoldsUnit acc' (processNameKey (process_name processDump)) name
                 (scalar_unit scalar).
Proof.
  intros Hin H. unfold addProcessDump in H.
  set (key := processNameKey (process_name processDump)) in *.
  destruct (addProcessScalars key _ (extractor processDump))
    as [group'|] eqn:Hs; cbn [result_bind] in H; [|discriminate].
  inversion H; subst. exists group'. rewrite dict_get_set_same.
  split; [reflexivity|].
  eapply addProcessScalars_records_unit; eassumption.
Qed.

Lemma addProcessDump_mismatch extractor acc processDump name u scalar :
  groupHoldsUnit acc (processNameKey (process_name processDump)) name u ->
  In (name, Some scalar) (extractor processDump) ->
  scalar_unit scalar <> u ->
  exists message, addProcessDump extractor acc processDump = Throw message.
Proof.
  intros (group & Hget & Hu) Hin Hne. unfold addProcessDump.
  rewrite Hget. cbn [fst snd].
  destruct (addProcessScalars_mismatch
              (processNameKey (process_name processDump)) name u scalar
              (extractor processDump) group Hu Hin Hne) as [m Hm].
  rewrite Hm. exists m. reflexivity.
Qed.

Lemma addProcessDumps_mismatch extractor name u scalar later dumps :
  forall acc,
  groupHoldsUnit acc (processNameKey (process_name later)) name u ->
  In later dumps ->
  In (name, Some scalar) (extractor later) ->
  scalar_unit scalar <> u ->
  exists message, addProcessDumps extractor acc dumps = Throw message.
Proof.
  induction dumps as [|processDump rest IH]; intros acc Hacc Hin Hcall Hne;
    [destruct Hin|].
  cbn [addProcessDumps].
  destruct (addProcessDump extractor acc processDump) as [acc1|message] eqn:E.
  - cbn [result_bind]. destruct Hin as [->|Hin].
    + destruct (addProcessDump_mismatch extractor acc later name u scalar
                  Hacc Hcall Hne) as [m Hm]. congruence.
    + apply IH; [|assumption|assumption|assumption].
      eapply addProcessDump_keeps_unit; eassumption.
  - exists message. reflexivity.
Qed.

Lemma addProcessDumps_app extractor dumps1 : forall acc dumps2,
  addProcessDumps extractor acc (dumps1 ++ dumps2)
  = result_bind (addProcessDumps extractor acc dumps1)
                (fun acc' => addProcessDumps extractor acc' dumps2).
Proof.
  induction dumps1 as [|processDump rest IH]; intros acc dumps2; cbn;
    [reflexivity|].
  destruct (addProcessDump extractor acc processDump); cbn;
    [apply IH|reflexivity].
Qed.

Lemma firstSeenKeys_seen keys : forall seen k,
  In k seen -> In k (firstSeenKeys seen keys).
Proof.
  induction keys as [|k' rest IH]; intros seen k Hin; cbn; [assumption|].
  destruct (existsb (String.eqb k') seen); apply IH; [assumption|].
  apply in_or_app. left. assumption.
Qed.

Lemma firstSeenKeys_complete keys : forall seen k,
  In k keys -> In k (firstSeenKeys seen keys).
Proof.
  induction keys as [|k' rest IH]; intros seen k Hin; [destruct Hin|].
  cbn. destruct Hin as [->|Hin].
  - destruct (existsb (String.eqb k) seen) eqn:E.
    + apply firstSeenKeys_seen. apply existsb_exists in E as (x & Hx & Hxk).
      apply String.eqb_eq in Hxk. subst x. assumption.
    + apply firstSeenKeys_seen. apply in_or_app. right. left. reflexivity.
  - destruct (existsb (String.eqb k') seen); apply IH; assumption.
Qed.

Lemma sumScalars_mismatch valueName unit scalar perProcessScalars :
  forall accumulator,
  In (Some scalar) perProcessScalars -> scalar_unit scalar <> unit ->
  exists message,
    sumScalars valueName unit perProcessScalars accumulator = Throw message.
Proof.
  induction perProcessScalars as [|[s|] rest IH]; intros acc Hin Hne;
    [destruct Hin| |].
  - cbn [sumScalars]. destruct (Unit_eqb (scalar_unit s) unit) eqn:E.
    + destruct Hin as [Heq|Hin].
      * inversion Heq; subst. apply Unit_eqb_eq in E. congruence.
      * apply IH; assumption.
    + eexists. reflexivity.
  - cbn [sumScalars]. destruct Hin as [Heq|Hin]; [discriminate|].
    apply IH; assumption.
Qed.

Lemma findFirstInArray_some (V : Type) (v : V) ary :
  In (Some v) ary -> exists first, findFirstInArray ary = Some first.
Proof.
  induction ary as [|[x|] rest IH]; intros Hin; [destruct Hin| |].
  - exists x. reflexivity.
  - destruct Hin as [Heq|Hin]; [discriminate|]. apply IH. assumption.
Qed.

Lemma totalScalar_mismatch valueName a b perProcessScalars :
  In (Some a) perProcessScalars -> In (Some b) perProcessScalars ->
  scalar_unit a <> scalar_unit b ->
  exists message, totalScalar valueName perProcessScalars = Throw message.
Proof.
  intros Ha Hb Hne. unfold totalScalar.
  destruct (findFirstInArray_some _ a perProcessScalars Ha) as [first Hfirst].
  rewrite Hfirst.
  assert (Hdiff : scalar_unit a <> scalar_unit first
                  \/ scalar_unit b <> scalar_unit first).
  { destruct (Unit_eqb (scalar_unit a) (scalar_unit first)) eqn:E.
    - apply Unit_eqb_eq in E. right. congruence.
    - left. intros Heq. apply Unit_eqb_eq in Heq. congruence. }
  destruct Hdiff as [Hd|Hd].
  - destruct (sumScalars_mismatch valueName (scalar_unit first) a
                perProcessScalars 0%Z Ha Hd) as [m Hm].
    rewrite Hm. exists m. reflexivity.
  - destruct (sumScalars_mismatch valueName (scalar_unit first) b
                perProcessScalars 0%Z Hb Hd) as [m Hm].
    rewrite Hm. exists m. reflexivity.
Qed.

Lemma mapItems_throws (A B : Type) (f : string -> A -> result B) k a d :
  In (k, a) d -> (exists message, f k a = Throw message) ->
  exists message, mapItems d f = Throw message.
Proof.
  intros Hin [m Hm]. induction d as [|[k' a'] rest IH]; [destruct Hin|].
  cbn [mapItems]. destruct Hin as [Heq|Hin].
  - inversion Heq; subst. rewrite Hm. exists m. reflexivity.
  - destruct (f k' a') as [b|m']; [|exists m'; reflexivity].
    cbn [result_bind]. destruct (IH Hin) as [m'' Hm'']. rewrite Hm''.
    exists m''. reflexivity.
Qed.

Lemma injectTotals_mismatch processNameToValueNameToScalar group1 group2
    valueName a b :
  In group1 (dictionaryValues processNameToValueNameToScalar) ->
  In group2 (dictionaryValues processNameToValueNameToScalar) ->
  dict_get group1 valueName = Some a ->
  dict_get group2 valueName = Some b ->
  scalar_unit a <> scalar_unit b ->
  exists message, injectTotals processNameToValueNameToScalar = Throw message.
Proof.
  intros H1 H2 Ha Hb Hne. unfold injectTotals.
  set (array := dictionaryValues processNameToValueNameToScalar) in *.
  set (scalars := List.map (fun dict => dict_get dict valueName) array).
  assert (Hin : In (valueName, scalars) (invertArrayOfDicts array)).
  { unfold invertArrayOfDicts. apply in_map_iff. exists valueName.
    split; [reflexivity|]. apply firstSeenKeys_complete.
    apply in_flat_map. exists group1. split; [assumption|].
    eapply dict_get_In_keys; eassumption. }
  assert (Hthrow : exists message,
             totalScalar valueName scalars = Throw message).
  { apply totalScalar_mismatch with (a := a) (b := b); [| |assumption].
    - unfold scalars. rewrite <- Ha.
      apply in_map with (f := fun dict => dict_get dict valueName).
      assumption.
    - unfold scalars. rewrite <- Hb.
      apply in_map with (f := fun dict => dict_get dict valueName).
      assumption. }
  destruct (mapItems_throws _ _ totalScalar valueName scalars _ Hin Hthrow)
    as [m Hm].
  rewrite Hm. exists m. reflexivity.
Qed.

Lemma mapResult_throws (A B : Type) (f : A -> result B) a l :
  In a l -> (exists message, f a = Throw message) ->
  exists message, mapResult f l = Throw message.
Proof.
  intros Hin [m Hm]. induction l as [|a' rest IH]; [destruct Hin|].
  cbn [mapResult]. destruct Hin as [->|Hin].
  - rewrite Hm. exists m. reflexivity.
  - destruct (f a') as [b|m']; [|exists m'; reflexivity].
    cbn [result_bind]. destruct (IH Hin) as [m'' Hm'']. rewrite Hm''.
    exists m''. reflexivity.
Qed.

Lemma mapResult_Forall2 (A B : Type) (f : A -> result B) l : forall r,
  mapResult f l = Ok r -> Forall2 (fun a b => f a = Ok b) l r.
Proof.
  induction l as [|a rest IH]; intros r H; cbn [mapResult] in H.
  - inversion H. constructor.
  - destruct (f a) as [b|] eqn:E; cbn [result_bind] in H; [|discriminate].
    destruct (mapResult f rest) as [bs|]; cbn [result_bind] in H;
      [|discriminate].
    inversion H; subst. constructor; [assumption|]. apply IH. reflexivity.
Qed.




Lemma addProcessDumps_throws extractor processDump dumps :
  In processDump dumps ->
  (forall acc, exists message,
     addProcessDump extractor acc processDump = Throw message) ->
  forall acc, exists message,
    addProcessDumps extractor acc dumps = Throw message.
Proof.
  intros Hin Hthrow.
  induction dumps as [|processDump' rest IH]; intros acc; [destruct Hin|].
  cbn [addProcessDumps].
  destruct (addProcessDump extractor acc processDump') as [acc1|m] eqn:E;
    [|exists m; reflexivity].
  cbn [result_bind]. destruct Hin as [->|Hin].
  - destruct (Hthrow acc) as [m Hm]. congruence.
  - apply IH. assumption.
Qed.

Lemma addProcessScalars_two_calls_mismatch
    processName d calls1 calls2 calls3 name a b :
  scalar_unit a <> scalar_unit b ->
  exists message,
    addProcessScalars processName d
      (calls1 ++ (name, Some a) :: calls2 ++ (name, Some b) :: calls3)
    = Throw message.
Proof.
  intros Hne. rewrite addProcessScalars_app.
  destruct (addProcessScalars processName d calls1) as [d1|m];
    [|exists m; reflexivity].
  cbn [result_bind addProcessScalars].
  destruct (addProcessScalar processName d1 name (Some a)) as [d2|m] eqn:E;
    [|exists m; reflexivity].
  cbn [result_bind].
  apply addProcessScalars_mismatch
    with (name := name) (u := scalar_unit a) (scalar := b).
  - eapply addProcessScalar_records_unit; eassumption.
  - apply in_or_app. right. left. reflexivity.
  - congruence.
Qed.

Lemma addProcessDumps_two_dumps_mismatch
    extractor dumps1 earlier dumps2 later dumps3 acc name a b :
  processNameKey (process_name earlier)
  = processNameKey (process_name later) ->
  In (name, Some a) (extractor earlier) ->
  In (name, Some b) (extractor later) ->
  scalar_unit a <> scalar_unit b ->
  exists message,
    addProcessDumps extractor acc
      (dumps1 ++ earlier :: dumps2 ++ later :: dumps3)
    = Throw message.
Proof.
  intros Hkey Ha Hb Hne. rewrite addProcessDumps_app.
  destruct (addProcessDumps extractor acc dumps1) as [acc1|m];
    [|exists m; reflexivity].
  cbn [result_bind addProcessDumps].
  destruct (addProcessDump extractor acc1 earlier) as [acc2|m] eqn:E;
    [|exists m; reflexivity].
  cbn [result_bind].
  apply addProcessDumps_mismatch
    with (name := name) (u := scalar_unit a) (scalar := b) (later := later).
  - rewrite <- Hkey. eapply addProcessDump_records_unit; eassumption.
  - apply in_or_app. right. left. reflexivity.
  - assumption.
  - congruence.
Qed.

(** C6: summing two scalars under one value name throws when their units
    differ.  The per-process-name sums of a list of global dumps throw when
    two process dumps of one group of a dump report the value name with
    different units, and when one process dump reports it twice with
    different units; the totals of "all" processes throw when two groups of
    a timestamp hold the value name with different units.  In particular a
    size in bytes and a unitless number under one value name throw the
    "Multiple units provided" error in both stages. *)
Theorem unit_mismatch_raises :
  (forall extractor globalDumps globalDump dumps1 earlier dumps2 later dumps3
          name a b,
     In globalDump globalDumps ->
     processMemoryDumps globalDump
     = (dumps1 ++ earlier :: dumps2 ++ later :: dumps3)%list ->
     processNameKey (process_name earlier)
     = processNameKey (process_name later) ->
     In (name, Some a) (extractor earlier) ->
     In (name, Some b) (extractor later) ->
     scalar_unit a <> scalar_unit b ->
     exists message,
       calculatePerProcessNameMemoryDumpValues globalDumps extractor
       = Throw message)
  /\ (forall extractor globalDumps globalDump processDump calls1 calls2 calls3
             name a b,
        In globalDump globalDumps ->
        In processDump (processMemoryDumps globalDump) ->
        extractor processDump
        = (calls1 ++ (name, Some a) :: calls2 ++ (name, Some b) :: calls3)%list
        ->
        scalar_unit a <> scalar_unit b ->
        exists message,
          calculatePerProcessNameMemoryDumpValues globalDumps extractor
          = Throw message)
  /\ (forall timeToProcessNameToValueNameToScalar
             processNameToValueNameToScalar group1 group2 valueName a b,
        In processNameToValueNameToScalar
           timeToProcessNameToValueNameToScalar ->
        In group1 (dictionaryValues processNameToValueNameToScalar) ->
        In group2 (dictionaryValues processNameToValueNameToScalar) ->
        dict_get group1 valueName = Some a ->
        dict_get group2 valueName = Some b ->
        scalar_unit a <> scalar_unit b ->
        exists message,
          injectTotalsIntoPerProcessNameMemoryDumpValues
            timeToProcessNameToValueNameToScalar
          = Throw message)
  /\ addProcessScalars "browser" []
       [("x"%string, Some (mkScalar sizeInBytes_smallerIsBetter 1));
        ("x"%string, Some (mkScalar unitlessNumber_smallerIsBetter 1))]
     = Throw "Multiple units provided for value 'x' of 'browser' processes: sizeInBytes_smallerIsBetter and unitlessNumber_smallerIsBetter"
  /\ injectTotals
       [("browser"%string,
         [("x"%string, mkScalar sizeInBytes_smallerIsBetter 1)]);
        ("renderer"%string,
         [("x"%string, mkScalar unitlessNumber_smallerIsBetter 1)])]
     = Throw "Multiple units provided for value 'x' of different processes: sizeInBytes_smallerIsBetter and unitlessNumber_smallerIsBetter".
Proof.
  split; [|split; [|split; [|split]]].
  - intros extractor globalDumps globalDump dumps1 earlier dumps2 later dumps3
           name a b Hin Hdumps Hkey Ha Hb Hne.
    unfold calculatePerProcessNameMemoryDumpValues.
    apply mapResult_throws with (a := globalDump); [assumption|].
    rewrite Hdumps.
    apply addProcessDumps_two_dumps_mismatch with name a b; assumption.
  - intros extractor globalDumps globalDump processDump calls1 calls2 calls3
           name a b Hin Hpd Hcalls Hne.
    unfold calculatePerProcessNameMemoryDumpValues.
    apply mapResult_throws with (a := globalDump); [assumption|].
    apply addProcessDumps_throws with processDump; [assumption|].
    intros acc. unfold addProcessDump. rewrite Hcalls.
    destruct (addProcessScalars_two_calls_mismatch
                (processNameKey (process_name processDump))
                (snd match dict_get acc
                             (processNameKey (process_name processDump)) with
                     | Some valueNameToScalar => (acc, valueNameToScalar)
                     | None =>
                         (dict_set acc
                            (processNameKey (process_name processDump)) [],
                          [])
                     end)
                calls1 calls2 calls3 name a b Hne) as [m Hm].
    rewrite Hm. exists m. reflexivity.
  - intros time groups group1 group2 valueName a b Hin H1 H2 Ha Hb Hne.
    unfold injectTotalsIntoPerProcessNameMemoryDumpValues.
    apply mapResult_throws with (a := groups); [assumption|].
    apply injectTotals_mismatch with group1 group2 valueName a b; assumption.
  - reflexivity.
  - reflexivity.
Qed.

(** Bytes and a unitless number under the name "x": in two process dumps of
    the group "browser", in one run of calls, and in two groups. *)
Lemma unit_mismatch_raises_witness :
  (exists message,
     calculatePerProcessNameMemoryDumpValues [sampleGlobalDump 1]
                                             sampleExtractorByName
     = Throw message)
  /\ (exists message,
        calculatePerProcessNameMemoryDumpValues [sampleGlobalDump 1]
                                                sampleExtractorTwice
        = Throw message)
  /\ (exists message,
        injectTotalsIntoPerProcessNameMemoryDumpValues
          [[("browser"%string,
             [("x"%string, mkScalar sizeInBytes_smallerIsBetter 1)]);
            ("renderer"%string,
             [("x"%string, mkScalar unitlessNumber_smallerIsBetter 1)])]]
        = Throw message).
Proof.
  destruct unit_mismatch_raises as (Hdumps & Hcalls & Htotals & _ & _).
  split; [|split].
  - apply (Hdumps sampleExtractorByName
                  [sampleGlobalDump 1] (sampleGlobalDump 1)
                  [] (sampleProcessDump (Some "Browser"%string))
                  [] (sampleProcessDump (Some "browser"%string)) []
                  "x"%string
                  (mkScalar sizeInBytes_smallerIsBetter 1)
                  (mkScalar unitlessNumber_smallerIsBetter 1)).
    + left. reflexivity.
    + reflexivity.
    + reflexivity.
    + left. reflexivity.
    + left. reflexivity.
    + discriminate.
  - apply (Hcalls sampleExtractorTwice
                  [sampleGlobalDump 1] (sampleGlobalDump 1)
                  (sampleProcessDump (Some "Browser"%string))
                  [] [("y"%string, None)] []
                  "x"%string
                  (mkScalar sizeInBytes_smallerIsBetter 1)
                  (mkScalar unitlessNumber_smallerIsBetter 1)).
    + left. reflexivity.
    + left. reflexivity.
    + reflexivity.
    + discriminate.
  - apply (Htotals
             [[("browser"%string,
                [("x"%string, mkScalar sizeInBytes_smallerIsBetter 1)]);
               ("renderer"%string,
                [("x"%string, mkScalar unitlessNumber_smallerIsBetter 1)])]]
             [("browser"%string,
               [("x"%string, mkScalar sizeInBytes_smallerIsBetter 1)]);
              ("renderer"%string,
               [("x"%string, mkScalar unitlessNumber_smallerIsBetter 1)])]
             [("x"%string, mkScalar sizeInBytes_smallerIsBetter 1)]
             [("x"%string, mkScalar unitlessNumber_smallerIsBetter 1)]
             "x"%string
             (mkScalar sizeInBytes_smallerIsBetter 1)
             (mkScalar unitlessNumber_smallerIsBetter 1)).
    + left. reflexivity.
    + left. reflexivity.
    + right. left. reflexivity.
    + reflexivity.
    + reflexivity.
    + discriminate.
Defined.


(** ** Detailed VM statistics *)

Section DictForall.
Variable V : Type.
Variable P : V -> Prop.


End DictForall.











(** * Further properties *)

(** ** Animation smoothness and throughput *)

Local Open Scope Q_scope.

Lemma clamp_monotone x y : x <= y -> clamp x 0 1 <= clamp y 0 1.
Proof.
  intros H. unfold clamp.
  apply Q.min_le_compat_r. apply Q.max_le_compat_r. assumption.
Qed.

Lemma clamp_inside x : 0 <= x -> x <= 1 -> clamp x 0 1 == x.
Proof.
  intros H0 H1. unfold clamp.
  rewrite Q.max_l by assumption. apply Q.min_l. assumption.
Qed.

Section Smoothness.
Variable timestampsDiscrepancy : list Q -> bool -> Q.

(** X1: for an Animation expectation with at least one frame event,
    [computeAnimationSmoothness] returns a score in [0, 1] that is 1 when the
    discrepancy of the frame timestamps is at most 0.05, 0 when it is at
    least 0.3, and falls linearly in between,
    (0.3 - discrepancy) / (0.3 - 0.05). *)
Theorem animation_smoothness_score ae frames :
  kind ae = AnimationExpectation (Some frames) -> frames <> [] ->
  exists smoothness,
    computeAnimationSmoothness timestampsDiscrepancy ae = Ok smoothness
    /\ (0 <= smoothness /\ smoothness <= 1)
    /\ (timestampsDiscrepancy (map frame_start frames) false
        <= MIN_DISCREPANCY -> smoothness == 1)
    /\ (MAX_DISCREPANCY
        <= timestampsDiscrepancy (map frame_start frames) false ->
        smoothness == 0)
    /\ (MIN_DISCREPANCY
        <= timestampsDiscrepancy (map frame_start frames) false ->
        timestampsDiscrepancy (map frame_start frames) false
        <= MAX_DISCREPANCY ->
        smoothness
        == (MAX_DISCREPANCY
            - timestampsDiscrepancy (map frame_start frames) false)
           / (MAX_DISCREPANCY - MIN_DISCREPANCY)).
Proof.
  intros Hk Hne.
  unfold computeAnimationSmoothness, frameEventsOf. rewrite Hk.
  destruct frames as [|f rest]; [congruence|].
  cbn [missingFrameEvents List.length Nat.eqb].
  set (d := timestampsDiscrepancy (map frame_start (f :: rest)) false).
  assert (Hpos : 0 < MAX_DISCREPANCY - MIN_DISCREPANCY)
    by (vm_compute; reflexivity).
  eexists. split; [reflexivity|]. split; [apply clamp_unit_interval|].
  cbv zeta. unfold normalize.
  split; [|split].
  - intros Hd. apply clamp_above.
    assert (E : (d - MIN_DISCREPANCY) / (MAX_DISCREPANCY - MIN_DISCREPANCY)
                <= 0).
    { apply Qle_shift_div_r; [assumption|]. lra. }
    lra.
  - intros Hd. apply clamp_below.
    assert (E : 1 <= (d - MIN_DISCREPANCY)
                     / (MAX_DISCREPANCY - MIN_DISCREPANCY)).
    { apply Qle_shift_div_l; [assumption|]. lra. }
    lra.
  - intros Hlo Hhi.
    assert (E0 : 0 <= (d - MIN_DISCREPANCY)
                      / (MAX_DISCREPANCY - MIN_DISCREPANCY)).
    { apply Qle_shift_div_l; [assumption|]. lra. }
    assert (E1 : (d - MIN_DISCREPANCY) / (MAX_DISCREPANCY - MIN_DISCREPANCY)
                 <= 1).
    { apply Qle_shift_div_r; [assumption|]. lra. }
    rewrite clamp_inside by lra.
    field. intros Hz. rewrite Hz in Hpos. discriminate Hpos.
Qed.
End Smoothness.

(** A discrepancy of 0.1 gives the smoothness 0.8. *)
Lemma animation_smoothness_score_witness :
  exists smoothness,
    computeAnimationSmoothness sampleTimestampsDiscrepancy animationAt60Fps
    = Ok smoothness
    /\ smoothness == 4 # 5.
Proof.
  destruct (animation_smoothness_score sampleTimestampsDiscrepancy
              animationAt60Fps sampleFrames)
    as (smoothness & Hc & _ & _ & _ & Hmid); [reflexivity|discriminate|].
  exists smoothness. split; [exact Hc|].
  rewrite Hmid.
  - vm_compute. reflexivity.
  - vm_compute. intro; discriminate.
  - vm_compute. intro; discriminate.
Defined.

(** X2: of two Animation expectations with the same frame events, the one
    that lasts longer never has the higher throughput score. *)
Theorem animation_throughput_antitone shorter longer frames :
  kind shorter = AnimationExpectation (Some frames) ->
  kind longer = AnimationExpectation (Some frames) ->
  frames <> [] ->
  duration shorter <= duration longer ->
  exists high low,
    computeAnimationThroughput shorter = Ok high
    /\ computeAnimationThroughput longer = Ok low
    /\ low <= high.
Proof.
  intros Hs Hl Hne Hd.
  pose proof (frameCount_positive frames Hne) as Hn.
  unfold computeAnimationThroughput, frameCount, frameEventsOf.
  rewrite Hs, Hl. cbn [missingFrameEvents].
  destruct frames as [|f rest]; [congruence|].
  cbn [List.length Nat.eqb] in *.
  set (n := inject_Z (Z.of_nat (S (List.length rest)))) in *.
  eexists _, _. split; [reflexivity|]. split; [reflexivity|].
  apply clamp_monotone.
  assert (Havg : duration shorter / 1000 / n <= duration longer / 1000 / n).
  { unfold Qdiv. apply Qmult_le_compat_r.
    - apply Qmult_le_compat_r; [assumption|].
      vm_compute; intro; discriminate.
    - apply Qlt_le_weak, Qinv_lt_0_compat. assumption. }
  pose proof (normalize_mono _ _ (1 / MAX_FPS) (1 / MIN_FPS)
                ltac:(vm_compute; reflexivity) Havg).
  lra.
Qed.

(** Three frames in 50 ms and in 600 ms. *)
Lemma animation_throughput_antitone_witness :
  exists high low,
    computeAnimationThroughput animationAt60Fps = Ok high
    /\ computeAnimationThroughput animationAt5Fps = Ok low
    /\ low <= high.
Proof.
  apply (animation_throughput_antitone animationAt60Fps animationAt5Fps
                                       sampleFrames).
  - reflexivity.
  - reflexivity.
  - discriminate.
  - vm_compute. intro; discriminate.
Defined.

(** ** The scoring engine *)

Lemma weighted_sums_bounds (weightCallback : Q -> Q) lo hi :
  (forall s, 0 < weightCallback s) ->
  forall ary numerator denominator,
  (forall v, In v ary -> lo <= v /\ v <= hi) ->
  lo * denominator <= numerator -> numerator <= hi * denominator ->
  lo * fold_left (fun acc v => acc + weightCallback v) ary denominator
  <= fold_left (fun acc v => acc + weightCallback v * v) ary numerator
  /\ fold_left (fun acc v => acc + weightCallback v * v) ary numerator
     <= hi * fold_left (fun acc v => acc + weightCallback v) ary denominator.
Proof.
  intros Hpos. induction ary as [|v rest IH];
    intros numerator denominator Hin Hlo Hhi; cbn [fold_left].
  - split; assumption.
  - destruct (Hin v (or_introl eq_refl)) as [Hv0 Hv1].
    specialize (Hpos v).
    apply IH.
    + intros x Hx. apply Hin. right. assumption.
    + nra.
    + nra.
Qed.

Lemma weightedMean_bounds (weightCallback : Q -> Q) lo hi ary mean :
  (forall s, 0 < weightCallback s) ->
  (forall v, In v ary -> lo <= v /\ v <= hi) ->
  weightedMean ary weightCallback = Some mean ->
  lo <= mean /\ mean <= hi.
Proof.
  intros Hpos Hin. unfold weightedMean.
  destruct (Qeq_dec _ 0) as [Hz|Hnz]; [discriminate|].
  intros H. inversion H; subst. clear H.
  destruct ary as [|v rest]; [exfalso; apply Hnz; reflexivity|].
  pose proof (sum_weights_positive weightCallback Hpos rest
                (0 + weightCallback v)) as Hden.
  pose proof (Hpos v) as Hv.
  assert (H0 : 0 < 0 + weightCallback v) by lra.
  specialize (Hden H0).
  destruct (weighted_sums_bounds weightCallback lo hi Hpos (v :: rest) 0 0 Hin)
    as [Hlo Hhi]; [lra|lra|].
  cbn [fold_left] in *.
  split.
  - apply Qle_shift_div_l; assumption.
  - apply Qle_shift_div_r; assumption.
Qed.

Lemma computeDurationResponsiveness_unit_interval h d :
  In h scoringTables ->
  0 <= computeDurationResponsiveness h d
  /\ computeDurationResponsiveness h d <= 1.
Proof.
  intros Hin. pose proof (scoringTables_wf h Hin) as W.
  unfold computeDurationResponsiveness.
  rewrite (scoringTables_maxCount h Hin).
  destruct (getInterpolatedCountAt_bounds h d W) as [L U].
  rewrite (scoringTables_overflowCount h Hin) in L.
  rewrite (scoringTables_underflowCount h Hin) in U.
  split.
  - apply Qle_shift_div_l; [reflexivity|lra].
  - apply Qle_shift_div_r; [reflexivity|lra].
Qed.

Section ResponsivenessEngine.
Variable timestampsDiscrepancy : list Q -> bool -> Q.
Variable perceptualBlend : Q -> Q.


Lemma computeResponsiveness_appends url ue dv score dv' :
  computeResponsiveness timestampsDiscrepancy perceptualBlend url ue dv
  = (Ok score, dv') ->
  exists earlier description,
    dv' = dv ++ earlier
             ++ [mkValue url "responsiveness" score description
                   (Some (groupingKeysForUserExpectation ue)) []]
    /\ filter (isNamed "responsiveness") earlier = []
    /\ List.length earlier = (if isAnimation ue then 2 else 0)%nat.
Proof.
  unfold computeResponsiveness, isAnimation, js_bind, js_ret, js_throw,
    addValue.
  destruct (kind ue) as [| |isAnimationBegin|frameEvents|] eqn:Hk;
    cbn [fst snd]; intros H; try discriminate.
  - inversion H; subst. eexists [], _. repeat split; reflexivity.
  - inversion H; subst. eexists [], _. repeat split; reflexivity.
  - revert H.
    unfold computeAnimationResponsiveness, js_bind, js_lift, js_ret, addValue.
    destruct (computeAnimationThroughput ue) as [t|]; [|discriminate].
    destruct (computeAnimationSmoothness timestampsDiscrepancy ue) as [s|];
      [|discriminate].
    cbn [fst snd].
    destruct (weightedMean [t; s] perceptualBlend) as [blend|];
      [|discriminate].
    intros H. inversion H; subst.
    eexists [_; _], _. rewrite <- !app_assoc. cbn [List.app].
    repeat split; reflexivity.
Qed.

Lemma computeResponsiveness_keeps url ue dv outcome dv' :
  computeResponsiveness timestampsDiscrepancy perceptualBlend url ue dv
  = (outcome, dv') ->
  exists added, dv' = dv ++ added.
Proof.
  destruct outcome as [score|message]; intros H.
  - destruct (computeResponsiveness_appends url ue dv score dv' H)
      as (earlier & description & -> & _). eexists. reflexivity.
  - revert H.
    unfold computeResponsiveness, js_bind, js_ret, js_throw, addValue.
    destruct (kind ue) as [| |isAnimationBegin|frameEvents|] eqn:Hk;
      cbn [fst snd]; intros H; try discriminate;
      try (inversion H; subst; exists []; rewrite app_nil_r; reflexivity).
    revert H.
    unfold computeAnimationResponsiveness, js_bind, js_lift, js_ret, addValue.
    destruct (computeAnimationThroughput ue) as [t|];
      [|intros H; inversion H; subst; exists []; rewrite app_nil_r;
        reflexivity].
    destruct (computeAnimationSmoothness timestampsDiscrepancy ue) as [s|];
      [|intros H; inversion H; subst; eexists; reflexivity].
    cbn [fst snd].
    destruct (weightedMean [t; s] perceptualBlend) as [blend|];
      [discriminate|].
    intros H. inversion H; subst. rewrite <- app_assoc.
    eexists. reflexivity.
Qed.

(** X4: when [computeResponsiveness] returns a score it has appended, after
    everything the list held, the two animation sub-scores (for an Animation
    expectation, none otherwise) and last one value named responsiveness
    that carries the returned score and the grouping keys of the
    expectation; when it throws, what the list held is still there. *)
Theorem computeResponsiveness_appends_scored_value url ue dv :
  (forall score dv',
     computeResponsiveness timestampsDiscrepancy perceptualBlend url ue dv
     = (Ok score, dv') ->
     exists earlier description,
       dv' = dv ++ earlier
                ++ [mkValue url "responsiveness" score description
                      (Some (groupingKeysForUserExpectation ue)) []]
       /\ filter (isNamed "responsiveness") earlier = []
       /\ List.length earlier = (if isAnimation ue then 2 else 0)%nat)
  /\ (forall message dv',
        computeResponsiveness timestampsDiscrepancy perceptualBlend url ue dv
        = (Throw message, dv') ->
        exists added, dv' = dv ++ added).
Proof.
  split.
  - intros score dv'. apply computeResponsiveness_appends.
  - intros message dv'. apply computeResponsiveness_keeps.
Qed.


Lemma scoringError_none ue :
  scoringError ue = None -> isIdle ue = true \/ canBeScored ue = true.
Proof.
  unfold scoringError, isIdle, canBeScored.
  destruct (kind ue) as [| |b|frameEvents|]; intros H;
    try (left; reflexivity); try (right; reflexivity); try discriminate.
  destruct (missingFrameEvents frameEvents); [discriminate|].
  right. reflexivity.
Qed.

Lemma scoringError_some ue message :
  scoringError ue = Some message -> isIdle ue = false.
Proof.
  unfold scoringError, isIdle.
  destruct (kind ue); intros H; try discriminate; reflexivity.
Qed.


Lemma scoreExpectations_app url pre : forall rest scores dv,
  scoreExpectations timestampsDiscrepancy perceptualBlend url (pre ++ rest)
                    scores dv
  = match scoreExpectations timestampsDiscrepancy perceptualBlend url pre
                            scores dv with
    | (Ok scores', dv') =>
        scoreExpectations timestampsDiscrepancy perceptualBlend url rest
                          scores' dv'
    | (Throw message, dv') => (Throw message, dv')
    end.
Proof.
  induction pre as [|ue pre IH]; intros rest scores dv; [reflexivity|].
  cbn [List.app scoreExpectations].
  destruct (isIdle ue); [apply IH|].
  unfold js_bind.
  destruct (computeResponsiveness timestampsDiscrepancy perceptualBlend url
              ue dv) as [[score|message] dv1]; [apply IH|reflexivity].
Qed.

Lemma computeResponsiveness_scoringError url ue message dv :
  scoringError ue = Some message ->
  exists dv',
    computeResponsiveness timestampsDiscrepancy perceptualBlend url ue dv
    = (Throw message, dv').
Proof.
  unfold scoringError. intros H.
  destruct (kind ue) as [| |b|frameEvents|] eqn:Hk; try discriminate.
  - destruct (missingFrameEvents frameEvents) eqn:Hm; [|discriminate].
    inversion H; subst. exists dv.
    apply computeResponsiveness_missing_frames with frameEvents; assumption.
  - inversion H; subst. exists dv.
    unfold computeResponsiveness, js_bind, js_throw. rewrite Hk. reflexivity.
Qed.

(** X5: when every expectation before the first one that cannot be scored
    is Idle or can be scored, [responsivenessMetric] throws the error of that
    first one (missing frame events, or an unrecognized stage) and leaves
    the value list of the caller as it was, whatever follows it. *)
Theorem first_failing_expectation_decides_error
    model earlier failing later message valueList :
  (forall score, 0 < perceptualBlend score) ->
  expectations model = (earlier ++ failing :: later)%list ->
  (forall ue, In ue earlier -> scoringError ue = None) ->
  scoringError failing = Some message ->
  responsivenessMetric timestampsDiscrepancy perceptualBlend model valueList
  = (Throw message, valueList).
Proof.
  intros Hpos Hexp Hearlier Hfail.
  assert (Hall : forallb canBeScored (filter nonIdle earlier) = true).
  { apply forallb_forall. intros ue Hin. apply filter_In in Hin as [Hin Hni].
    destruct (scoringError_none ue (Hearlier ue Hin)) as [Hi|Hs];
      [|assumption].
    unfold nonIdle in Hni. rewrite Hi in Hni. discriminate. }
  destruct (scoreExpectations_scoreable timestampsDiscrepancy perceptualBlend
              Hpos (model_canonicalUrl model) earlier [] [] Hall)
    as (scores & dv & Hok & _).
  destruct (computeResponsiveness_scoringError (model_canonicalUrl model)
              failing message dv Hfail) as [dv' Hthrow].
  unfold responsivenessMetric.
  rewrite Hexp, scoreExpectations_app, Hok.
  cbn [scoreExpectations]. rewrite (scoringError_some failing message Hfail).
  unfold js_bind. rewrite Hthrow. reflexivity.
Qed.

Lemma scoreExpectations_diagnostics url ues : forall scores dv scores' dv',
  scoreExpectations timestampsDiscrepancy perceptualBlend url ues scores dv
  = (Ok scores', dv') ->
  exists added,
    dv' = (dv ++ added)%list
    /\ map value_stableId (filter (isNamed "responsiveness") added)
       = map (fun ue => Some (stableId ue)) (filter nonIdle ues)
    /\ scores'
       = (scores
          ++ map value_score (filter (isNamed "responsiveness") added))%list
    /\ List.length added
       = (List.length (filter nonIdle ues)
          + 2 * List.length (filter isAnimation ues))%nat.
Proof.
  induction ues as [|ue rest IH]; intros scores dv scores' dv' H.
  - cbn in H. inversion H; subst. exists [].
    rewrite !app_nil_r. repeat split; reflexivity.
  - cbn [scoreExpectations] in H. cbn [filter].
    change (nonIdle ue) with (negb (isIdle ue)).
    destruct (isIdle ue) eqn:Hidle; cbn [negb].
    + destruct (IH _ _ _ _ H) as (added & -> & Hids & -> & Hlen).
      exists added. split; [reflexivity|]. split; [assumption|].
      split; [reflexivity|].
      assert (Hna : isAnimation ue = false).
      { unfold isIdle in Hidle. unfold isAnimation.
        destruct (kind ue); try discriminate; reflexivity. }
      rewrite Hna. exact Hlen.
    + unfold js_bind in H.
      destruct (computeResponsiveness timestampsDiscrepancy perceptualBlend
                  url ue dv) as [[score|message] dv1] eqn:Hc; [|discriminate].
      destruct (computeResponsiveness_appends url ue dv score dv1 Hc)
        as (before & description & -> & Hnone & Hbefore).
      destruct (IH _ _ _ _ H) as (added & -> & Hids & -> & Hlen).
      eexists (before ++ _ :: added)%list.
      split; [rewrite <- !app_assoc; reflexivity|].
      rewrite !filter_app, Hnone. cbn [List.app filter].
      change (isNamed "responsiveness"
                (mkValue url "responsiveness" score description
                   (Some (groupingKeysForUserExpectation ue)) []))
        with true.
      cbn [map List.app].
      split; [f_equal; assumption|].
      split; [rewrite <- app_assoc; reflexivity|].
      rewrite length_app. cbn [List.length]. rewrite Hbefore, Hlen.
      destruct (isAnimation ue); cbn [List.length]; lia.
Qed.

(** X6: when [responsivenessMetric] succeeds it either adds nothing or adds
    one overall value whose diagnostics hold, in the order of the model, one
    responsiveness value for every non-Idle expectation (with its stable id)
    and two more values for every Animation expectation, and whose score is
    the weighted mean of the scores of those responsiveness values. *)
Theorem overall_diagnostics_follow_expectations model valueList valueList' :
  responsivenessMetric timestampsDiscrepancy perceptualBlend model valueList
  = (Ok tt, valueList') ->
  valueList' = valueList
  \/ exists overall,
       valueList' = (valueList ++ [overall])%list
       /\ map value_stableId
              (filter (isNamed "responsiveness") (value_diagnostics overall))
          = map (fun ue => Some (stableId ue))
                (filter nonIdle (expectations model))
       /\ List.length (value_diagnostics overall)
          = (List.length (filter nonIdle (expectations model))
             + 2 * List.length (filter isAnimation (expectations model)))%nat
       /\ weightedMean
            (map value_score
                 (filter (isNamed "responsiveness")
                         (value_diagnostics overall)))
            perceptualBlend
          = Some (value_score overall).
Proof.
  unfold responsivenessMetric.
  destruct (scoreExpectations _ _ _ _ _ _) as [[scores|m] dv] eqn:Hs;
    [|discriminate].
  destruct (scoreExpectations_diagnostics _ _ _ _ _ _ Hs)
    as (added & Hdv & Hids & Hscores & Hlen).
  cbn [List.app] in Hdv, Hscores. subst dv scores.
  destruct (weightedMean _ perceptualBlend) as [overallScore|] eqn:Hmean.
  - unfold addValue. intros H. inversion H; subst. right.
    eexists. split; [reflexivity|]. cbn [value_diagnostics value_score].
    repeat split; assumption.
  - intros H. inversion H. left. reflexivity.
Qed.

Lemma computeResponsiveness_unit_scores url ue dv score dv' :
  (forall score, 0 < perceptualBlend score) ->
  computeResponsiveness timestampsDiscrepancy perceptualBlend url ue dv
  = (Ok score, dv') ->
  (0 <= score /\ score <= 1)
  /\ exists added, dv' = (dv ++ added)%list /\ Forall hasUnitScore added.
Proof.
  intros perceptualBlend_positive.
  unfold computeResponsiveness, js_bind, js_ret, js_throw, addValue.
  destruct (kind ue) as [| |isAnimationBegin|frameEvents|] eqn:Hk;
    cbn [fst snd]; intros H; try discriminate.
  - inversion H; subst.
    assert (Hb := computeDurationResponsiveness_unit_interval
                    LOAD_HISTOGRAM (duration ue)
                    (or_intror (or_intror (or_introl eq_refl)))).
    split; [assumption|]. eexists [_]. split; [reflexivity|].
    constructor; [exact Hb | constructor].
  - inversion H; subst.
    assert (Hb : 0 <= computeDurationResponsiveness
                        (if isAnimationBegin then FAST_RESPONSE_HISTOGRAM
                         else RESPONSE_HISTOGRAM) (duration ue)
                 /\ computeDurationResponsiveness
                      (if isAnimationBegin then FAST_RESPONSE_HISTOGRAM
                       else RESPONSE_HISTOGRAM) (duration ue) <= 1).
    { apply computeDurationResponsiveness_unit_interval.
      destruct isAnimationBegin; [right; left | left]; reflexivity. }
    split; [assumption|]. eexists [_]. split; [reflexivity|].
    constructor; [exact Hb | constructor].
  - revert H.
    unfold computeAnimationResponsiveness, js_bind, js_lift, js_ret, addValue,
      computeAnimationThroughput, computeAnimationSmoothness.
    destruct (missingFrameEvents (frameEventsOf ue)); [discriminate|].
    cbv zeta. cbn [fst snd].
    set (t := clamp _ 0 1). set (s := clamp _ 0 1).
    destruct (weightedMean [t; s] perceptualBlend) as [blend|] eqn:Hmean;
      [|discriminate].
    intros H. inversion H; subst.
    assert (Hb : 0 <= score /\ score <= 1).
    { apply (weightedMean_bounds perceptualBlend 0 1 [t; s] score
               perceptualBlend_positive); [|assumption].
      intros v [<-|[<-|[]]]; apply clamp_unit_interval. }
    split; [assumption|]. eexists [_; _; _].
    split; [rewrite <- !app_assoc; reflexivity|].
    repeat constructor; try apply clamp_unit_interval; apply Hb.
Qed.

Lemma scoreExpectations_unit_scores url ues :
  (forall score, 0 < perceptualBlend score) ->
  forall scores dv scores' dv',
  scoreExpectations timestampsDiscrepancy perceptualBlend url ues scores dv
  = (Ok scores', dv') ->
  exists added, dv' = (dv ++ added)%list /\ Forall hasUnitScore added.
Proof.
  intros perceptualBlend_positive.
  induction ues as [|ue rest IH]; intros scores dv scores' dv' H.
  - cbn in H. inversion H; subst. exists [].
    split; [symmetry; apply app_nil_r | constructor].
  - cbn [scoreExpectations] in H.
    destruct (isIdle ue); [apply (IH _ _ _ _ H)|].
    unfold js_bind in H.
    destruct (computeResponsiveness timestampsDiscrepancy perceptualBlend
                url ue dv) as [[score|message] dv1] eqn:Hc; [|discriminate].
    destruct (computeResponsiveness_unit_scores url ue dv score dv1
                perceptualBlend_positive Hc)
      as (_ & added1 & -> & Hadded1).
    destruct (IH _ _ _ _ H) as (added2 & -> & Hadded2).
    exists (added1 ++ added2)%list. split; [symmetry; apply app_assoc|].
    apply Forall_app. split; assumption.
Qed.

(** X7: with positive blend weights, the overall responsiveness score lies
    between 0 and 1, and so does the score of every value in its
    diagnostics: the responsiveness of each expectation and the throughput
    and smoothness of each animation. *)
Theorem overall_score_in_unit_interval model valueList overall :
  (forall score, 0 < perceptualBlend score) ->
  responsivenessMetric timestampsDiscrepancy perceptualBlend model valueList
  = (Ok tt, (valueList ++ [overall])%list) ->
  (0 <= value_score overall /\ value_score overall <= 1)
  /\ Forall (fun v => 0 <= value_score v /\ value_score v <= 1)
            (value_diagnostics overall).
Proof.
  intros perceptualBlend_positive. unfold responsivenessMetric.
  destruct (scoreExpectations _ _ _ _ _ _) as [[scores|m] dv] eqn:Hs;
    [|discriminate].
  destruct (scoreExpectations_diagnostics _ _ _ _ _ _ Hs)
    as (added & Hdv & _ & Hscores & _).
  destruct (scoreExpectations_unit_scores _ _ perceptualBlend_positive
              _ _ _ _ Hs)
    as (added' & Hdv' & Hunit).
  cbn [List.app] in Hdv, Hdv', Hscores. subst dv scores added'.
  destruct (weightedMean _ perceptualBlend) as [overallScore|] eqn:Hmean.
  - unfold addValue. intros H. inversion H as [Hlist].
    apply app_inv_head in Hlist. inversion Hlist; subst overall.
    cbn [value_score value_diagnostics]. split; [|exact Hunit].
    apply (weightedMean_bounds perceptualBlend 0 1 _ _
             perceptualBlend_positive) in Hmean; [assumption|].
    intros v Hin. apply in_map_iff in Hin as (x & <- & Hx).
    apply filter_In in Hx as [Hx _].
    rewrite Forall_forall in Hunit. apply Hunit. assumption.
  - intros H. inversion H as [Hlist]. exfalso.
    apply (f_equal (@List.length _)) in Hlist.
    rewrite length_app in Hlist. cbn in Hlist. lia.
Qed.
End ResponsivenessEngine.


(** A Load expectation is scored with one value; an Animation without frame
    events throws and adds nothing. *)
Lemma computeResponsiveness_appends_scored_value_witness :
  (exists score description,
     computeResponsiveness sampleTimestampsDiscrepancy samplePerceptualBlend
                           sampleUrl sampleLoad []
     = (Ok score,
        [mkValue sampleUrl "responsiveness" score description
           (Some (groupingKeysForUserExpectation sampleLoad)) []]))
  /\ (exists message added,
        computeResponsiveness sampleTimestampsDiscrepancy samplePerceptualBlend
                              sampleUrl animationWithoutFrames []
        = (Throw message, [] ++ added)).
Proof.
  split.
  - destruct (computeResponsiveness
                sampleTimestampsDiscrepancy samplePerceptualBlend
                sampleUrl sampleLoad []) as [[score|message] dv'] eqn:Hrun.
    + destruct (computeResponsiveness_appends_scored_value
                  sampleTimestampsDiscrepancy samplePerceptualBlend
                  sampleUrl sampleLoad []) as [Hscored _].
      destruct (Hscored score dv' Hrun)
        as (earlier & description & -> & _ & Hlength).
      destruct earlier as [|v earlier]; [|discriminate Hlength].
      exists score, description. reflexivity.
    + vm_compute in Hrun. discriminate Hrun.
  - destruct (computeResponsiveness
                sampleTimestampsDiscrepancy samplePerceptualBlend
                sampleUrl animationWithoutFrames [])
      as [[score|message] dv'] eqn:Hrun.
    + vm_compute in Hrun. discriminate Hrun.
    + destruct (computeResponsiveness_appends_scored_value
                  sampleTimestampsDiscrepancy samplePerceptualBlend
                  sampleUrl animationWithoutFrames []) as [_ Hthrown].
      destruct (Hthrown message dv' Hrun) as (added & ->).
      exists message, added. reflexivity.
Defined.

(** The Animation without frame events decides the error, not the
    unrecognized expectation after it. *)
Lemma first_failing_expectation_decides_error_witness :
  responsivenessMetric
    sampleTimestampsDiscrepancy samplePerceptualBlend
    (mkModel sampleUrl [sampleIdle; sampleLoad; animationWithoutFrames;
                        sampleOther])
    []
  = (Throw "Animation missing frameEvents AnimationExpectation2", []).
Proof.
  apply (first_failing_expectation_decides_error
           sampleTimestampsDiscrepancy samplePerceptualBlend
           (mkModel sampleUrl [sampleIdle; sampleLoad; animationWithoutFrames;
                               sampleOther])
           [sampleIdle; sampleLoad] animationWithoutFrames [sampleOther]).
  - exact samplePerceptualBlend_positive.
  - reflexivity.
  - intros ue [<-|[<-|[]]]; reflexivity.
  - reflexivity.
Defined.

(** An Idle, a Load and a 60 fps Animation expectation. *)
Lemma overall_diagnostics_follow_expectations_witness :
  exists overall,
    snd (responsivenessMetric
           sampleTimestampsDiscrepancy samplePerceptualBlend
           (mkModel sampleUrl [sampleIdle; sampleLoad; animationAt60Fps]) [])
    = [overall]
    /\ map value_stableId
           (filter (isNamed "responsiveness") (value_diagnostics overall))
       = [Some "LoadExpectation0"%string; Some "AnimationExpectation0"%string]
    /\ List.length (value_diagnostics overall) = 4%nat.
Proof.
  destruct (responsivenessMetric
              sampleTimestampsDiscrepancy samplePerceptualBlend
              (mkModel sampleUrl [sampleIdle; sampleLoad; animationAt60Fps])
              []) as [[[]|message] valueList'] eqn:Hrun.
  - destruct (overall_diagnostics_follow_expectations
                sampleTimestampsDiscrepancy samplePerceptualBlend
                _ _ _ Hrun)
      as [->|(overall & -> & Hids & Hlength & _)].
    + vm_compute in Hrun. discriminate Hrun.
    + exists overall. split; [reflexivity|]. split; assumption.
  - vm_compute in Hrun. discriminate Hrun.
Defined.

(** The overall score of an Idle and a Load expectation. *)
Lemma overall_score_in_unit_interval_witness :
  exists overall,
    responsivenessMetric
      sampleTimestampsDiscrepancy samplePerceptualBlend
      (mkModel sampleUrl [sampleIdle; sampleLoad]) []
    = (Ok tt, [overall])
    /\ 0 <= value_score overall /\ value_score overall <= 1.
Proof.
  destruct (responsivenessMetric
              sampleTimestampsDiscrepancy samplePerceptualBlend
              (mkModel sampleUrl [sampleIdle; sampleLoad]) [])
    as [[[]|message] [|overall [|v rest]]] eqn:Hrun;
    try (vm_compute in Hrun; discriminate Hrun).
  exists overall. split; [reflexivity|].
  apply (overall_score_in_unit_interval
           sampleTimestampsDiscrepancy samplePerceptualBlend
           (mkModel sampleUrl [sampleIdle; sampleLoad]) [] overall).
  - exact samplePerceptualBlend_positive.
  - exact Hrun.
Defined.

(** ** Sorting the expectations of a user model *)

Lemma insertByStart_permutation x sorted :
  Permutation (x :: sorted) (insertByStart x sorted).
Proof.
  induction sorted as [|y rest IH]; cbn [insertByStart]; [reflexivity|].
  destruct (Qle_bool (ue_start x) (ue_start y)); [reflexivity|].
  rewrite perm_swap. apply perm_skip. assumption.
Qed.

Lemma insertByStart_sorted x sorted :
  StronglySorted startsNoLater sorted ->
  StronglySorted startsNoLater (insertByStart x sorted).
Proof.
  induction sorted as [|y rest IH]; intros Hs; cbn [insertByStart].
  - constructor; constructor.
  - inversion Hs as [|? ? Hrest Hall]; subst.
    destruct (Qle_bool (ue_start x) (ue_start y)) eqn:E.
    + apply Qle_bool_iff in E. constructor; [assumption|].
      constructor; [assumption|].
      eapply Forall_impl; [|exact Hall].
      intros z Hz. unfold startsNoLater in *. lra.
    + assert (Hyx : ue_start y <= ue_start x).
      { destruct (Qlt_le_dec (ue_start y) (ue_start x)) as [Hlt|Hle];
          [lra|].
        apply Qle_bool_iff in Hle. congruence. }
      constructor; [apply IH; assumption|].
      apply (Permutation_Forall (insertByStart_permutation x rest)).
      constructor; assumption.
Qed.

(** X8: [sortExpectations] keeps every expectation, as often as it occurs,
    and leaves the expectations ordered by start time: none starts later
    than one that follows it. *)
Theorem sortExpectations_sorted_permutation expectations_ :
  Permutation expectations_ (sortExpectations expectations_)
  /\ StronglySorted startsNoLater (sortExpectations expectations_).
Proof.
  unfold sortExpectations.
  induction expectations_ as [|x rest [IHp IHs]]; cbn [fold_right].
  - split; constructor.
  - split.
    + rewrite <- insertByStart_permutation. apply perm_skip. assumption.
    + apply insertByStart_sorted. assumption.
Qed.

(** ** Unique keys and the split by browser *)

Local Open Scope nat_scope.

Section DictMore.
Variable V : Type.

Lemma dict_has_iff_In (d : Dict V) k :
  dict_has d k = true <-> In k (dict_keys d).
Proof.
  split; [apply dict_has_In|].
  unfold dict_has. induction d as [|[k' v] rest IH]; cbn; [intros []|].
  destruct (String.eqb k' k) eqn:E; [reflexivity|].
  intros [H|H]; [|apply IH; assumption].
  subst. rewrite String.eqb_refl in E. discriminate.
Qed.

Lemma dict_get_app_fresh (d : Dict V) k v k' :
  dict_has d k' = true ->
  dict_get (d ++ [(k, v)]) k' = dict_get d k'.
Proof.
  unfold dict_has. induction d as [|[k0 v0] rest IH]; cbn; [discriminate|].
  destruct (String.eqb k0 k'); [reflexivity|]. apply IH.
Qed.

Lemma uniqueKeyFor_spec (map : Dict V) key :
  dict_has map (uniqueKeyFor map key) = false
  /\ (dict_has map key = false -> uniqueKeyFor map key = key)
  /\ (dict_has map key = true ->
      exists n, 2 <= n /\ uniqueKeyFor map key = appendIndex key n
        /\ forall j, 2 <= j < n -> dict_has map (appendIndex key j) = true).
Proof.
  destruct (uniqueKeyLoop_terminates V map key) as [chosen Hloop].
  assert (Hkey : uniqueKeyFor map key = chosen)
    by (unfold uniqueKeyFor; rewrite Hloop; reflexivity).
  rewrite Hkey.
  destruct (uniqueKeyLoop_some V map key _ _ _ _ Hloop) as (Hfree & Hshape).
  split; [assumption|]. split.
  - intros Hunused. destruct Hshape as [->|(Hused & _)];
      [reflexivity|congruence].
  - intros Hused. destruct Hshape as [->|(_ & n & Hn & -> & Hall)];
      [congruence|].
    exists n. repeat split; assumption.
Qed.

Lemma makeKeyUniqueAndSet_app (map : Dict V) key value :
  makeKeyUniqueAndSet map key value
  = (map ++ [(uniqueKeyFor map key, value)])%list.
Proof.
  unfold makeKeyUniqueAndSet. apply dict_set_fresh.
  apply uniqueKeyFor_spec.
Qed.

Lemma makeKeyUniqueAndSet_NoDup (map : Dict V) key value :
  NoDup (dict_keys map) ->
  NoDup (dict_keys (makeKeyUniqueAndSet map key value)).
Proof.
  destruct (uniqueKeyFor_spec map key) as (Hfree & _ & _).
  intros Hnodup. rewrite makeKeyUniqueAndSet_app.
  unfold dict_keys. rewrite map_app. cbn [List.map fst].
  apply NoDup_app_remove_l with (l := []). cbn [List.app].
  apply Permutation.Permutation_NoDup
    with (l := uniqueKeyFor map key :: List.map fst map).
  - apply Permutation.Permutation_cons_append.
  - constructor; [|assumption].
    intros Hin. apply dict_has_iff_In in Hin. congruence.
Qed.

(** X9: [makeKeyUniqueAndSet] leaves every entry of the map under its key,
    binds the chosen key to the new value, makes the map one entry longer,
    and keeps the keys free of duplicates. *)
Theorem makeKeyUniqueAndSet_keeps_entries (map : Dict V) key value :
  (forall k, dict_has map k = true ->
             dict_get (makeKeyUniqueAndSet map key value) k = dict_get map k)
  /\ dict_get (makeKeyUniqueAndSet map key value) (uniqueKeyFor map key)
     = Some value
  /\ List.length (makeKeyUniqueAndSet map key value) = S (List.length map)
  /\ (NoDup (dict_keys map) ->
      NoDup (dict_keys (makeKeyUniqueAndSet map key value))).
Proof.
  split; [|split; [|split]].
  - intros k Hk. rewrite makeKeyUniqueAndSet_app.
    apply dict_get_app_fresh. assumption.
  - unfold makeKeyUniqueAndSet. apply dict_get_set_same.
  - rewrite makeKeyUniqueAndSet_app, length_app. cbn. lia.
  - apply makeKeyUniqueAndSet_NoDup.
Qed.
End DictMore.

(** A third browser named chrome. *)
Lemma makeKeyUniqueAndSet_keeps_entries_witness :
  dict_get (makeKeyUniqueAndSet sampleBrowserDumps "chrome" 3) "chrome2"
  = Some 2
  /\ NoDup (dict_keys (makeKeyUniqueAndSet sampleBrowserDumps "chrome" 3)).
Proof.
  destruct (makeKeyUniqueAndSet_keeps_entries nat sampleBrowserDumps
                                              "chrome" 3)
    as (Hkeep & _ & _ & Hkeys).
  split.
  - rewrite Hkeep; reflexivity.
  - apply Hkeys. repeat constructor; cbn; intuition discriminate.
Defined.


Lemma string_append_nonempty (s t : string) :
  s = (s ++ t)%string -> t = EmptyString.
Proof.
  induction s as [|c s IH]; cbn; intros H; [symmetry; assumption|].
  inversion H. apply IH. assumption.
Qed.

Lemma appendIndex_differs key n : appendIndex key n <> key.
Proof.
  unfold appendIndex. intros H. symmetry in H.
  apply string_append_nonempty in H.
  pose proof (NilEmpty.usu (Nat.to_uint n)) as Hu. rewrite H in Hu.
  cbn in Hu. inversion Hu as [Hnil].
  pose proof (Unsigned.of_to n) as Hof. rewrite <- Hnil in Hof.
  cbn in Hof. subst n. discriminate Hnil.
Qed.

Lemma repeatedKeys_S key count :
  repeatedKeys key (S count)
  = (repeatedKeys key count
     ++ [match count with O => key | S _ => appendIndex key (S count) end])%list.
Proof.
  destruct count as [|more]; [reflexivity|].
  cbn [repeatedKeys]. rewrite seq_S, map_app. reflexivity.
Qed.

Lemma uniqueKeyFor_repeated (V : Type) (map : Dict V) key count :
  dict_keys map = repeatedKeys key count ->
  uniqueKeyFor map key
  = match count with O => key | S _ => appendIndex key (S count) end.
Proof.
  intros Hkeys.
  destruct (uniqueKeyFor_spec V map key) as (Hfree & Hunused & Hused).
  destruct count as [|more].
  - apply Hunused. destruct (dict_has map key) eqn:E; [|reflexivity].
    apply dict_has_iff_In in E. rewrite Hkeys in E. destruct E.
  - assert (Hhas : dict_has map key = true).
    { apply dict_has_iff_In. rewrite Hkeys. left. reflexivity. }
    destruct (Hused Hhas) as (n & Hn & Hchosen & Hall).
    rewrite Hchosen in *. f_equal.
    assert (Hmem : forall j, dict_has map (appendIndex key j) = true
                             <-> 2 <= j < 2 + more).
    { intros j. rewrite dict_has_iff_In, Hkeys. cbn [repeatedKeys]. split.
      - intros [H|H]; [exfalso; eapply appendIndex_differs; eauto|].
        apply in_map_iff in H as (i & Hi & Hseq).
        apply appendIndex_inj in Hi. subst i. apply in_seq in Hseq. lia.
      - intros Hj. right. apply in_map. apply in_seq. lia. }
    destruct (Nat.lt_trichotomy n (S (S more))) as [Hlt|[Heq|Hgt]].
    + assert (dict_has map (appendIndex key n) = true) by (apply Hmem; lia).
      congruence.
    + assumption.
    + specialize (Hall (S (S more)) ltac:(lia)).
      apply Hmem in Hall. lia.
Qed.

Lemma repeatedKeys_length key count :
  List.length (repeatedKeys key count) = count.
Proof.
  destruct count as [|more]; [reflexivity|].
  cbn [repeatedKeys List.length]. rewrite length_map, length_seq.
  reflexivity.
Qed.

Lemma map_fst_combine_same_length (A B : Type) (l : list A) : forall l' : list B,
  List.length l = List.length l' -> List.map fst (combine l l') = l.
Proof.
  induction l as [|a l IH]; intros [|b l'] H; cbn in *; try discriminate;
    [reflexivity|].
  f_equal. apply IH. lia.
Qed.

Lemma combine_app_same_length (A B : Type) (l1 : list A) :
  forall (l1' : list B) l2 l2',
  List.length l1 = List.length l1' ->
  combine (l1 ++ l2) (l1' ++ l2') = (combine l1 l1' ++ combine l2 l2')%list.
Proof.
  induction l1 as [|a l1 IH]; intros [|b l1'] l2 l2' H; cbn in *;
    try discriminate; [reflexivity|].
  f_equal. apply IH. lia.
Qed.

(** X10: adding values to an empty map under one and the same key gives
    them, in order, the key itself and then the key with the suffixes 2, 3,
    4 and so on, without a gap. *)
Theorem makeKeyUniqueAndSet_repeated (V : Type) key (values : list V) :
  fold_left (fun map value => makeKeyUniqueAndSet map key value) values []
  = combine (repeatedKeys key (List.length values)) values.
Proof.
  induction values as [|value values IH] using rev_ind; [reflexivity|].
  rewrite fold_left_app. cbn [fold_left]. rewrite IH.
  rewrite makeKeyUniqueAndSet_app.
  assert (Hkeys : dict_keys (combine (repeatedKeys key (List.length values))
                                     values)
                  = repeatedKeys key (List.length values)).
  { apply map_fst_combine_same_length. apply repeatedKeys_length. }
  rewrite (uniqueKeyFor_repeated V _ key (List.length values) Hkeys).
  rewrite length_app. cbn [List.length]. rewrite Nat.add_1_r.
  rewrite repeatedKeys_S.
  rewrite combine_app_same_length by apply repeatedKeys_length.
  reflexivity.
Qed.

(** ** The split of the global dumps *)

Lemma owner_get_None owners id :
  owner_get owners id = None <-> ~ In id (List.map fst owners).
Proof.
  induction owners as [|[id' p] rest IH]; cbn; [tauto|].
  destruct (Nat.eqb id' id) eqn:E.
  - apply Nat.eqb_eq in E. split; [discriminate|]. intros H. exfalso.
    apply H. left. assumption.
  - apply Nat.eqb_neq in E. rewrite IH. tauto.
Qed.

Lemma owner_get_Some owners id p :
  owner_get owners id = Some p -> In p (List.map snd owners).
Proof.
  induction owners as [|[id' p'] rest IH]; cbn; [discriminate|].
  destruct (Nat.eqb id' id); intros H.
  - inversion H. left. reflexivity.
  - right. apply IH. assumption.
Qed.

Lemma claimGlobalDumps_spec helper dumps : forall owners,
  match claimGlobalDumps helper dumps owners with
  | Ok owners' =>
      (NoDup (List.map fst owners) ->
       NoDup (List.map gmd_id dumps ++ List.map fst owners))
      /\ List.map fst owners'
         = (rev (List.map gmd_id dumps) ++ List.map fst owners)%list
      /\ incl (List.map snd owners') (pid helper :: List.map snd owners)
  | Throw message =>
      ~ NoDup (List.map gmd_id dumps ++ List.map fst owners)
      /\ exists existingPid,
           In existingPid (pid helper :: List.map snd owners)
           /\ message = clashMessage existingPid (pid helper)
  end.
Proof.
  induction dumps as [|g rest IH]; intros owners; cbn [claimGlobalDumps].
  - cbn. repeat split; [tauto|]. apply incl_tl, incl_refl.
  - destruct (owner_get owners (gmd_id g)) as [existingPid|] eqn:Hget.
    + split.
      * cbn [List.map List.app]. intros Hnd. inversion Hnd as [|? ? Hnotin _].
        apply Hnotin. apply in_or_app. right.
        destruct (in_dec Nat.eq_dec (gmd_id g) (List.map fst owners))
          as [Hin|Hout]; [assumption|].
        apply owner_get_None in Hout. congruence.
      * exists existingPid. split; [|reflexivity].
        right. eapply owner_get_Some; eassumption.
    + apply owner_get_None in Hget.
      specialize (IH ((gmd_id g, pid helper) :: owners)).
      destruct (claimGlobalDumps helper rest
                  ((gmd_id g, pid helper) :: owners)) as [owners'|message].
      * destruct IH as (Hnd & Hfst & Hsnd). cbn [List.map fst snd] in *.
        split; [|split].
        -- intros Hown. cbn [List.app].
           specialize (Hnd (NoDup_cons _ Hget Hown)).
           apply NoDup_remove in Hnd as [Hnd Hnotin].
           constructor; assumption.
        -- rewrite Hfst. cbn [rev]. rewrite <- app_assoc. reflexivity.
        -- intros p Hp. apply Hsnd in Hp. cbn in *. tauto.
      * destruct IH as (Hnd & existingPid & Hin & ->).
        cbn [List.map fst snd] in *. split.
        -- intros H. apply Hnd. cbn [List.app] in H.
           apply Permutation_NoDup with (l := gmd_id g :: (List.map gmd_id rest ++ List.map fst owners));
             [apply Permutation_middle|assumption].
        -- exists existingPid. split; [|reflexivity]. cbn in *. tauto.
Qed.

Lemma classifyBrowsers_spec helpers : forall browsers owners,
  NoDup (List.map fst owners) ->
  NoDup (dict_keys browsers) ->
  match classifyBrowsers helpers browsers owners with
  | Ok (browsers', owners') =>
      NoDup (claimedIds helpers ++ List.map fst owners)
      /\ List.map fst owners'
         = (rev (claimedIds helpers) ++ List.map fst owners)%list
      /\ List.map snd browsers'
         = (List.map snd browsers
            ++ List.map helper_globalDumps helpers)%list
      /\ NoDup (dict_keys browsers')
  | Throw message =>
      ~ NoDup (claimedIds helpers ++ List.map fst owners)
      /\ exists existingPid currentPid,
           In existingPid (List.map pid helpers ++ List.map snd owners)
           /\ In currentPid (List.map pid helpers)
           /\ message = clashMessage existingPid currentPid
  end.
Proof.
  induction helpers as [|helper rest IH]; intros browsers owners Hown Hkeys;
    cbn [classifyBrowsers].
  - cbn. rewrite app_nil_r. repeat split; assumption.
  - pose proof (claimGlobalDumps_spec helper (helper_globalDumps helper)
                  owners) as Hclaim.
    destruct (claimGlobalDumps helper (helper_globalDumps helper) owners)
      as [owners1|message]; cbn [result_bind].
    + destruct Hclaim as (Hnd1 & Hfst1 & Hsnd1). specialize (Hnd1 Hown).
      assert (Hown1 : NoDup (List.map fst owners1)).
      { rewrite Hfst1.
        apply Permutation_NoDup
          with (l := (List.map gmd_id (helper_globalDumps helper)
                      ++ List.map fst owners)%list); [|assumption].
        apply Permutation_app_tail, Permutation_rev. }
      assert (Hkeys1 : NoDup (dict_keys
                (makeKeyUniqueAndSet browsers (browserName helper)
                   (helper_globalDumps helper)))).
      { apply makeKeyUniqueAndSet_NoDup. assumption. }
      specialize (IH _ owners1 Hown1 Hkeys1).
      assert (Hperm : Permutation
                (claimedIds rest ++ List.map fst owners1)
                (claimedIds (helper :: rest) ++ List.map fst owners)).
      { rewrite Hfst1. cbn [claimedIds flat_map].
        fold (claimedIds rest). rewrite <- app_assoc.
        rewrite Permutation_app_swap_app.
        apply Permutation_app_tail. symmetry. apply Permutation_rev. }
      destruct (classifyBrowsers rest _ owners1) as [[browsers' owners']|m].
      * destruct IH as (Hnd & Hfst & Hsnd & Hk).
        split; [|split; [|split]].
        -- eapply Permutation_NoDup; eassumption.
        -- rewrite Hfst, Hfst1. cbn [claimedIds flat_map].
           fold (claimedIds rest). rewrite rev_app_distr, <- app_assoc.
           reflexivity.
        -- rewrite Hsnd, makeKeyUniqueAndSet_app, map_app.
           cbn [List.map snd]. rewrite <- app_assoc. reflexivity.
        -- assumption.
      * destruct IH as (Hnd & existingPid & currentPid & H1 & H2 & ->).
        split.
        -- intros H. apply Hnd. symmetry in Hperm.
           eapply Permutation_NoDup; eassumption.
        -- exists existingPid, currentPid. split; [|split; [|reflexivity]].
           ++ cbn [List.map]. apply in_app_or in H1 as [H1|H1].
              ** right. apply in_or_app. left. assumption.
              ** apply Hsnd1 in H1. destruct H1 as [<-|H1];
                   [left; reflexivity|].
                 right. apply in_or_app. right. assumption.
           ++ right. assumption.
    + destruct Hclaim as (Hnd & existingPid & Hin & ->). split.
      * intros H. apply Hnd. cbn [claimedIds flat_map] in H.
        rewrite <- app_assoc in H.
        apply NoDup_app_remove_l with (l := claimedIds rest).
        eapply Permutation_NoDup; [|exact H].
        rewrite Permutation_app_swap_app. reflexivity.
      * exists existingPid, (pid helper). split; [|split; [|reflexivity]].
        -- cbn [List.map]. destruct Hin as [<-|Hin]; [left; reflexivity|].
           right. apply in_or_app. right. assumption.
        -- left. reflexivity.
Qed.

(** X11: with browser helpers, [splitGlobalDumpsByBrowserName] succeeds
    when no global dump is claimed twice (by two helpers or twice by one),
    and otherwise throws the dump-ID clash error, which names the PIDs of two
    of the helpers. *)
Theorem split_fails_iff_dump_claimed_twice helpers globalDumps :
  (NoDup (claimedIds helpers) ->
   exists browserNameToGlobalDumps,
     splitGlobalDumpsByBrowserName
       (mkMemoryModel (Some helpers) globalDumps)
     = Ok browserNameToGlobalDumps)
  /\ (~ NoDup (claimedIds helpers) ->
      exists existingPid currentPid,
        In existingPid (List.map pid helpers)
        /\ In currentPid (List.map pid helpers)
        /\ splitGlobalDumpsByBrowserName
             (mkMemoryModel (Some helpers) globalDumps)
           = Throw (clashMessage existingPid currentPid)).
Proof.
  unfold splitGlobalDumpsByBrowserName.
  cbn [chromeModelHelper globalMemoryDumps].
  pose proof (classifyBrowsers_spec helpers [] [] (NoDup_nil _) (NoDup_nil _))
    as Hspec.
  destruct (classifyBrowsers helpers [] []) as [[browsers owners]|message];
    cbn [result_bind fst snd].
  - destruct Hspec as (Hnd & _). cbn [List.map] in Hnd.
    rewrite app_nil_r in Hnd. split; [|tauto].
    intros _. destruct (Nat.ltb 0 _); eexists; reflexivity.
  - destruct Hspec as (Hnd & existingPid & currentPid & H1 & H2 & ->).
    cbn [List.map] in *. rewrite app_nil_r in *. split; [tauto|].
    intros _. exists existingPid, currentPid. repeat split; assumption.
Qed.

(** Two helpers with their own dumps, and two that claim the same dump. *)
Lemma split_fails_iff_dump_claimed_twice_witness :
  (exists browserNameToGlobalDumps,
     splitGlobalDumpsByBrowserName sampleMemoryModel
     = Ok browserNameToGlobalDumps)
  /\ (exists existingPid currentPid,
        splitGlobalDumpsByBrowserName sampleClashModel
        = Throw (clashMessage existingPid currentPid)).
Proof.
  split.
  - apply (split_fails_iff_dump_claimed_twice
             [mkHelper 100 "chrome" [sampleGlobalDump 1];
              mkHelper 200 "chrome" [sampleGlobalDump 2]]
             [sampleGlobalDump 1; sampleGlobalDump 2; sampleGlobalDump 3]).
    vm_compute. repeat constructor; cbn; intuition discriminate.
  - destruct (split_fails_iff_dump_claimed_twice
                [mkHelper 100 "chrome" [sampleGlobalDump 1];
                 mkHelper 200 "chrome" [sampleGlobalDump 1]]
                [sampleGlobalDump 1]) as [_ Hclash].
    destruct Hclash as (existingPid & currentPid & _ & _ & Hthrow).
    + vm_compute. intros Hnodup. inversion Hnodup as [|? ? Hout _].
      apply Hout. left. reflexivity.
    + exists existingPid, currentPid. exact Hthrow.
Defined.

(** X12: when the split succeeds its groups are, in order, the dump lists
    of the helpers followed, if any global dump of the model is unclaimed, by
    one last group of the unclaimed dumps; the group names are distinct, and
    every global dump of the model is in some group. *)
Theorem split_groups_every_dump helpers globalDumps browserNameToGlobalDumps :
  splitGlobalDumpsByBrowserName (mkMemoryModel (Some helpers) globalDumps)
  = Ok browserNameToGlobalDumps ->
  List.map snd browserNameToGlobalDumps
  = (List.map helper_globalDumps helpers
     ++ match filter (fun g => negb (isClaimed helpers g)) globalDumps with
        | [] => []
        | unclaimed => [unclaimed]
        end)%list
  /\ NoDup (dict_keys browserNameToGlobalDumps)
  /\ (forall g, In g globalDumps ->
        exists group,
          In group (List.map snd browserNameToGlobalDumps)
          /\ In (gmd_id g) (List.map gmd_id group)).
Proof.
  unfold splitGlobalDumpsByBrowserName.
  cbn [chromeModelHelper globalMemoryDumps].
  pose proof (classifyBrowsers_spec helpers [] [] (NoDup_nil _) (NoDup_nil _))
    as Hspec.
  destruct (classifyBrowsers helpers [] []) as [[browsers owners]|message];
    cbn [result_bind fst snd]; [|discriminate].
  destruct Hspec as (_ & Hfst & Hsnd & Hkeys).
  cbn [List.map List.app] in Hfst, Hsnd. rewrite app_nil_r in Hfst.
  assert (Hfilter :
            filter (fun g => match owner_get owners (gmd_id g) with
                             | Some _ => false
                             | None => true
                             end) globalDumps
            = filter (fun g => negb (isClaimed helpers g)) globalDumps).
  { apply filter_ext. intros g. unfold isClaimed.
    destruct (owner_get owners (gmd_id g)) eqn:Hget;
      destruct (existsb (Nat.eqb (gmd_id g)) (claimedIds helpers)) eqn:Hex;
      try reflexivity; exfalso.
    - assert (Hin : In (gmd_id g) (List.map fst owners)).
      { destruct (in_dec Nat.eq_dec (gmd_id g) (List.map fst owners))
          as [Hin|Hout]; [assumption|].
        apply owner_get_None in Hout. congruence. }
      rewrite Hfst in Hin. apply in_rev in Hin.
      assert (existsb (Nat.eqb (gmd_id g)) (claimedIds helpers) = true).
      { apply existsb_exists. exists (gmd_id g). split; [assumption|].
        apply Nat.eqb_refl. }
      congruence.
    - apply owner_get_None in Hget. apply Hget. rewrite Hfst.
      apply in_rev. rewrite rev_involutive.
      apply existsb_exists in Hex as (x & Hx & Heq).
      apply Nat.eqb_eq in Heq. subst x. assumption. }
  rewrite Hfilter.
  set (unclaimed := filter (fun g => negb (isClaimed helpers g)) globalDumps).
  assert (Hgroups : forall result : BrowserDumps,
            List.map snd result
            = (List.map helper_globalDumps helpers
               ++ match unclaimed with [] => [] | _ => [unclaimed] end)%list ->
            forall g, In g globalDumps ->
              exists group, In group (List.map snd result)
                            /\ In (gmd_id g) (List.map gmd_id group)).
  { intros result Hres g Hg. rewrite Hres.
    destruct (isClaimed helpers g) eqn:Hc.
    - unfold isClaimed in Hc. apply existsb_exists in Hc as (x & Hx & Heq).
      apply Nat.eqb_eq in Heq. subst x.
      unfold claimedIds in Hx. apply in_flat_map in Hx as (helper & Hh & Hx).
      exists (helper_globalDumps helper). split; [|assumption].
      apply in_or_app. left. apply in_map. assumption.
    - assert (Hin : In g unclaimed).
      { apply filter_In. split; [assumption|]. rewrite Hc. reflexivity. }
      exists unclaimed. split; [|apply in_map; assumption].
      apply in_or_app. right. destruct unclaimed; [destruct Hin|].
      left. reflexivity. }
  destruct unclaimed as [|g0 more] eqn:Hun; cbn [List.length Nat.ltb Nat.leb];
    intros H; inversion H; subst.
  - rewrite app_nil_r. split; [assumption|]. split; [assumption|].
    apply Hgroups. rewrite app_nil_r. assumption.
  - assert (Hres : List.map snd
                     (makeKeyUniqueAndSet browsers "unknown" (g0 :: more))
                   = (List.map helper_globalDumps helpers
                      ++ [g0 :: more])%list).
    { rewrite makeKeyUniqueAndSet_app, map_app, Hsnd. reflexivity. }
    split; [assumption|]. split.
    + apply makeKeyUniqueAndSet_NoDup. assumption.
    + apply Hgroups. assumption.
Qed.

(** The third dump of the sample model is unclaimed. *)
Lemma split_groups_every_dump_witness :
  exists browserNameToGlobalDumps,
    splitGlobalDumpsByBrowserName sampleMemoryModel
    = Ok browserNameToGlobalDumps
    /\ List.map snd browserNameToGlobalDumps
       = [[sampleGlobalDump 1]; [sampleGlobalDump 2]; [sampleGlobalDump 3]].
Proof.
  destruct (splitGlobalDumpsByBrowserName sampleMemoryModel)
    as [browserNameToGlobalDumps|message] eqn:Hsplit.
  - exists browserNameToGlobalDumps. split; [reflexivity|].
    destruct (split_groups_every_dump
                [mkHelper 100 "chrome" [sampleGlobalDump 1];
                 mkHelper 200 "chrome" [sampleGlobalDump 2]]
                [sampleGlobalDump 1; sampleGlobalDump 2; sampleGlobalDump 3]
                browserNameToGlobalDumps Hsplit) as (Hgroups & _).
    rewrite Hgroups. reflexivity.
  - vm_compute in Hsplit. discriminate Hsplit.
Defined.

(** X13: without a Chrome model helper the split never throws: all the
    global dumps of the model form the one group unknown, and a model
    without global dumps gives no group. *)
Theorem split_without_helper globalDumps :
  splitGlobalDumpsByBrowserName (mkMemoryModel None globalDumps)
  = Ok match globalDumps with
       | [] => []
       | _ => [("unknown"%string, globalDumps)]
       end.
Proof.
  unfold splitGlobalDumpsByBrowserName.
  cbn [chromeModelHelper globalMemoryDumps result_bind fst snd owner_get].
  assert (Hall : filter (fun _ : GlobalMemoryDump => true) globalDumps
                 = globalDumps).
  { induction globalDumps as [|g rest IH]; cbn; [reflexivity|].
    rewrite IH. reflexivity. }
  rewrite Hall. destruct globalDumps; reflexivity.
Qed.

(** ** Descendants of a VM region node *)

Lemma getDescendant_undefined path :
  getDescendantVmRegionClassificationNode None path = None.
Proof. destruct path; reflexivity. Qed.

Lemma getDescendant_app path1 : forall node path2,
  getDescendantVmRegionClassificationNode node (path1 ++ path2)
  = getDescendantVmRegionClassificationNode
      (getDescendantVmRegionClassificationNode node path1) path2.
Proof.
  induction path1 as [|title rest IH]; intros node path2; cbn; [reflexivity|].
  destruct node as [n|].
  - apply IH.
  - symmetry. apply getDescendant_undefined.
Qed.

(** X14: [getDescendantVmRegionClassificationNode] gives undefined for an
    undefined node, follows a path piece by piece (the descendant along two
    joined paths is the descendant, along the second, of the descendant
    along the first), and a node found along a path carries the last title
    of the path and is a child of the node found along the path without
    that title. *)
Theorem vm_region_descendant_follows_path :
  (forall path, getDescendantVmRegionClassificationNode None path = None)
  /\ (forall node path1 path2,
        getDescendantVmRegionClassificationNode node (path1 ++ path2)
        = getDescendantVmRegionClassificationNode
            (getDescendantVmRegionClassificationNode node path1) path2)
  /\ (forall node path childTitle found,
        getDescendantVmRegionClassificationNode node (path ++ [childTitle])
        = Some found ->
        node_title found = childTitle
        /\ exists parent,
             getDescendantVmRegionClassificationNode node path = Some parent
             /\ In found (node_children parent)).
Proof.
  split; [exact getDescendant_undefined|].
  split; [intros; apply getDescendant_app|].
  intros node path childTitle found. rewrite getDescendant_app.
  destruct (getDescendantVmRegionClassificationNode node path) as [parent|];
    cbn; [|discriminate].
  intros Hfind. apply find_some in Hfind as [Hin Htitle].
  apply String.eqb_eq in Htitle. split; [assumption|].
  exists parent. split; [reflexivity | assumption].
Qed.

(** The Java runtime node of a tree of VM regions. *)
Lemma vm_region_descendant_follows_path_witness :
  exists found,
    getDescendantVmRegionClassificationNode
      (Some sampleVmRegions) ["Android"; "Java runtime"]%string
    = Some found
    /\ node_title found = "Java runtime"%string.
Proof.
  destruct vm_region_descendant_follows_path as (_ & _ & Hfound).
  eexists. split; [reflexivity|].
  apply (Hfound (Some sampleVmRegions) ["Android"%string]
                "Java runtime"%string).
  reflexivity.
Defined.

(** ** Sums per process name *)

Lemma sumZ_app a b : sumZ (a ++ b) = (sumZ a + sumZ b)%Z.
Proof.
  unfold sumZ. induction a as [|x a IH]; cbn [fold_right List.app];
    [reflexivity|].
  rewrite IH. lia.
Qed.

Lemma scalarValuesOf_app name a b :
  scalarValuesOf name (a ++ b) = (scalarValuesOf name a ++ scalarValuesOf name b)%list.
Proof. unfold scalarValuesOf. apply flat_map_app. Qed.

Lemma sumsCalls_nil : sumsCalls [] [].
Proof. intros name. reflexivity. Qed.

Lemma addProcessScalar_sums processName d calls name scalar d' :
  sumsCalls d calls ->
  addProcessScalar processName d name scalar = Ok d' ->
  sumsCalls d' (calls ++ [(name, scalar)]).
Proof.
  intros Hsums Hadd name'. rewrite scalarValuesOf_app.
  pose proof (Hsums name') as Hname'.
  destruct scalar as [scalar|]; cbn in Hadd.
  - pose proof (Hsums name) as Hname.
    destruct (String.eqb_spec name name') as [->|Hneq].
    + cbn. rewrite String.eqb_refl.
      destruct (dict_get d name') as [existing|] eqn:Hget.
      * destruct (Unit_eqb _ _); inversion Hadd; subst d'.
        rewrite dict_get_set_same. cbn. split.
        -- intros Habs. apply app_eq_nil in Habs as [_ Habs]. discriminate.
        -- rewrite sumZ_app. cbn. destruct Hname' as [_ ->]. lia.
      * inversion Hadd; subst d'. rewrite dict_get_set_same. cbn.
        rewrite Hname'. cbn. split; [discriminate | lia].
    + assert (Hother : dict_get d' name' = dict_get d name').
      { destruct (dict_get d name) as [existing|].
        - destruct (Unit_eqb _ _); inversion Hadd; subst d'.
          apply dict_get_set_other. congruence.
        - inversion Hadd; subst d'. apply dict_get_set_other. congruence. }
      rewrite Hother. cbn.
      destruct (String.eqb_spec name name') as [Heq|_]; [contradiction|].
      cbn. rewrite app_nil_r. exact Hname'.
  - inversion Hadd; subst d'. cbn. rewrite app_nil_r. exact Hname'.
Qed.

Lemma addProcessScalars_sums processName later : forall d calls d',
  sumsCalls d calls ->
  addProcessScalars processName d later = Ok d' ->
  sumsCalls d' (calls ++ later).
Proof.
  induction later as [|[name scalar] rest IH]; intros d calls d' Hsums Hadd;
    cbn in Hadd.
  - inversion Hadd; subst d'. rewrite app_nil_r. assumption.
  - destruct (addProcessScalar processName d name scalar) as [d1|] eqn:Hone;
      cbn in Hadd; [|discriminate].
    replace (calls ++ (name, scalar) :: rest)%list
      with ((calls ++ [(name, scalar)]) ++ rest)%list
      by (rewrite <- app_assoc; reflexivity).
    apply IH with (d := d1); [|assumption].
    eapply addProcessScalar_sums; eassumption.
Qed.

Lemma callsOfGroup_snoc extractor key seen processDump :
  callsOfGroup extractor key (seen ++ [processDump])
  = (callsOfGroup extractor key seen
     ++ if hasProcessName key processDump then extractor processDump else [])%list.
Proof.
  unfold callsOfGroup. rewrite filter_app, flat_map_app. cbn.
  destruct (hasProcessName key processDump); cbn; [|reflexivity].
  rewrite app_nil_r. reflexivity.
Qed.

Lemma addProcessDump_sums extractor acc seen processDump acc' :
  sumsProcessDumps extractor acc seen ->
  addProcessDump extractor acc processDump = Ok acc' ->
  sumsProcessDumps extractor acc' (seen ++ [processDump]).
Proof.
  intros Hsums Hadd key. unfold addProcessDump in Hadd.
  set (processName := processNameKey (process_name processDump)) in *.
  rewrite callsOfGroup_snoc, filter_app. cbn [filter].
  pose proof (Hsums key) as Hkey. pose proof (Hsums processName) as Hown.
  assert (Hhas : hasProcessName key processDump
                 = String.eqb processName key) by reflexivity.
  rewrite Hhas.
  destruct (String.eqb_spec processName key) as [<-|Hneq].
  - destruct (dict_get acc processName) as [group|] eqn:Hget;
      cbn [fst snd] in Hadd.
    + destruct Hown as [_ Hgroup].
      destruct (addProcessScalars processName group (extractor processDump))
        as [group'|] eqn:Hscalars; cbn in Hadd; [|discriminate].
      inversion Hadd; subst acc'. rewrite dict_get_set_same. split.
      * intros Habs. apply app_eq_nil in Habs as [_ Habs]. discriminate.
      * eapply addProcessScalars_sums; eassumption.
    + destruct (addProcessScalars processName [] (extractor processDump))
        as [group'|] eqn:Hscalars; cbn in Hadd; [|discriminate].
      inversion Hadd; subst acc'. rewrite dict_get_set_same. split.
      * intros Habs. apply app_eq_nil in Habs as [_ Habs]. discriminate.
      * unfold callsOfGroup at 1. rewrite Hown. cbn [flat_map].
        change (extractor processDump)
          with ([] ++ extractor processDump)%list.
        eapply addProcessScalars_sums; [apply sumsCalls_nil | eassumption].
  - assert (Hother : dict_get acc' key = dict_get acc key).
    { destruct (dict_get acc processName) as [group|]; cbn [fst snd] in Hadd;
        destruct (addProcessScalars processName _ (extractor processDump))
          as [group'|]; cbn in Hadd; try discriminate;
        inversion Hadd; subst acc'.
      - apply dict_get_set_other. congruence.
      - rewrite !dict_get_set_other by congruence. reflexivity. }
    rewrite Hother, !app_nil_r. exact Hkey.
Qed.

Lemma addProcessDumps_sums extractor later : forall acc seen acc',
  sumsProcessDumps extractor acc seen ->
  addProcessDumps extractor acc later = Ok acc' ->
  sumsProcessDumps extractor acc' (seen ++ later).
Proof.
  induction later as [|processDump rest IH]; intros acc seen acc' Hsums Hadd;
    cbn in Hadd.
  - inversion Hadd; subst acc'. rewrite app_nil_r. assumption.
  - destruct (addProcessDump extractor acc processDump) as [acc1|] eqn:Hone;
      cbn in Hadd; [|discriminate].
    replace (seen ++ processDump :: rest)%list
      with ((seen ++ [processDump]) ++ rest)%list
      by (rewrite <- app_assoc; reflexivity).
    apply IH with (acc := acc1); [|assumption].
    eapply addProcessDump_sums; eassumption.
Qed.

Lemma addProcessDumps_sums_from_empty extractor processDumps acc :
  addProcessDumps extractor [] processDumps = Ok acc ->
  sumsProcessDumps extractor acc processDumps.
Proof.
  intros Hadd.
  change processDumps with ([] ++ processDumps)%list.
  eapply addProcessDumps_sums; [|eassumption].
  intros key. reflexivity.
Qed.

(** X15: for global dumps whose process names are ASCII and whose
    process-name keys and value names are not names that a plain object
    inherits, when [calculatePerProcessNameMemoryDumpValues] succeeds the
    dictionary of every global dump has a group exactly for the process-name
    keys of its process dumps, and a group holds a value name exactly when
    the extractor gave a defined scalar under it for some process dump of the
    group, with the sum of all those scalars as its value. *)
Theorem per_process_name_values_are_sums extractor globalDumps perTime :
  plainProcessNames globalDumps ->
  plainValueNames extractor globalDumps ->
  calculatePerProcessNameMemoryDumpValues globalDumps extractor = Ok perTime ->
  Forall2
    (fun globalDump processNameToValueNameToScalar =>
       sumsProcessDumps extractor processNameToValueNameToScalar
                        (processMemoryDumps globalDump))
    globalDumps perTime.
Proof.
  intros _ _ Hcalc. apply mapResult_Forall2 in Hcalc.
  induction Hcalc as [|globalDump acc dumps rest Hone _ IH]; constructor.
  - apply addProcessDumps_sums_from_empty. assumption.
  - assumption.
Qed.

(** Two browser processes with one process count each. *)
Lemma per_process_name_values_are_sums_witness :
  Forall2
    (fun globalDump processNameToValueNameToScalar =>
       sumsProcessDumps (generalProcessDumpValueExtractor "size")
                        processNameToValueNameToScalar
                        (processMemoryDumps globalDump))
    [sampleGlobalDump 1]
    [[("browser"%string,
       [("process_count"%string, mkScalar unitlessNumber_smallerIsBetter 2)])]].
Proof.
  apply (per_process_name_values_are_sums
           (generalProcessDumpValueExtractor "size") [sampleGlobalDump 1]).
  - intros globalDump processDump [<-|[]] [<-|[<-|[]]]; reflexivity.
  - intros globalDump processDump [<-|[]] [<-|[<-|[]]]; reflexivity.
  - reflexivity.
Defined.

(** ** Totals over the process names *)


Lemma dict_get_tabulate (V : Type) (f : string -> V) keys k :
  dict_get (List.map (fun key => (key, f key)) keys) k
  = if existsb (String.eqb k) keys then Some (f k) else None.
Proof.
  induction keys as [|key rest IH]; cbn; [reflexivity|].
  rewrite (String.eqb_sym k key).
  destruct (String.eqb_spec key k) as [->|_]; cbn; [reflexivity | exact IH].
Qed.

Lemma mapItems_get (A B : Type) (f : string -> A -> result B) (d : Dict A) :
  forall d', mapItems d f = Ok d' ->
  forall k,
    match dict_get d k with
    | Some a => exists b, f k a = Ok b /\ dict_get d' k = Some b
    | None => dict_get d' k = None
    end.
Proof.
  induction d as [|[key a] rest IH]; intros d' Hmap k; cbn in Hmap.
  - inversion Hmap; subst d'. reflexivity.
  - destruct (f key a) as [b|] eqn:Hf; cbn in Hmap; [|discriminate].
    destruct (mapItems rest f) as [bs|] eqn:Hrest; cbn in Hmap; [|discriminate].
    inversion Hmap; subst d'. cbn.
    destruct (String.eqb_spec key k) as [<-|_].
    + exists b. split; [assumption | reflexivity].
    + apply IH. reflexivity.
Qed.

Lemma sumScalars_total valueName unit name array : forall accumulator value,
  sumScalars valueName unit
             (List.map (fun group : Dict ScalarNumeric => dict_get group name)
                       array)
             accumulator
  = Ok value ->
  value = (accumulator + sumZ (groupValuesOf name array))%Z.
Proof.
  induction array as [|group rest IH]; intros accumulator value Hsum;
    cbn in Hsum.
  - inversion Hsum. cbn. lia.
  - unfold groupValuesOf. cbn [flat_map]. rewrite sumZ_app.
    fold (groupValuesOf name rest).
    destruct (dict_get group name) as [scalar|].
    + destruct (Unit_eqb _ _); [|discriminate].
      apply IH in Hsum. cbn. lia.
    + apply IH in Hsum. cbn. lia.
Qed.

Lemma findFirstInArray_values name array first :
  findFirstInArray
    (List.map (fun group : Dict ScalarNumeric => dict_get group name) array)
  = Some first ->
  groupValuesOf name array <> [].
Proof.
  induction array as [|group rest IH]; cbn; [discriminate|].
  destruct (dict_get group name) as [scalar|]; cbn.
  - discriminate.
  - exact IH.
Qed.

Lemma groupValuesOf_absent name array :
  (forall group, In group array -> dict_get group name = None) ->
  groupValuesOf name array = [].
Proof.
  induction array as [|group rest IH]; intros Hnone; cbn; [reflexivity|].
  rewrite (Hnone group (or_introl eq_refl)). cbn.
  apply IH. intros g Hg. apply Hnone. right. assumption.
Qed.

Lemma mapItems_totalScalar array totals :
  mapItems (invertArrayOfDicts array) totalScalar = Ok totals ->
  totalsOf array totals.
Proof.
  intros Hmap name. pose proof (mapItems_get _ _ _ _ _ Hmap name) as Hget.
  unfold invertArrayOfDicts in Hget. rewrite dict_get_tabulate in Hget.
  destruct (existsb (String.eqb name) _) eqn:Hkey.
  - destruct Hget as (total & Htotal & ->).
    unfold totalScalar in Htotal.
    destruct (findFirstInArray _) as [first|] eqn:Hfirst; [|discriminate].
    destruct (sumScalars _ _ _ _) as [value|] eqn:Hsum; cbn in Htotal;
      [|discriminate].
    inversion Htotal; subst total. cbn. split.
    + eapply findFirstInArray_values. eassumption.
    + apply sumScalars_total in Hsum. lia.
  - rewrite Hget. apply groupValuesOf_absent. intros group Hgroup.
    destruct (dict_get group name) as [scalar|] eqn:Hscalar; [|reflexivity].
    exfalso. apply dict_get_In_keys in Hscalar.
    assert (Hin : In name (firstSeenKeys []
                             (flat_map (@dict_keys ScalarNumeric) array))).
    { apply firstSeenKeys_complete. apply in_flat_map.
      exists group. split; assumption. }
    assert (existsb (String.eqb name)
              (firstSeenKeys [] (flat_map (@dict_keys ScalarNumeric) array))
            = true).
    { apply existsb_exists. exists name. split; [assumption|].
      apply String.eqb_refl. }
    congruence.
Qed.

Lemma injectTotals_ok groups result :
  injectTotals groups = Ok result ->
  exists totals,
    result = dict_set groups ALL_PROCESS_NAMES totals
    /\ totalsOf (dictionaryValues groups) totals.
Proof.
  unfold injectTotals. intros Hinject.
  destruct (mapItems _ _) as [totals|] eqn:Hmap; cbn in Hinject;
    [|discriminate].
  inversion Hinject; subst result. exists totals. split; [reflexivity|].
  apply mapItems_totalScalar. assumption.
Qed.

(** X16: when [injectTotals] succeeds it changes no group other than the
    group all, and the group all then holds a value name exactly when some
    process-name group held it, with the sum of what the groups held under
    that name as its value (a group all that was there before counts as a
    group and is replaced). *)
Theorem totals_are_sums_over_process_names groups result :
  injectTotals groups = Ok result ->
  (forall key, key <> ALL_PROCESS_NAMES ->
               dict_get result key = dict_get groups key)
  /\ exists totals,
       dict_get result ALL_PROCESS_NAMES = Some totals
       /\ forall name,
            match dict_get totals name with
            | Some total =>
                groupValuesOf name (dictionaryValues groups) <> []
                /\ scalar_value total
                   = sumZ (groupValuesOf name (dictionaryValues groups))
            | None => groupValuesOf name (dictionaryValues groups) = []
            end.
Proof.
  intros Hinject. apply injectTotals_ok in Hinject as (totals & -> & Htotals).
  split.
  - intros key Hkey. apply dict_get_set_other. assumption.
  - exists totals. split; [apply dict_get_set_same | exact Htotals].
Qed.

(** The totals of a browser and a renderer group. *)
Lemma totals_are_sums_over_process_names_witness :
  exists result totals,
    injectTotals sampleGroups = Ok result
    /\ dict_get result "renderer" = dict_get sampleGroups "renderer"
    /\ dict_get result ALL_PROCESS_NAMES = Some totals.
Proof.
  destruct (injectTotals sampleGroups) as [result|message] eqn:Hinject.
  - destruct (totals_are_sums_over_process_names sampleGroups result Hinject)
      as (Hkept & totals & Htotals & _).
    exists result, totals. split; [reflexivity|]. split; [|exact Htotals].
    apply Hkept. discriminate.
  - vm_compute in Hinject. discriminate Hinject.
Defined.

(** ** Totals over the process dumps *)

Section KeysFacts.
Variable V : Type.

Lemma dict_set_keys (d : Dict V) k v :
  dict_keys (dict_set d k v)
  = if dict_has d k then dict_keys d else (dict_keys d ++ [k])%list.
Proof.
  unfold dict_has. induction d as [|[key value] rest IH]; cbn; [reflexivity|].
  destruct (String.eqb_spec key k) as [->|_]; cbn; [reflexivity|].
  unfold dict_keys in IH. rewrite IH.
  destruct (dict_get rest k); reflexivity.
Qed.

Lemma dict_set_keys_NoDup (d : Dict V) k v :
  NoDup (dict_keys d) -> NoDup (dict_keys (dict_set d k v)).
Proof.
  intros Hnd. rewrite dict_set_keys.
  destruct (dict_has d k) eqn:Hhas; [assumption|].
  apply NoDup_app; [assumption | repeat constructor; intros [] |].
  intros key Hkey [Heq|[]]. subst key.
  assert (dict_has d k = true); [|congruence].
  unfold dict_has. clear Hhas.
  induction d as [|[key' value] rest IH]; [destruct Hkey|]. cbn.
  destruct (String.eqb_spec key' k); [reflexivity|].
  inversion Hnd; subst. destruct Hkey as [Hk|Hk]; [contradiction|].
  apply IH; assumption.
Qed.

Lemma dict_get_In_NoDup (d : Dict V) k v :
  NoDup (dict_keys d) -> In (k, v) d -> dict_get d k = Some v.
Proof.
  induction d as [|[key value] rest IH]; intros Hnd Hin; [destruct Hin|].
  cbn in *. inversion Hnd as [|? ? Hout Hrest]; subst.
  destruct Hin as [Heq|Hin].
  - inversion Heq; subst. rewrite String.eqb_refl. reflexivity.
  - destruct (String.eqb_spec key k) as [->|_].
    + exfalso. apply Hout. apply (in_map fst) in Hin. exact Hin.
    + apply IH; assumption.
Qed.
End KeysFacts.

Lemma addProcessDump_keys extractor acc processDump acc' :
  NoDup (dict_keys acc) ->
  addProcessDump extractor acc processDump = Ok acc' ->
  NoDup (dict_keys acc').
Proof.
  intros Hnd Hadd. unfold addProcessDump in Hadd.
  destruct (dict_get acc _) as [group|]; cbn [fst snd] in Hadd;
    destruct (addProcessScalars _ _ _) as [group'|]; cbn in Hadd;
    try discriminate; inversion Hadd; subst acc';
    repeat apply dict_set_keys_NoDup; assumption.
Qed.

Lemma addProcessDumps_keys extractor processDumps : forall acc acc',
  NoDup (dict_keys acc) ->
  addProcessDumps extractor acc processDumps = Ok acc' ->
  NoDup (dict_keys acc').
Proof.
  induction processDumps as [|processDump rest IH]; intros acc acc' Hnd Hadd;
    cbn in Hadd.
  - inversion Hadd; subst. assumption.
  - destruct (addProcessDump extractor acc processDump) as [acc1|] eqn:Hone;
      cbn in Hadd; [|discriminate].
    eapply IH; [|eassumption]. eapply addProcessDump_keys; eassumption.
Qed.

Lemma scalarValuesOf_flat_map extractor name processDumps :
  sumZ (scalarValuesOf name (flat_map extractor processDumps))
  = sumZ (List.map (valueOfDump extractor name) processDumps).
Proof.
  induction processDumps as [|processDump rest IH]; [reflexivity|].
  cbn [flat_map List.map]. rewrite scalarValuesOf_app, sumZ_app, IH.
  reflexivity.
Qed.

Lemma sumZ_cons x l : sumZ (x :: l) = (x + sumZ l)%Z.
Proof. reflexivity. Qed.

Lemma sumZ_indicator key keys value :
  NoDup keys -> In key keys ->
  sumZ (List.map (fun k => if String.eqb key k then value else 0%Z) keys)
  = value.
Proof.
  induction keys as [|k rest IH]; intros Hnd Hin; [destruct Hin|].
  inversion Hnd as [|? ? Hout Hrest]; subst.
  cbn [List.map]. rewrite sumZ_cons.
  destruct (String.eqb_spec key k) as [->|Hneq].
  - assert (Hzero : sumZ (List.map (fun k0 => if String.eqb k k0 then value
                                              else 0%Z) rest) = 0%Z).
    { clear IH Hnd Hin Hrest. induction rest as [|k' rest IH];
        [reflexivity|].
      cbn [List.map]. rewrite sumZ_cons.
      destruct (String.eqb_spec k k') as [->|_].
      - exfalso. apply Hout. left. reflexivity.
      - rewrite IH; [reflexivity|]. intros H. apply Hout. right. assumption. }
    rewrite Hzero. lia.
  - destruct Hin as [Heq|Hin]; [congruence|].
    rewrite (IH Hrest Hin). lia.
Qed.

Lemma sumZ_map_add (A : Type) (f g : A -> Z) l :
  sumZ (List.map (fun a => (f a + g a)%Z) l)
  = (sumZ (List.map f l) + sumZ (List.map g l))%Z.
Proof.
  unfold sumZ. induction l as [|a l IH]; cbn [List.map fold_right];
    [reflexivity|].
  rewrite IH. lia.
Qed.

Lemma sumZ_over_groups extractor name keys processDumps :
  NoDup keys ->
  (forall processDump, In processDump processDumps ->
     In (processNameKey (process_name processDump)) keys) ->
  sumZ (List.map
          (fun key =>
             sumZ (scalarValuesOf name (callsOfGroup extractor key processDumps)))
          keys)
  = sumZ (List.map (valueOfDump extractor name) processDumps).
Proof.
  intros Hnd. induction processDumps as [|processDump rest IH]; intros Hkeys.
  - cbn [List.map]. clear Hnd Hkeys.
    induction keys as [|k keys IH]; [reflexivity|].
    cbn [List.map]. rewrite sumZ_cons, IH. reflexivity.
  - cbn [List.map]. 
    transitivity
      (sumZ (List.map
               (fun key =>
                  ((if String.eqb (processNameKey (process_name processDump))
                                  key
                    then valueOfDump extractor name processDump else 0)
                   + sumZ (scalarValuesOf name
                             (callsOfGroup extractor key rest)))%Z)
               keys)).
    + f_equal. apply map_ext. intros key.
      unfold callsOfGroup. cbn [filter]. unfold hasProcessName at 1.
      destruct (String.eqb _ key); cbn [flat_map].
      * rewrite scalarValuesOf_app, sumZ_app. reflexivity.
      * lia.
    + rewrite sumZ_map_add, sumZ_indicator, IH.
      * rewrite sumZ_cons. reflexivity.
      * intros d Hd. apply Hkeys. right. assumption.
      * assumption.
      * apply Hkeys. left. reflexivity.
Qed.

Lemma sumZ_groupValues extractor name processDumps
    (groups : Dict (Dict ScalarNumeric)) :
  (forall key group, In (key, group) groups ->
     sumsCalls group (callsOfGroup extractor key processDumps)) ->
  sumZ (groupValuesOf name (dictionaryValues groups))
  = sumZ (List.map
            (fun key =>
               sumZ (scalarValuesOf name
                       (callsOfGroup extractor key processDumps)))
            (dict_keys groups)).
Proof.
  induction groups as [|[key group] rest IH]; intros Hsums; [reflexivity|].
  cbn [dictionaryValues dict_keys List.map fst snd].
  unfold groupValuesOf. cbn [flat_map]. rewrite sumZ_app.
  fold (groupValuesOf name (List.map snd rest)).
  change (List.map snd rest) with (dictionaryValues rest).
  rewrite IH by (intros k g Hin; apply Hsums; right; assumption).
  pose proof (Hsums key group (or_introl eq_refl) name) as Hname.
  cbn [List.map]. rewrite sumZ_cons.
  f_equal.
  destruct (dict_get group name) as [scalar|].
  - destruct Hname as [_ <-]. cbn. lia.
  - rewrite Hname. reflexivity.
Qed.

Lemma scalarValuesOf_of_group extractor name key processDumps :
  scalarValuesOf name (flat_map extractor processDumps) = [] ->
  scalarValuesOf name (callsOfGroup extractor key processDumps) = [].
Proof.
  unfold callsOfGroup.
  induction processDumps as [|processDump rest IH]; [reflexivity|].
  cbn [flat_map filter]. rewrite scalarValuesOf_app. intros Hempty.
  apply app_eq_nil in Hempty as [Hfirst Hrest].
  destruct (hasProcessName key processDump); [|apply IH; assumption].
  cbn [flat_map]. rewrite scalarValuesOf_app, Hfirst. apply IH. assumption.
Qed.

Lemma totals_of_process_dumps extractor processDumps groups totals name :
  addProcessDumps extractor [] processDumps = Ok groups ->
  totalsOf (dictionaryValues groups) totals ->
  match dict_get totals name with
  | Some total =>
      scalarValuesOf name (flat_map extractor processDumps) <> []
      /\ scalar_value total
         = sumZ (List.map (valueOfDump extractor name) processDumps)
  | None => scalarValuesOf name (flat_map extractor processDumps) = []
  end.
Proof.
  intros Hadd Htotals.
  pose proof (addProcessDumps_sums_from_empty _ _ _ Hadd) as Hsums.
  assert (Hnd : NoDup (dict_keys groups)).
  { eapply addProcessDumps_keys; [|eassumption]. constructor. }
  assert (Hin : forall key group, In (key, group) groups ->
            sumsCalls group (callsOfGroup extractor key processDumps)).
  { intros key group Hgroup. pose proof (Hsums key) as Hkey.
    rewrite (dict_get_In_NoDup _ _ _ _ Hnd Hgroup) in Hkey. apply Hkey. }
  assert (Hkeys : forall processDump, In processDump processDumps ->
            In (processNameKey (process_name processDump)) (dict_keys groups)).
  { intros processDump Hdump.
    pose proof (Hsums (processNameKey (process_name processDump))) as Hkey.
    destruct (dict_get groups _) as [group|] eqn:Hget.
    - eapply dict_get_In_keys. eassumption.
    - exfalso.
      assert (Hf : In processDump
                     (filter (hasProcessName
                                (processNameKey (process_name processDump)))
                             processDumps)).
      { apply filter_In. split; [assumption|]. apply String.eqb_refl. }
      rewrite Hkey in Hf. destruct Hf. }
  assert (Hsum : sumZ (groupValuesOf name (dictionaryValues groups))
                 = sumZ (List.map (valueOfDump extractor name) processDumps)).
  { rewrite (sumZ_groupValues extractor name processDumps groups Hin).
    apply sumZ_over_groups; assumption. }
  pose proof (Htotals name) as Hname.
  destruct (dict_get totals name) as [total|].
  - destruct Hname as [Hheld Hvalue]. split; [|rewrite Hvalue; exact Hsum].
    intros Hempty. apply Hheld. apply groupValuesOf_absent.
    intros group Hgroup. unfold dictionaryValues in Hgroup.
    apply in_map_iff in Hgroup as ([key group'] & Hsnd & Hgroup).
    cbn in Hsnd. subst group'.
    pose proof (Hin _ _ Hgroup name) as Hcalls.
    destruct (dict_get group name) as [scalar|]; [|reflexivity].
    exfalso. destruct Hcalls as [Hcalls _]. apply Hcalls.
    apply scalarValuesOf_of_group. assumption.
  - (* no group holds the name: no call defines it *)
    clear Hsum.
    assert (Hnone : forall processDump, In processDump processDumps ->
              scalarValuesOf name (extractor processDump) = []).
    { intros processDump Hdump.
      pose proof (Hkeys _ Hdump) as Hkey.
      apply in_map_iff in Hkey as ([key group] & Hfst & Hgroup).
      cbn in Hfst. subst key.
      pose proof (Hin _ _ Hgroup name) as Hcalls.
      assert (Hg : dict_get group name = None).
      { destruct (dict_get group name) as [scalar|] eqn:Hget; [|reflexivity].
        exfalso.
        assert (Hv : In (scalar_value scalar)
                        (groupValuesOf name (dictionaryValues groups))).
        { unfold groupValuesOf. apply in_flat_map. exists group. split.
          - apply (in_map snd) in Hgroup. exact Hgroup.
          - rewrite Hget. left. reflexivity. }
        rewrite Hname in Hv. destruct Hv. }
      rewrite Hg in Hcalls.
      destruct (scalarValuesOf name (extractor processDump)) as [|z zs] eqn:Hz;
        [reflexivity|]. exfalso.
      assert (Hz' : In z (scalarValuesOf name
                            (callsOfGroup extractor
                               (processNameKey (process_name processDump))
                               processDumps))).
      { unfold scalarValuesOf, callsOfGroup.
        assert (Hzin : In z (scalarValuesOf name (extractor processDump))).
        { rewrite Hz. left. reflexivity. }
        unfold scalarValuesOf in Hzin.
        apply in_flat_map in Hzin as (call & Hcall & Hzc).
        apply in_flat_map. exists call. split; [|assumption].
        apply in_flat_map. exists processDump. split; [|assumption].
        apply filter_In. split; [assumption | apply String.eqb_refl]. }
      rewrite Hcalls in Hz'. destruct Hz'. }
    induction processDumps as [|processDump rest IH]; [reflexivity|].
    cbn [flat_map]. rewrite scalarValuesOf_app.
    rewrite (Hnone processDump (or_introl eq_refl)). cbn [List.app].
    clear - Hnone. induction rest as [|d rest IH]; [reflexivity|].
    cbn [flat_map]. rewrite scalarValuesOf_app.
    rewrite (Hnone d (or_intror (or_introl eq_refl))). cbn [List.app].
    apply IH. intros pd [<-|Hpd]; apply Hnone; [left; reflexivity|].
    right. right. assumption.
Qed.

Lemma perProcessNameValues_Forall2 globalDumps customFilter extractor perTime :
  perProcessNameValues globalDumps customFilter extractor = Ok perTime ->
  Forall2
    (fun globalDump result =>
       exists groups,
         addProcessDumps extractor [] (processMemoryDumps globalDump)
         = Ok groups
         /\ injectTotals groups = Ok result)
    (filter customFilter globalDumps) perTime.
Proof.
  unfold perProcessNameValues, calculatePerProcessNameMemoryDumpValues,
    injectTotalsIntoPerProcessNameMemoryDumpValues.
  generalize (filter customFilter globalDumps) as dumps. intros dumps.
  destruct (mapResult _ dumps) as [sums|] eqn:Hsums; cbn; [|discriminate].
  intros Htotals.
  apply mapResult_Forall2 in Hsums. apply mapResult_Forall2 in Htotals.
  revert perTime Htotals.
  induction Hsums as [|globalDump groups dumps sums Hone _ IH];
    intros perTime Htotals; inversion Htotals; subst; constructor.
  - exists groups. split; assumption.
  - apply IH. assumption.
Qed.

(** X17: for global dumps whose process names are ASCII and whose
    process-name keys and value names are not names that a plain object
    inherits, when the sums and the totals of the global dumps that pass the
    filter succeed, the group all of every such dump holds a value name
    exactly when the extractor gave a defined scalar under it for some
    process dump of the global dump, and its value is the sum over all the
    process dumps of what each contributes, whatever their process names. *)
Theorem all_processes_total_sums_every_process_dump
    globalDumps customFilter extractor perTime :
  plainProcessNames (filter customFilter globalDumps) ->
  plainValueNames extractor (filter customFilter globalDumps) ->
  perProcessNameValues globalDumps customFilter extractor = Ok perTime ->
  Forall2
    (fun globalDump result =>
       exists totals,
         dict_get result ALL_PROCESS_NAMES = Some totals
         /\ forall name,
              match dict_get totals name with
              | Some total =>
                  scalarValuesOf name
                    (flat_map extractor (processMemoryDumps globalDump))
                  <> []
                  /\ scalar_value total
                     = sumZ (List.map (valueOfDump extractor name)
                                      (processMemoryDumps globalDump))
              | None =>
                  scalarValuesOf name
                    (flat_map extractor (processMemoryDumps globalDump)) = []
              end)
    (filter customFilter globalDumps) perTime.
Proof.
  intros _ _ Hvalues. apply perProcessNameValues_Forall2 in Hvalues.
  induction Hvalues as [|globalDump result dumps perTime Hone _ IH];
    constructor; [|assumption].
  destruct Hone as (groups & Hadd & Hinject).
  apply injectTotals_ok in Hinject as (totals & -> & Htotals).
  exists totals. split; [apply dict_get_set_same|].
  intros name. eapply totals_of_process_dumps; eassumption.
Qed.

(** Two browser processes: the total process count is 2, and no total is
    held under a name that the extractor does not give. *)
Lemma all_processes_total_sums_every_process_dump_witness :
  exists totals,
    perProcessNameValues [sampleGlobalDump 1] (fun _ => true)
                         (generalProcessDumpValueExtractor "size")
    = Ok [[("browser"%string,
            [("process_count"%string,
              mkScalar unitlessNumber_smallerIsBetter 2)]);
           (ALL_PROCESS_NAMES, totals)]]
    /\ (exists total,
          dict_get totals "process_count" = Some total
          /\ scalar_value total = 2%Z)
    /\ dict_get totals "subsystem:v8" = None.
Proof.
  pose proof (all_processes_total_sums_every_process_dump
                [sampleGlobalDump 1] (fun _ => true)
                (generalProcessDumpValueExtractor "size")
                [[("browser"%string,
                   [("process_count"%string,
                     mkScalar unitlessNumber_smallerIsBetter 2)]);
                  (ALL_PROCESS_NAMES,
                   [("process_count"%string,
                     mkScalar unitlessNumber_smallerIsBetter 2)])]])
    as Hall.
  eexists. split; [reflexivity|].
  assert (Hforall : Forall2
            (fun globalDump result =>
               exists totals,
                 dict_get result ALL_PROCESS_NAMES = Some totals
                 /\ forall name,
                      match dict_get totals name with
                      | Some total =>
                          scalarValuesOf name
                            (flat_map
                               (generalProcessDumpValueExtractor "size")
                               (processMemoryDumps globalDump))
                          <> []
                          /\ scalar_value total
                             = sumZ (List.map
                                       (valueOfDump
                                          (generalProcessDumpValueExtractor
                                             "size") name)
                                       (processMemoryDumps globalDump))
                      | None =>
                          scalarValuesOf name
                            (flat_map
                               (generalProcessDumpValueExtractor "size")
                               (processMemoryDumps globalDump)) = []
                      end)
            (filter (fun _ => true) [sampleGlobalDump 1])
            [[("browser"%string,
               [("process_count"%string,
                 mkScalar unitlessNumber_smallerIsBetter 2)]);
              (ALL_PROCESS_NAMES,
               [("process_count"%string,
                 mkScalar unitlessNumber_smallerIsBetter 2)])]]).
  { apply Hall.
    - intros globalDump processDump [<-|[]] [<-|[<-|[]]]; reflexivity.
    - intros globalDump processDump [<-|[]] [<-|[<-|[]]]; reflexivity.
    - reflexivity. }
  inversion Hforall as [|? ? ? ? (totals & Hget & Hnames) _]; subst.
  cbn in Hget. inversion Hget; subst totals.
  split.
  - pose proof (Hnames "process_count"%string) as Hcount.
    cbn in Hcount. eexists. split; [reflexivity|]. apply Hcount.
  - reflexivity.
Defined.

Lemma filter_true (A : Type) (l : list A) : filter (fun _ => true) l = l.
Proof.
  induction l as [|a l IH]; cbn; [reflexivity|]. rewrite IH. reflexivity.
Qed.

Lemma scalarValuesOf_absent name calls :
  Forall (fun call => String.eqb (fst call) name = false) calls ->
  scalarValuesOf name calls = [].
Proof.
  induction 1 as [|[callName scalar] rest Hcall _ IH]; [reflexivity|].
  change ((callName, scalar) :: rest) with ([(callName, scalar)] ++ rest)%list.
  rewrite scalarValuesOf_app, IH. cbn in *. rewrite Hcall.
  destruct scalar; reflexivity.
Qed.

Lemma general_process_count D processDump :
  scalarValuesOf "process_count"
                 (generalProcessDumpValueExtractor D processDump)
  = [1%Z].
Proof.
  unfold generalProcessDumpValueExtractor.
  change (?call :: ?rest) with ([call] ++ rest)%list.
  rewrite scalarValuesOf_app.
  rewrite (scalarValuesOf_absent "process_count"
             (match memoryAllocatorDumps processDump with
              | Some roots => _
              | None => []
              end)).
  - reflexivity.
  - destruct (memoryAllocatorDumps processDump) as [roots|]; [|constructor].
    apply Forall_app. split.
    + apply Forall_flat_map. apply Forall_forall. intros root _.
      repeat constructor.
    + destruct (getMemoryAllocatorDumpByFullName processDump _)
        as [memtrackDump|]; [|constructor].
      apply Forall_map. apply Forall_forall. intros child _. reflexivity.
Qed.

Lemma sumZ_ones (A : Type) (f : A -> Z) l :
  (forall a, f a = 1%Z) -> sumZ (List.map f l) = Z.of_nat (List.length l).
Proof.
  intros Hone. induction l as [|a l IH]; [reflexivity|].
  cbn [List.map List.length]. rewrite sumZ_cons, IH, Hone. lia.
Qed.

Lemma general_value_names_plain D processDump :
  hasPlainValueNames (generalProcessDumpValueExtractor D) processDump = true.
Proof.
  unfold hasPlainValueNames, generalProcessDumpValueExtractor.
  cbn [forallb fst]. apply andb_true_intro. split; [reflexivity|].
  apply forallb_forall. intros call Hcall.
  destruct (memoryAllocatorDumps processDump) as [roots|]; [|destruct Hcall].
  apply in_app_or in Hcall as [Hcall|Hcall].
  - apply in_flat_map in Hcall as (root & _ & [<-|[<-|[]]]); reflexivity.
  - destruct (getMemoryAllocatorDumpByFullName processDump _)
      as [memtrackDump|]; [|destruct Hcall].
    apply in_map_iff in Hcall as (child & <- & _). reflexivity.
Qed.

(** X18: for the general memory values of global dumps whose process names
    are ASCII and give no key that a plain object inherits, the total
    process_count over all process names of a global dump is the number of
    its process dumps, and it is missing only for a global dump without
    process dumps; the value names of the general extractor are never names
    that a plain object inherits. *)
Theorem process_count_total_counts_process_dumps D globalDumps perTime :
  plainProcessNames globalDumps ->
  perProcessNameValues globalDumps (fun _ => true)
                       (generalProcessDumpValueExtractor D)
  = Ok perTime ->
  plainValueNames (generalProcessDumpValueExtractor D) globalDumps
  /\ Forall2
       (fun globalDump result =>
          exists totals,
            dict_get result ALL_PROCESS_NAMES = Some totals
            /\ match dict_get totals "process_count" with
               | Some total =>
                   scalar_value total
                   = Z.of_nat (List.length (processMemoryDumps globalDump))
               | None => processMemoryDumps globalDump = []
               end)
       globalDumps perTime.
Proof.
  intros _ Hvalues. split.
  { intros globalDump processDump _ _. apply general_value_names_plain. }
  apply perProcessNameValues_Forall2 in Hvalues.
  rewrite filter_true in Hvalues.
  induction Hvalues as [|globalDump result dumps perTime Hone _ IH];
    constructor; [|assumption].
  destruct Hone as (groups & Hadd & Hinject).
  apply injectTotals_ok in Hinject as (totals & -> & Htotals).
  exists totals. split; [apply dict_get_set_same|].
  pose proof (totals_of_process_dumps _ _ _ _ "process_count" Hadd Htotals)
    as Hcount.
  destruct (dict_get totals "process_count") as [total|].
  - destruct Hcount as [_ Hcount].
    rewrite Hcount. apply sumZ_ones. intros processDump.
    unfold valueOfDump. rewrite general_process_count. reflexivity.
  - destruct (processMemoryDumps globalDump) as [|processDump rest];
      [reflexivity|]. exfalso.
    cbn [flat_map] in Hcount. rewrite scalarValuesOf_app in Hcount.
    rewrite general_process_count in Hcount. discriminate.
Qed.

(** A global dump with two process dumps. *)
Lemma process_count_total_counts_process_dumps_witness :
  exists perTime,
    perProcessNameValues [sampleGlobalDump 1] (fun _ => true)
                         (generalProcessDumpValueExtractor "size")
    = Ok perTime
    /\ Forall2
         (fun globalDump result =>
            exists totals,
              dict_get result ALL_PROCESS_NAMES = Some totals
              /\ match dict_get totals "process_count" with
                 | Some total =>
                     scalar_value total
                     = Z.of_nat (List.length (processMemoryDumps globalDump))
                 | None => processMemoryDumps globalDump = []
                 end)
         [sampleGlobalDump 1] perTime.
Proof.
  destruct (perProcessNameValues [sampleGlobalDump 1] (fun _ => true)
                                 (generalProcessDumpValueExtractor "size"))
    as [perTime|message] eqn:Hvalues.
  - exists perTime. split; [reflexivity|].
    apply (process_count_total_counts_process_dumps "size");
      [|exact Hvalues].
    intros globalDump processDump [<-|[]] [<-|[<-|[]]]; reflexivity.
  - vm_compute in Hvalues. discriminate Hvalues.
Defined.

(** ** Dump counts *)

Lemma hasLevelOfDetail_cases globalDump :
  (hasLevelOfDetail LIGHT globalDump = true
   /\ hasLevelOfDetail DETAILED globalDump = false
   /\ levelOfDetail globalDump = Some LIGHT)
  \/ (hasLevelOfDetail LIGHT globalDump = false
      /\ hasLevelOfDetail DETAILED globalDump = true
      /\ levelOfDetail globalDump = Some DETAILED)
  \/ (hasLevelOfDetail LIGHT globalDump = false
      /\ hasLevelOfDetail DETAILED globalDump = false
      /\ levelOfDetail globalDump = None).
Proof.
  unfold hasLevelOfDetail.
  destruct (levelOfDetail globalDump) as [[|]|]; tauto.
Qed.

Lemma dumpCounts_fold globalDumps : forall total light detailed,
  fold_left countGlobalDump globalDumps
            [("total"%string, total); ("light"%string, light);
             ("detailed"%string, detailed)]
  = [("total"%string, (total + Z.of_nat (List.length globalDumps))%Z);
     ("light"%string, (light + countLevelOfDetail LIGHT globalDumps)%Z);
     ("detailed"%string,
      (detailed + countLevelOfDetail DETAILED globalDumps)%Z)].
Proof.
  unfold countLevelOfDetail.
  induction globalDumps as [|globalDump rest IH]; intros total light detailed.
  - cbn. rewrite !Z.add_0_r. reflexivity.
  - cbn [fold_left].
    assert (Hstep :
      countGlobalDump [("total"%string, total); ("light"%string, light);
                       ("detailed"%string, detailed)] globalDump
      = [("total"%string, (total + 1)%Z);
         ("light"%string,
          (light + if hasLevelOfDetail LIGHT globalDump then 1 else 0)%Z);
         ("detailed"%string,
          (detailed + if hasLevelOfDetail DETAILED globalDump then 1 else 0)%Z)]).
    { unfold countGlobalDump, hasLevelOfDetail.
      destruct (levelOfDetail globalDump) as [[|]|]; cbn;
        rewrite ?Z.add_0_r; reflexivity. }
    rewrite Hstep, IH. cbn [filter List.length].
    destruct (hasLevelOfDetail_cases globalDump)
      as [(-> & -> & _)|[(-> & -> & _)|(-> & -> & _)]];
      cbn [List.length];
      repeat (apply f_equal2; [apply f_equal2; [reflexivity | lia] | ]);
      reflexivity.
Qed.

Lemma dumpCounts_closed globalDumps :
  dumpCounts globalDumps
  = [("total"%string, Z.of_nat (List.length globalDumps));
     ("light"%string, countLevelOfDetail LIGHT globalDumps);
     ("detailed"%string, countLevelOfDetail DETAILED globalDumps)].
Proof.
  unfold dumpCounts. cbn [fold_left LEVEL_OF_DETAIL_NAMES snd dict_set].
  cbn -[fold_left countGlobalDump]. rewrite dumpCounts_fold. reflexivity.
Qed.

Lemma forEachJs_appends_all (S0 A : Type) (f : A -> js (list S0) unit)
    (g : A -> list S0) l :
  (forall a s, In a l -> f a s = (Ok tt, (s ++ g a)%list)) ->
  forall s, forEachJs l f s = (Ok tt, (s ++ flat_map g l)%list).
Proof.
  induction l as [|a l IH]; intros Hf s; cbn.
  - rewrite app_nil_r. reflexivity.
  - unfold js_bind. rewrite (Hf a s (or_introl eq_refl)).
    rewrite IH by (intros a' s' Hin; apply Hf; right; assumption).
    rewrite app_assoc. reflexivity.
Qed.

Lemma countLevels_le_total globalDumps :
  (countLevelOfDetail LIGHT globalDumps
   + countLevelOfDetail DETAILED globalDumps
   <= Z.of_nat (List.length globalDumps))%Z.
Proof.
  unfold countLevelOfDetail.
  induction globalDumps as [|globalDump rest IH]; cbn [filter List.length];
    [lia|].
  destruct (hasLevelOfDetail_cases globalDump)
    as [(-> & -> & _)|[(-> & -> & _)|(-> & -> & _)]];
    cbn [List.length]; lia.
Qed.

Lemma addMemoryDumpCountValues_closed
    canonicalUrl browserNameToGlobalDumps values :
  addMemoryDumpCountValues canonicalUrl browserNameToGlobalDumps values
  = (Ok tt,
     (values
      ++ flat_map (dumpCountValues canonicalUrl) browserNameToGlobalDumps)%list).
Proof.
  unfold addMemoryDumpCountValues. apply forEachJs_appends_all.
  intros [browserName globalDumps] s _. rewrite dumpCounts_closed.
  cbn [forEachJs]. unfold js_bind, addMemoryValue, js_ret.
  rewrite <- !app_assoc. reflexivity.
Qed.

(** X19: [addMemoryDumpCountValues] never throws and appends, for every
    browser in order, exactly three scalar values: the dump counts total,
    light and detailed, which are the number of global dumps of the browser
    and the numbers of those of level LIGHT and of level DETAILED.  The two
    level counts never exceed the total, and they add up to it when every
    global dump has a level of detail. *)
Theorem dump_counts_reported_per_browser
    canonicalUrl browserNameToGlobalDumps values :
  addMemoryDumpCountValues canonicalUrl browserNameToGlobalDumps values
  = (Ok tt,
     (values
      ++ flat_map (dumpCountValues canonicalUrl) browserNameToGlobalDumps)%list)
  /\ forall globalDumps,
       (countLevelOfDetail LIGHT globalDumps
        + countLevelOfDetail DETAILED globalDumps
        <= Z.of_nat (List.length globalDumps))%Z
       /\ ((forall globalDump, In globalDump globalDumps ->
              levelOfDetail globalDump <> None) ->
           (countLevelOfDetail LIGHT globalDumps
            + countLevelOfDetail DETAILED globalDumps
            = Z.of_nat (List.length globalDumps))%Z).
Proof.
  split; [apply addMemoryDumpCountValues_closed|].
  intros globalDumps. split; [apply countLevels_le_total|].
  unfold countLevelOfDetail.
  induction globalDumps as [|globalDump rest IH]; intros Hlevels;
    cbn [filter List.length]; [reflexivity|].
  assert (Hrest : forall g, In g rest -> levelOfDetail g <> None)
    by (intros g Hg; apply Hlevels; right; assumption).
  specialize (IH Hrest).
  pose proof (Hlevels globalDump (or_introl eq_refl)) as Hlevel.
  destruct (hasLevelOfDetail_cases globalDump)
    as [(-> & -> & _)|[(-> & -> & _)|(-> & -> & Hnone)]];
    cbn [List.length]; [lia | lia | congruence].
Qed.

(** Two detailed global dumps. *)
Lemma dump_counts_reported_per_browser_witness :
  (countLevelOfDetail LIGHT [sampleGlobalDump 1; sampleGlobalDump 2]
   + countLevelOfDetail DETAILED [sampleGlobalDump 1; sampleGlobalDump 2]
   = 2)%Z.
Proof.
  destruct (dump_counts_reported_per_browser sampleUrl [] []) as [_ Hcounts].
  apply (Hcounts [sampleGlobalDump 1; sampleGlobalDump 2]).
  intros globalDump [<-|[<-|[]]]; discriminate.
Defined.

(** ** Reported histograms *)

Section ForEach.
Variables (S0 A : Type).
Variable P : S0 -> Prop.
Variable f : A -> js (list S0) unit.

Lemma forEachJs_appends l :
  (forall a s, In a l ->
     exists added, snd (f a s) = (s ++ added)%list /\ Forall P added) ->
  forall s,
    exists added, snd (forEachJs l f s) = (s ++ added)%list /\ Forall P added.
Proof.
  induction l as [|a l IH]; intros Hf s; cbn [forEachJs].
  - exists []. split; [symmetry; apply app_nil_r | constructor].
  - unfold js_bind.
    destruct (Hf a s (or_introl eq_refl)) as (added1 & Hs1 & HP1).
    destruct (f a s) as [[[]|message] s1]; cbn [snd] in Hs1; subst s1.
    + destruct (IH (fun a' s' Hin => Hf a' s' (or_intror Hin))
                   (s ++ added1)%list) as (added2 & Hs2 & HP2).
      exists (added1 ++ added2)%list. split.
      * rewrite Hs2, app_assoc. reflexivity.
      * apply Forall_app. split; assumption.
    + exists added1. split; [reflexivity | assumption].
Qed.

End ForEach.

Lemma mergeScalarsIntoNumeric_samples scalars numeric :
  mergeScalarsIntoNumeric scalars = Ok numeric ->
  List.length (numeric_samples numeric) = List.length scalars.
Proof.
  unfold mergeScalarsIntoNumeric.
  destruct (findFirstInArray scalars) as [first|]; [|discriminate].
  destruct (MEMORY_NUMERIC_BUILDER_MAP _) as [builder|]; [|discriminate].
  intros H; inversion H; subst. cbn. apply length_map.
Qed.

Lemma reportPerProcessNameMemoryDumpValues_appends
    canonicalUrl timeToProcessNameToValueNameToScalar browserName values :
  exists added,
    snd (reportPerProcessNameMemoryDumpValues
           canonicalUrl timeToProcessNameToValueNameToScalar browserName values)
    = (values ++ added)%list
    /\ Forall (isReportedHistogram
                 canonicalUrl browserName
                 (List.length timeToProcessNameToValueNameToScalar))
              added.
Proof.
  unfold reportPerProcessNameMemoryDumpValues.
  apply forEachJs_appends. intros [processName timeToValueNameToScalar] s Hp.
  cbn [fst snd].
  assert (Hlen : List.length timeToValueNameToScalar
                 = List.length timeToProcessNameToValueNameToScalar).
  { unfold invertArrayOfDicts in Hp. apply in_map_iff in Hp as (key & Hkey & _).
    inversion Hkey; subst. apply length_map. }
  apply forEachJs_appends. intros [valueName timeToScalar] s' Hv.
  cbn [fst snd].
  assert (Hlen' : List.length timeToScalar
                  = List.length timeToProcessNameToValueNameToScalar).
  { unfold invertArrayOfOptionalDicts in Hv.
    apply in_map_iff in Hv as (key & Hkey & _).
    inversion Hkey; subst. rewrite length_map. assumption. }
  unfold js_bind, js_lift, addMemoryValue.
  destruct (mergeScalarsIntoNumeric timeToScalar) as [numeric|message] eqn:Hm;
    cbn [snd].
  - eexists [_]. split; [reflexivity|]. constructor; [|constructor].
    split; [reflexivity|]. exists processName, valueName, numeric.
    split; [reflexivity|]. split; [reflexivity|].
    rewrite (mergeScalarsIntoNumeric_samples _ _ Hm). assumption.
  - exists []. split; [symmetry; apply app_nil_r | constructor].
Qed.

(** ** The detailed values *)













(** ** The memory metric as a whole *)

Lemma addPerProcessNameMemoryDumpValues_appends
    canonicalUrl browserNameToGlobalDumps customFilter extractor values :
  exists added,
    snd (addPerProcessNameMemoryDumpValues
           canonicalUrl browserNameToGlobalDumps customFilter extractor values)
    = (values ++ added)%list
    /\ Forall (fun value => mv_canonicalUrl value = canonicalUrl) added.
Proof.
  unfold addPerProcessNameMemoryDumpValues.
  apply forEachJs_appends. intros [browserName globalDumps] s _.
  cbn [fst snd]. unfold js_bind, js_lift.
  destruct (perProcessNameValues _ _ _) as [perTime|message].
  - destruct (reportPerProcessNameMemoryDumpValues_appends
                canonicalUrl perTime browserName s) as (added & Hs & Hadded).
    exists added. split; [assumption|].
    eapply Forall_impl; [|eassumption]. intros value [Hurl _]. exact Hurl.
  - exists []. split; [symmetry; apply app_nil_r | constructor].
Qed.

Lemma perProcessNameValues_length globalDumps customFilter extractor perTime :
  perProcessNameValues globalDumps customFilter extractor = Ok perTime ->
  List.length perTime = List.length (filter customFilter globalDumps).
Proof.
  intros Hvalues. apply perProcessNameValues_Forall2 in Hvalues.
  symmetry. eapply Forall2_length. eassumption.
Qed.

(** X20: whatever the filter and the extractor, and whether or not it
    throws, [addPerProcessNameMemoryDumpValues] only appends to the value
    list, and every value it appends is a histogram of the canonical URL,
    named memory:browser:process:value for one of the browsers, with exactly
    one sample for every global dump of that browser that passes the
    filter. *)
Theorem reported_histograms_sample_every_dump
    canonicalUrl browserNameToGlobalDumps customFilter extractor values :
  exists added,
    snd (addPerProcessNameMemoryDumpValues
           canonicalUrl browserNameToGlobalDumps customFilter extractor values)
    = (values ++ added)%list
    /\ Forall
         (fun value =>
            exists browserItem,
              In browserItem browserNameToGlobalDumps
              /\ isReportedHistogram
                   canonicalUrl (fst browserItem)
                   (List.length (filter customFilter (snd browserItem)))
                   value)
         added.
Proof.
  unfold addPerProcessNameMemoryDumpValues.
  apply forEachJs_appends. intros [browserName globalDumps] s Hin.
  cbn [fst snd]. unfold js_bind, js_lift.
  destruct (perProcessNameValues _ _ _) as [perTime|message] eqn:Hvalues.
  - destruct (reportPerProcessNameMemoryDumpValues_appends
                canonicalUrl perTime browserName s) as (added & Hs & Hadded).
    exists added. split; [assumption|].
    eapply Forall_impl; [|eassumption]. intros value Hvalue.
    exists (browserName, globalDumps). split; [assumption|].
    cbn [fst snd].
    rewrite <- (perProcessNameValues_length _ _ _ _ Hvalues). assumption.
  - exists []. split; [symmetry; apply app_nil_r | constructor].
Qed.

Section MemoryMetricProperties.
Variable DISPLAYED_SIZE_NUMERIC_NAME : string.

(** X22: [memoryMetric] only appends values of the canonical URL to the
    value list; when the split by browser throws it throws the same error
    and adds nothing; and when it succeeds the last values of the list are
    the dump counts of every browser group of the split. *)
Theorem memoryMetric_appends_and_ends_with_dump_counts
    canonicalUrl model values :
  (exists added,
     snd (memoryMetric DISPLAYED_SIZE_NUMERIC_NAME canonicalUrl model values)
     = (values ++ added)%list
     /\ Forall (fun value => mv_canonicalUrl value = canonicalUrl) added)
  /\ (forall message,
        splitGlobalDumpsByBrowserName model = Throw message ->
        memoryMetric DISPLAYED_SIZE_NUMERIC_NAME canonicalUrl model values
        = (Throw message, values))
  /\ (forall browserNameToGlobalDumps,
        splitGlobalDumpsByBrowserName model = Ok browserNameToGlobalDumps ->
        fst (memoryMetric DISPLAYED_SIZE_NUMERIC_NAME canonicalUrl model values)
        = Ok tt ->
        exists added,
          snd (memoryMetric DISPLAYED_SIZE_NUMERIC_NAME canonicalUrl model
                            values)
          = (values ++ added
             ++ flat_map (dumpCountValues canonicalUrl)
                         browserNameToGlobalDumps)%list).
Proof.
  unfold memoryMetric, js_bind, js_lift.
  destruct (splitGlobalDumpsByBrowserName model) as [browsers|clash].
  - unfold addGeneralMemoryDumpValues, addDetailedMemoryDumpValues.
    destruct (addPerProcessNameMemoryDumpValues_appends
                canonicalUrl browsers (fun _ => true)
                (generalProcessDumpValueExtractor DISPLAYED_SIZE_NUMERIC_NAME)
                values) as (added1 & Hs1 & Hurl1).
    destruct (addPerProcessNameMemoryDumpValues _ _ (fun _ => true) _ values)
      as [[[]|message1] s1]; cbn [snd] in Hs1; subst s1.
    + destruct (addPerProcessNameMemoryDumpValues_appends
                  canonicalUrl browsers detailedGlobalDumpFilter
                  detailedProcessDumpValueExtractor (values ++ added1)%list)
        as (added2 & Hs2 & Hurl2).
      destruct (addPerProcessNameMemoryDumpValues _ _ detailedGlobalDumpFilter
                  _ _) as [[[]|message2] s2]; cbn [snd] in Hs2; subst s2.
      * rewrite addMemoryDumpCountValues_closed. cbn [fst snd].
        split; [|split; [discriminate|]].
        -- exists (added1 ++ added2
                   ++ flat_map (dumpCountValues canonicalUrl) browsers)%list.
           split; [rewrite <- !app_assoc; reflexivity|].
           repeat (apply Forall_app; split); try assumption.
           apply Forall_flat_map. apply Forall_forall. intros item _.
           repeat constructor.
        -- intros ? H _. inversion H; subst.
           exists (added1 ++ added2)%list. rewrite <- !app_assoc. reflexivity.
      * cbn [fst snd]. split; [|split; [discriminate|]].
        -- exists (added1 ++ added2)%list.
           split; [rewrite <- app_assoc; reflexivity|].
           apply Forall_app. split; assumption.
        -- intros ? _ H. discriminate.
    + cbn [fst snd]. split; [|split; [discriminate|]].
      * exists added1. split; [reflexivity | assumption].
      * intros ? _ H. discriminate.
  - cbn [fst snd]. split; [|split].
    + exists []. split; [symmetry; apply app_nil_r | constructor].
    + intros message H. inversion H. reflexivity.
    + discriminate.
Qed.
End MemoryMetricProperties.

(** The clash of the two sample browsers, and the dump counts of the sample
    model. *)
Lemma memoryMetric_appends_and_ends_with_dump_counts_witness :
  (exists message,
     memoryMetric "size" sampleUrl sampleClashModel []
     = (Throw message, []))
  /\ (exists browserNameToGlobalDumps added,
        splitGlobalDumpsByBrowserName sampleMemoryModel
        = Ok browserNameToGlobalDumps
        /\ snd (memoryMetric "size" sampleUrl sampleMemoryModel [])
           = ([] ++ added
              ++ flat_map (dumpCountValues sampleUrl)
                          browserNameToGlobalDumps)%list).
Proof.
  split.
  - destruct (splitGlobalDumpsByBrowserName sampleClashModel)
      as [browserNameToGlobalDumps|message] eqn:Hsplit.
    + vm_compute in Hsplit. discriminate Hsplit.
    + exists message.
      destruct (memoryMetric_appends_and_ends_with_dump_counts
                  "size" sampleUrl sampleClashModel []) as (_ & Hclash & _).
      apply Hclash. exact Hsplit.
  - destruct (splitGlobalDumpsByBrowserName sampleMemoryModel)
      as [browserNameToGlobalDumps|message] eqn:Hsplit.
    + destruct (memoryMetric_appends_and_ends_with_dump_counts
                  "size" sampleUrl sampleMemoryModel []) as (_ & _ & Hcounts).
      destruct (Hcounts browserNameToGlobalDumps Hsplit) as (added & Hadded).
      * vm_compute. reflexivity.
      * exists browserNameToGlobalDumps, added.
        split; [reflexivity | exact Hadded].
    + vm_compute in Hsplit. discriminate Hsplit.
Defined.
